(** * render.py: the static compatibility-site generator

    A shallow embedding of [render.py] and the properties of its matrix
    parser, its compatibility aggregator, its evidence locator and its
    page generation.

    Conventions of the embedding.
    - A Python [str] is a [string]; a character is a code point below 256,
      so [isspace] and [lower] are Python's, restricted to that range, and
      the order on strings is the order by code points.
    - A [dict] that the code only looks up is a [gmap]; a Python [set] is a
      [gset], and [list(s)] is [elements s].
    - Python integers used as counters are [nat].
    - The true division [failures / total_tests * 100] is computed on exact
      rationals ([Qc]); rounding of binary floating point is not modelled.
    - An exception is a value of [exn]; a function that may raise returns a
      [result]. *)

From Stdlib Require Import Ascii QArith Qcanon.
From stdpp Require Import gmap strings list sorting fin_maps pretty.

(** ** Python strings *)

Module Py.

(** [str.isspace] on one character. *)
Definition isspace (c : ascii) : bool :=
  let n := N_of_ascii c in
  ((9 <=? n) && (n <=? 13) || (28 <=? n) && (n <=? 32)
   || (n =? 133) || (n =? 160))%N.

(** [str.lower] on one character. *)
Definition lower_char (c : ascii) : ascii :=
  let n := N_of_ascii c in
  if ((65 <=? n) && (n <=? 90)
      || (192 <=? n) && (n <=? 222) && negb (n =? 215))%N
  then ascii_of_N (n + 32) else c.

Fixpoint lower (s : string) : string :=
  match s with
  | "" => ""
  | String c s' => String (lower_char c) (lower s')
  end.

Fixpoint lstrip (s : string) : string :=
  match s with
  | "" => ""
  | String c s' => if isspace c then lstrip s' else s
  end.

(** [rstrip] keeps a character when it is not a space or when something
    is kept after it. *)
Fixpoint rstrip (s : string) : string :=
  match s with
  | "" => ""
  | String c s' =>
      match rstrip s' with
      | "" => if isspace c then "" else String c ""
      | r => String c r
      end
  end.

Definition strip (s : string) : string := rstrip (lstrip s).

(** [s.split(sep)] for a separator of one character: never empty. *)
Fixpoint split (sep : ascii) (s : string) : list string :=
  match s with
  | "" => [""]
  | String c s' =>
      if decide (c = sep) then "" :: split sep s'
      else match split sep s' with
           | w :: ws => String c w :: ws
           | [] => [String c ""]
           end
  end.

(** [s.startswith(p)]. *)
Fixpoint startswith (p s : string) : bool :=
  match p, s with
  | "", _ => true
  | String a p', String b s' => bool_decide (a = b) && startswith p' s'
  | String _ _, "" => false
  end.

(** [sorted] on a list of strings. *)
Definition sorted (l : list string) : list string := merge_sort String.le l.

End Py.

(** ** Exceptions and results *)

Inductive exn : Type :=
  | IndexError
  | KeyError (key : string)
  | AttributeError
  | FileNotFoundError (path : string)
  | FileExistsError (path : string)
  | OSError (path : string)
  | TemplateNotFound (name : string)
  | TemplateError (name : string)
  | ShutilError (path : string).

Global Instance exn_eq_dec : EqDecision exn.
Proof. solve_decision. Defined.

Inductive result (A : Type) : Type :=
  | Ok (a : A)
  | Raise (e : exn).
Arguments Ok {A} a.
Arguments Raise {A} e.

Definition rbind {A B} (r : result A) (k : A → result B) : result B :=
  match r with
  | Ok a => k a
  | Raise e => Raise e
  end.

Definition is_ok {A} (r : result A) : bool :=
  match r with Ok _ => true | Raise _ => false end.

(** [l[i]] for a non-negative index. *)
Definition getitem {A} (l : list A) (i : nat) : result A :=
  match l !! i with
  | Some x => Ok x
  | None => Raise IndexError
  end.

(** ** The compatibility matrix *)

(** [matrix[a][b]], when both keys are present. *)
Definition cell (matrix : gmap string (gmap string string)) (a b : string)
  : option string :=
  matrix !! a ≫= λ row, row !! b.

(** ** parse_csv *)

(** The inner loop, [for j, cell in enumerate(cells[1:])], started at
    index [j] on the row dictionary [row]. *)
Fixpoint fill_row (extensions : list string) (j : nat) (cells : list string)
    (row : gmap string string) : result (gmap string string) :=
  match cells with
  | [] => Ok row
  | c :: cells' =>
      rbind (getitem extensions j) (λ other_ext,
        fill_row extensions (S j) cells'
                 (<[other_ext := Py.lower (Py.strip c)]> row))
  end.

(** The outer loop, [for i, line in enumerate(lines[1:], 1)]. *)
Fixpoint parse_rows (extensions : list string) (lines : list string)
    (matrix : gmap string (gmap string string))
  : result (gmap string (gmap string string)) :=
  match lines with
  | [] => Ok matrix
  | line :: lines' =>
      let cells := Py.split ","%char line in
      rbind (getitem cells 0) (λ c0,
        let ext_name := Py.strip c0 in
        let matrix1 :=
          match matrix !! ext_name with
          | None => <[ext_name := ∅]> matrix
          | Some _ => matrix
          end in
        rbind (fill_row extensions 0 (tail cells)
                        (default ∅ (matrix1 !! ext_name))) (λ row,
          parse_rows extensions lines' (<[ext_name := row]> matrix1)))
  end.

Definition parse_csv (csv_content : string)
  : result (list string * gmap string (gmap string string)) :=
  let lines := Py.split "010"%char (Py.strip csv_content) in
  rbind (getitem lines 0) (λ line0,
    let header := Py.split ","%char line0 in
    let extensions := Py.strip <$> tail header in
    rbind (parse_rows extensions (tail lines) ∅) (λ matrix,
      Ok (extensions, matrix))).

(** ** calculate_failure_rate_and_failed_extensions *)

(** The three local variables of the function. *)
Record tally : Type := Tally {
  total_tests : nat;
  failures : nat;
  failed_extensions : gset string
}.

(** One test was seen whose recorded value is [v] against [other_ext]. *)
Definition count_test (other_ext v : string) (t : tally) : tally :=
  let t1 := Tally (S (total_tests t)) (failures t) (failed_extensions t) in
  if decide (v = "no")
  then Tally (total_tests t1) (S (failures t1))
             ({[other_ext]} ∪ failed_extensions t1)
  else t1.

(** Body of the row loop: [matrix[extension]] is [row]. *)
Definition row_body (extension : string) (row : gmap string string)
    (t : tally) (other_ext : string) : tally :=
  if decide (other_ext ≠ extension) then
    match row !! other_ext with
    | Some v => count_test other_ext v t
    | None => t
    end
  else t.

(** Body of the column loop. *)
Definition column_body (extension : string)
    (matrix : gmap string (gmap string string))
    (t : tally) (other_ext : string) : tally :=
  if decide (other_ext ≠ extension) then
    match matrix !! other_ext with
    | Some other_row =>
        match other_row !! extension with
        | Some v => count_test other_ext v t
        | None => t
        end
    | None => t
    end
  else t.

(** The state of the locals after both loops. *)
Definition run_tally (extension : string) (extensions : list string)
    (matrix : gmap string (gmap string string)) : tally :=
  let t0 := Tally 0 0 ∅ in
  let t1 :=
    match matrix !! extension with
    | Some row => foldl (row_body extension row) t0 extensions
    | None => t0
    end in
  foldl (column_body extension matrix) t1 extensions.

Definition Qc_of_nat (n : nat) : Qc := Q2Qc (inject_Z (Z.of_nat n)).

Definition calculate_failure_rate_and_failed_extensions
    (extension : string) (extensions : list string)
    (matrix : gmap string (gmap string string)) : Qc * list string :=
  let t := run_tally extension extensions matrix in
  let failure_rate :=
    if decide (0 < total_tests t)
    then (Qc_of_nat (failures t) / Qc_of_nat (total_tests t)
          * Qc_of_nat 100)%Qc
    else Qc_of_nat 0 in
  (failure_rate, Py.sorted (elements (failed_extensions t))).

(** ** The aggregator, as the specification words it

    Definitions written from the specification's algorithm (row pass,
    column pass, rate, sorted failing set); they are compared with the
    embedding of the code. *)

Section AggregatorSpec.
Context (E : string) (exts : list string)
        (m : gmap string (gmap string string)).

(** The known names [O ≠ E] with a recorded cell [(E, O)]. *)
Definition spec_row_tested : list string :=
  filter (λ O, O ≠ E ∧ is_Some (cell m E O)) exts.

(** The known names [O ≠ E] with a recorded cell [(O, E)]. *)
Definition spec_column_tested : list string :=
  filter (λ O, O ≠ E ∧ is_Some (cell m O E)) exts.

Definition spec_row_failed : list string :=
  filter (λ O, O ≠ E ∧ cell m E O = Some "no") exts.

Definition spec_column_failed : list string :=
  filter (λ O, O ≠ E ∧ cell m O E = Some "no") exts.

Definition spec_tested : nat :=
  length spec_row_tested + length spec_column_tested.

Definition spec_failed : nat :=
  length spec_row_failed + length spec_column_failed.

Definition spec_failing_set : gset string :=
  list_to_set (spec_row_failed ++ spec_column_failed).

Definition spec_failure_rate : Qc :=
  if decide (0 < spec_tested)
  then (Qc_of_nat 100 * Qc_of_nat spec_failed / Qc_of_nat spec_tested)%Qc
  else Qc_of_nat 0.
End AggregatorSpec.

(** The common shape of the two loop bodies of the aggregator: [look O] is
    the cell that the pass reads for the name [O]. *)
Definition scan_body (E : string) (look : string → option string)
    (t : tally) (O : string) : tally :=
  if decide (O ≠ E) then
    match look O with
    | Some v => count_test O v t
    | None => t
    end
  else t.

(** ** The specification's scenario *)

(** Extensions [A, B, C]; A row: B=no, C=yes; B row: A=yes, C=no;
    C row: A=no, B=yes. *)
Definition scenario_extensions : list string := ["A"; "B"; "C"].

Definition scenario_matrix : gmap string (gmap string string) :=
  {[ "A" := {[ "B" := "no"; "C" := "yes" ]};
     "B" := {[ "A" := "yes"; "C" := "no" ]};
     "C" := {[ "A" := "no"; "B" := "yes" ]} ]}.

Definition newline : string := String "010"%char "".

(** The same scenario as the text of a compatibility table. *)
Definition scenario_csv : string :=
  "ext,A,B,C" +:+ newline +:+
  "A,,no,yes" +:+ newline +:+
  "B,yes,,no" +:+ newline +:+
  "C,no,yes,".

(** ** Views of a compatibility table

    The intermediate values of [parse_csv], named so that statements can
    speak of the lines, the header and the raw cells of a table. *)

(** [lines = csv_content.strip().split('\n')] *)
Definition csv_lines (csv_content : string) : list string :=
  Py.split "010"%char (Py.strip csv_content).

(** [extensions], the stripped header cells after the first. *)
Definition csv_extensions (csv_content : string) : list string :=
  Py.strip <$> tail (Py.split ","%char (default "" (head (csv_lines csv_content)))).

(** [lines[1:]] *)
Definition csv_data_lines (csv_content : string) : list string :=
  tail (csv_lines csv_content).

(** [cells[0].strip()] of a data line. *)
Definition row_name (line : string) : string :=
  Py.strip (default "" (head (Py.split ","%char line))).

(** [cells[1:]] of a data line. *)
Definition data_cells (line : string) : list string :=
  tail (Py.split ","%char line).

(** [cell.strip().lower()], the value stored for a raw cell. *)
Definition normalise (raw : string) : string := Py.lower (Py.strip raw).

(** A table whose cell for the pair (A, B) is written [ No ]. *)
Definition spaced_no_csv : string :=
  "ext,A,B" +:+ newline +:+
  "A,, No " +:+ newline +:+
  "B,YES,".

(** ** The file system, standard output and exceptions

    Paths are opaque strings: the file system is a finite map from paths
    to nodes, with no normalisation of paths and no check that the parent
    of a path exists.  Writing a text file always succeeds.  A node that
    exists but cannot be opened for reading (no permission, not decodable
    as UTF-8, a directory) raises [OSError]. *)

Inductive node : Type :=
  | Directory
  | File (content : string)
  | Unreadable.

Global Instance node_eq_dec : EqDecision node.
Proof. solve_decision. Defined.

Record world : Type := World {
  fs : gmap string node;
  stdout : list string
}.

(** A computation reads and changes the world and returns or raises; the
    changes made before an exception are kept. *)
Definition M (A : Type) : Type := world → result A * world.

Definition ret {A} (a : A) : M A := λ w, (Ok a, w).

Definition bind {A B} (c : M A) (k : A → M B) : M B :=
  λ w, match c w with
       | (Ok a, w') => k a w'
       | (Raise e, w') => (Raise e, w')
       end.

Definition lift {A} (r : result A) : M A := λ w, (r, w).

(** [try: c  except Exception as e: h e] *)
Definition try_except {A} (c : M A) (h : exn → M A) : M A :=
  λ w, match c w with
       | (Ok a, w') => (Ok a, w')
       | (Raise e, w') => h e w'
       end.

Global Instance M_ret : MRet M := @ret.
Global Instance M_bind : MBind M := λ A B k c, bind c k.

Definition print (line : string) : M unit :=
  λ w, (Ok tt, World (fs w) (stdout w ++ [line])).

(** The text of an exception, as [print(f"... {e}")] shows it. *)
Definition exn_str (e : exn) : string :=
  match e with
  | IndexError => "list index out of range"
  | KeyError k => "'" +:+ k +:+ "'"
  | AttributeError => "'NoneType' object has no attribute 'strip'"
  | FileNotFoundError p => "[Errno 2] No such file or directory: '" +:+ p +:+ "'"
  | FileExistsError p => "[Errno 17] File exists: '" +:+ p +:+ "'"
  | OSError p => "[Errno 13] Permission denied: '" +:+ p +:+ "'"
  | TemplateNotFound n => n
  | TemplateError n => n
  | ShutilError p => p
  end.

(** [os.path.exists(p)] *)
Definition os_path_exists (p : string) : M bool :=
  λ w, (Ok (bool_decide (is_Some (fs w !! p))), w).

(** [open(p, 'r', encoding='utf-8').read()] *)
Definition read_text (p : string) : M string :=
  λ w, match fs w !! p with
       | Some (File content) => (Ok content, w)
       | Some _ => (Raise (OSError p), w)
       | None => (Raise (FileNotFoundError p), w)
       end.

(** [f.write(content)] on [p] opened for writing; opening alone leaves
    the empty file. *)
Definition write_text (p content : string) : M unit :=
  λ w, (Ok tt, World (<[p := File content]> (fs w)) (stdout w)).

(** [Path(p).mkdir(exist_ok=True)] *)
Definition mkdir_exist_ok (p : string) : M unit :=
  λ w, match fs w !! p with
       | None => (Ok tt, World (<[p := Directory]> (fs w)) (stdout w))
       | Some Directory => (Ok tt, w)
       | Some _ => (Raise (FileExistsError p), w)
       end.

Fixpoint endswith_sep (s : string) : bool :=
  match s with
  | "" => false
  | String c "" => bool_decide (c = "/"%char)
  | String _ s' => endswith_sep s'
  end.

(** [os.path.join(a, b)] of [posixpath]. *)
Definition os_path_join (a b : string) : string :=
  if Py.startswith "/" b then b
  else if bool_decide (a = "") || endswith_sep a then a +:+ b
  else a +:+ "/" +:+ b.

(** [s[n:]] *)
Fixpoint drop_chars (n : nat) (s : string) : string :=
  match n, s with
  | 0, _ => s
  | S _, "" => ""
  | S n', String _ s' => drop_chars n' s'
  end.

(** The entries below the directory [src]. *)
Definition subtree (src : string) (files : gmap string node)
  : gmap string node :=
  filter (λ e, Py.startswith (src +:+ "/") e.1 = true) files.

(** The destination of the entry [p] of the tree [src] copied to [dst]:
    [p] is [src/rest] and goes to [dst/rest]. *)
Definition relocate (src dst p : string) : string :=
  dst +:+ "/" +:+ drop_chars (String.length src + 1) p.

(** The nodes to create at the destination. *)
Definition copytree_entries (src dst : string) (files : gmap string node)
  : list (string * node) :=
  prod_map (relocate src dst) id <$> map_to_list (subtree src files).

(** [shutil.copytree(src, dst, dirs_exist_ok=True)]: the source is listed,
    the destination directory is created when absent, every entry below
    [src] is copied over whatever is at its destination, and an entry that
    cannot be read makes the call raise once the others are copied. *)
Definition copytree (src dst : string) : M unit :=
  λ w, match fs w !! src with
       | Some Directory =>
           let entries := copytree_entries src dst (fs w) in
           match mkdir_exist_ok dst w with
           | (Ok _, w1) =>
               let copied := filter (λ e, e.2 ≠ Unreadable) entries in
               let w2 := World (list_to_map copied ∪ fs w1) (stdout w1) in
               if decide (Forall (λ e, e.2 ≠ Unreadable) entries)
               then (Ok tt, w2)
               else (Raise (ShutilError src), w2)
           | (Raise e, w1) => (Raise e, w1)
           end
       | Some _ => (Raise (OSError src), w)
       | None => (Raise (FileNotFoundError src), w)
       end.

(** ** Page data *)

(** One captured terminal output, as [get_terminal_outputs] records it;
    [pair_id] is the key ['pair'] of the dictionary. *)
Record evidence : Type := Evidence {
  pair_id : string;
  first_ext : string;
  second_ext : string;
  content : string
}.

(** An element of [extension_data], for the results page. *)
Module Entry.
Record t : Type := Make {
  name : string;
  source_code : string;
  description : string;
  failed_extensions : list string;
  has_compatibility_data : bool;
  include_descriptions : bool
}.
End Entry.

(** The keyword arguments of the rendering of an extension page. *)
Module Page.
Record t : Type := Make {
  extension_name : string;
  failure_rate : Qc;
  source_code : string;
  description : string;
  failed_extensions : list string;
  terminal_outputs : list (string * list evidence);
  extensibility_types : list string;
  system_components : list string;
  has_compatibility_data : bool;
  include_descriptions : bool
}.
End Page.

(** What a template is rendered with. *)
Inductive context : Type :=
  | IndexContext (page_name : string)
  | ResultsContext (extension_data : list Entry.t) (page_name : string)
                   (include_descriptions : bool)
  | ExtensionContext (page : Page.t).

(** ** The libraries the script calls

    [csv.DictReader] and Jinja2 are not part of the script.  A row of
    [DictReader] maps a field name to its text, or to [None] when the row
    is too short for the field.  [get_template] and [render] stand for
    [env.get_template(name)] and [template.render(...)] on the environment
    loaded from the [layout] directory; both may raise. *)
Class Collaborators : Type := {
  template : Type;
  get_template : string → result template;
  render : template → context → result string;
  DictReader : string → list (gmap string (option string))
}.

(** ** The tabular readers *)

(** [row[key].strip()] *)
Definition row_strip (row : gmap string (option string)) (key : string)
  : result string :=
  match row !! key with
  | Some (Some v) => Ok (Py.strip v)
  | Some None => Raise AttributeError
  | None => Raise (KeyError key)
  end.

(** [row.get(key, dflt).strip()] *)
Definition row_get_strip (row : gmap string (option string))
    (key dflt : string) : result string :=
  match row !! key with
  | Some (Some v) => Ok (Py.strip v)
  | Some None => Raise AttributeError
  | None => Ok (Py.strip dflt)
  end.

(** The run of [if row.get(key, '').strip().lower() == 'yes': append(key)]
    over the given keys, in order. *)
Fixpoint collect_flags (row : gmap string (option string))
    (keys : list string) : result (list string) :=
  match keys with
  | [] => Ok []
  | key :: keys' =>
      rbind (row_get_strip row key "") (λ v,
        rbind (collect_flags row keys') (λ rest,
          Ok (if decide (Py.lower v = "yes") then key :: rest else rest)))
  end.

(** [for row in reader:] with the state [acc]; an iteration returns the
    state it reached and the exception it raised, if any. *)
Fixpoint rows_loop {A} (step : A → gmap string (option string) → A * option exn)
    (rows : list (gmap string (option string))) (acc : A) : A * option exn :=
  match rows with
  | [] => (acc, None)
  | row :: rows' =>
      match step acc row with
      | (acc', None) => rows_loop step rows' acc'
      | (acc', Some e) => (acc', Some e)
      end
  end.

(** The frame shared by the four readers:
    [try: with open(file_path) as file: for row in DictReader(file): ...]
    [except FileNotFoundError: print(warning)]
    [except Exception as e: print(error)], then [return] the state. *)
Definition read_table `{Collaborators} {A} (file_path missing_note : string)
    (step : A → gmap string (option string) → A * option exn) (init : A)
  : M A :=
  λ w, match read_text file_path w with
       | (Ok text, w1) =>
           match rows_loop step (DictReader text) init with
           | (acc, None) => (Ok acc, w1)
           | (acc, Some e) =>
               (print ("Error reading " +:+ file_path +:+ ": " +:+ exn_str e)
                ;; mret acc) w1
           end
       | (Raise (FileNotFoundError _), w1) =>
           (print ("Warning: " +:+ file_path +:+ " not found. "
                   +:+ missing_note)
            ;; mret init) w1
       | (Raise e, w1) =>
           (print ("Error reading " +:+ file_path +:+ ": " +:+ exn_str e)
            ;; mret init) w1
       end.

Definition source_code_step (source_code : gmap string string)
    (row : gmap string (option string)) : gmap string string * option exn :=
  match row_strip row "Extension Name" with
  | Raise e => (source_code, Some e)
  | Ok ext_name =>
      match row_strip row "Source Code" with
      | Raise e => (source_code, Some e)
      | Ok source_url => (<[ext_name := source_url]> source_code, None)
      end
  end.

Definition parse_source_code_csv `{Collaborators} (file_path : string)
  : M (gmap string string) :=
  read_table file_path "Source code links will not be available."
             source_code_step ∅.

Definition descriptions_step (descriptions : gmap string string)
    (row : gmap string (option string)) : gmap string string * option exn :=
  match row_strip row "Extension Name" with
  | Raise e => (descriptions, Some e)
  | Ok ext_name =>
      match row_strip row "Description" with
      | Raise e => (descriptions, Some e)
      | Ok description => (<[ext_name := description]> descriptions, None)
      end
  end.

Definition parse_descriptions_csv `{Collaborators} (file_path : string)
  : M (gmap string string) :=
  read_table file_path "Descriptions will not be available."
             descriptions_step ∅.

Definition extensibility_columns : list string :=
  ["Functions"; "Types"; "Index Access Methods"; "Storage Managers";
   "Client Authentication"; "Query Processing"; "Utility Commands"].

(** [infos[ext_name]] is modelled by its only field,
    ['extensibility_types']. *)
Definition infos_step (acc : gmap string (list string) * list string)
    (row : gmap string (option string))
  : gmap string (list string) * list string * option exn :=
  let '(infos, extensions_list) := acc in
  match row_strip row "Extension Name" with
  | Raise e => (infos, extensions_list, Some e)
  | Ok ext_name =>
      let extensions_list := extensions_list ++ [ext_name] in
      match collect_flags row extensibility_columns with
      | Raise e => (infos, extensions_list, Some e)
      | Ok extensibility_types =>
          (<[ext_name := match extensibility_types with
                         | [] => ["None"]
                         | _ => extensibility_types
                         end]> infos,
           extensions_list, None)
      end
  end.

Definition parse_infos_csv `{Collaborators} (file_path : string)
  : M (gmap string (list string) * list string) :=
  read_table file_path "Extensibility info will not be available."
             infos_step (∅, []).

Definition component_columns : list string :=
  ["Memory Allocation"; "Background Workers";
   "Custom Configuration Variables"].

(** [mechanisms[ext_name]] is modelled by its only field,
    ['system_components']. *)
Definition mechanisms_step (mechanisms : gmap string (list string))
    (row : gmap string (option string))
  : gmap string (list string) * option exn :=
  match row_strip row "Extension Name" with
  | Raise e => (mechanisms, Some e)
  | Ok ext_name =>
      match collect_flags row component_columns with
      | Raise e => (mechanisms, Some e)
      | Ok system_components =>
          match row_get_strip row "Number of Components" "0" with
          | Raise e => (mechanisms, Some e)
          | Ok num_components =>
              (<[ext_name :=
                   if decide (num_components = "0") then ["None"]
                   else match system_components with
                        | [] => ["None"]
                        | _ => system_components
                        end]> mechanisms,
               None)
          end
      end
  end.

Definition parse_mechanisms_csv `{Collaborators} (file_path : string)
  : M (gmap string (list string)) :=
  read_table file_path "System components info will not be available."
             mechanisms_step ∅.

(** ** get_terminal_outputs *)

(** [for x in l:] with the state [acc], in the world. *)
Fixpoint for_each {A B} (body : A → B → M A) (acc : A) (l : list B) : M A :=
  match l with
  | [] => mret acc
  | x :: l' => acc' ← body acc x; for_each body acc' l'
  end.

(** The path probed for a direction. *)
Definition terminal_path_of (direction : string) : string :=
  os_path_join (os_path_join "total_compat_output" direction) "terminal.txt".

(** The body of [for direction in directions:]; the dictionary
    [terminal_outputs_by_extension] is the state. *)
Definition probe_direction (extension failed_ext : string)
    (terminal_outputs_by_extension : gmap string (list evidence))
    (direction : string) : M (gmap string (list evidence)) :=
  let terminal_path := terminal_path_of direction in
  found ← os_path_exists terminal_path;
  if found : bool then
    try_except
      (text ← read_text terminal_path;
       let '(other_extension, first, second) :=
         if Py.startswith (extension +:+ "_") direction
         then (failed_ext, extension, failed_ext)
         else (failed_ext, failed_ext, extension) in
       let group :=
         default [] (terminal_outputs_by_extension !! other_extension) in
       mret (<[other_extension :=
                 group ++ [Evidence direction first second text]]>
               terminal_outputs_by_extension))
      (λ e, print ("Error reading " +:+ terminal_path +:+ ": " +:+ exn_str e)
            ;; mret terminal_outputs_by_extension)
  else mret terminal_outputs_by_extension.

(** The body of [for failed_ext in failed_extensions:]. *)
Definition probe_pair (extension : string)
    (terminal_outputs_by_extension : gmap string (list evidence))
    (failed_ext : string) : M (gmap string (list evidence)) :=
  let directions :=
    [extension +:+ "_" +:+ failed_ext; failed_ext +:+ "_" +:+ extension] in
  for_each (probe_direction extension failed_ext)
           terminal_outputs_by_extension directions.

Definition get_terminal_outputs (extension : string)
    (failed_extensions : list string) : M (list (string * list evidence)) :=
  terminal_outputs_by_extension ←
    for_each (probe_pair extension) ∅ failed_extensions;
  mret ((λ ext, (ext, default [] (terminal_outputs_by_extension !! ext)))
        <$> Py.sorted (elements (dom terminal_outputs_by_extension))).

(** ** generate_website *)

(** The branch on [extension in extensions], shared by the two loops:
    [(failure_rate, failed_extensions, has_compatibility_data)]. *)
Definition compatibility_data (extension : string)
    (extensions : list string) (matrix : gmap string (gmap string string))
  : Qc * list string * bool :=
  if decide (extension ∈ extensions)
  then (calculate_failure_rate_and_failed_extensions
          extension extensions matrix, true)
  else (Qc_of_nat 0, [], false).

(** [descriptions.get(extension, 'No description available')
     if include_descriptions else ''] *)
Definition description_of (descriptions : gmap string string)
    (include_descriptions : bool) (extension : string) : string :=
  if include_descriptions
  then default "No description available" (descriptions !! extension)
  else "".

(** The dictionary appended to [extension_data] for one extension. *)
Definition extension_entry (source_code descriptions : gmap string string)
    (extensions : list string) (matrix : gmap string (gmap string string))
    (include_descriptions : bool) (extension : string) : Entry.t :=
  let '(_, failed_extensions, has_compatibility_data) :=
    compatibility_data extension extensions matrix in
  Entry.Make extension
             (default "" (source_code !! extension))
             (description_of descriptions include_descriptions extension)
             failed_extensions has_compatibility_data include_descriptions.

(** The tables read at the start of the run. *)
Record tables : Type := Tables {
  source_code : gmap string string;
  descriptions : gmap string string;
  infos : gmap string (list string);
  all_extensions : list string;
  mechanisms : gmap string (list string);
  extensions : list string;
  matrix : gmap string (gmap string string)
}.

(** [with open(path, "w") as f: f.write(template.render(...))]: the file
    is opened, and so emptied, before the template is rendered. *)
Definition write_rendered `{Collaborators} (path : string) (t : template)
    (ctx : context) : M unit :=
  write_text path "";;
  text ← lift (render t ctx);
  write_text path text.

(** The body of the loop that writes the extension pages. *)
Definition write_extension_page `{Collaborators} (T : tables)
    (build_path : string) (include_descriptions : bool) (t : template)
    (_ : unit) (extension : string) : M unit :=
  let '(failure_rate, failed_extensions, has_compatibility_data) :=
    compatibility_data extension (extensions T) (matrix T) in
  terminal_outputs ←
    (if has_compatibility_data
     then get_terminal_outputs extension failed_extensions
     else mret []);
  write_rendered
    (os_path_join build_path (extension +:+ ".html")) t
    (ExtensionContext
       (Page.Make extension failure_rate
          (default "" (source_code T !! extension))
          (description_of (descriptions T) include_descriptions extension)
          failed_extensions terminal_outputs
          (default ["None"] (infos T !! extension))
          (default ["None"] (mechanisms T !! extension))
          has_compatibility_data include_descriptions)).

(** [if os.path.exists(src): shutil.copytree(src, dst, dirs_exist_ok=True);
     print(done)  else: print(missing)] *)
Definition copy_if_present (src dst done missing : string) : M unit :=
  found ← os_path_exists src;
  if found : bool then copytree src dst;; print done
  else print missing.

(** The function from the creation of the build directory on, for the
    tables [T]. *)
Definition generate_pages `{Collaborators} (T : tables)
    (build_path : string) (include_descriptions : bool) : M unit :=
  let extension_data :=
    extension_entry (source_code T) (descriptions T) (extensions T)
                    (matrix T) include_descriptions
      <$> all_extensions T in
  mkdir_exist_ok build_path;;
  mkdir_exist_ok (os_path_join build_path "css");;
  copy_if_present "layout/css" (os_path_join build_path "css")
    "CSS files copied successfully"
    "Warning: layout/css directory not found";;
  copy_if_present "portraits" (os_path_join build_path "portraits")
    "Portraits directory copied successfully"
    "Warning: portraits directory not found";;
  t ← lift (get_template "index.html");
  write_rendered (os_path_join build_path "index.html") t
                 (IndexContext "home");;
  t ← lift (get_template "results.html");
  write_rendered (os_path_join build_path "results.html") t
                 (ResultsContext extension_data "results"
                                 include_descriptions);;
  t ← lift (get_template "extension.html");
  for_each (write_extension_page T build_path include_descriptions t)
           () (all_extensions T);;
  print ("Website generated successfully in '" +:+ build_path
         +:+ "' directory!");;
  print ("Generated " +:+ pretty (length (all_extensions T) + 2)
         +:+ " HTML files:");;
  print "- index.html (homepage)";;
  print "- results.html (results overview)";;
  for_each (λ _ ext, print ("- " +:+ ext +:+ ".html")) () (all_extensions T).

(** The reading of the inputs, up to [parse_csv]. *)
Definition read_tables `{Collaborators} (csv_file_path : string) : M tables :=
  csv_content ← read_text csv_file_path;
  source_code ← parse_source_code_csv "csvs/source_code.csv";
  descriptions ← parse_descriptions_csv "csvs/descriptions.csv";
  '(infos, all_extensions) ← parse_infos_csv "csvs/infos.csv";
  mechanisms ← parse_mechanisms_csv "csvs/mechanisms.csv";
  '(extensions, matrix) ← lift (parse_csv csv_content);
  mret (Tables source_code descriptions infos all_extensions mechanisms
               extensions matrix).

Definition layout_missing_report : list string :=
  ["Error: 'layout' directory not found. Please create the layout directory with templates.";
   "Required files:";
   "- layout/base.html";
   "- layout/index.html";
   "- layout/results.html";
   "- layout/extension.html";
   "- layout/css/custom.css"].

Definition generate_website `{Collaborators} (csv_file_path build_path : string)
    (include_descriptions : bool) : M unit :=
  found ← os_path_exists "layout";
  if found : bool then
    T ← read_tables csv_file_path;
    generate_pages T build_path include_descriptions
  else for_each (λ _ line, print line) () layout_missing_report.

Definition csv_missing_report (csv_file : string) : list string :=
  ["CSV file '" +:+ csv_file
     +:+ "' not found. Please ensure the file exists and update the path.";
   newline +:+ "To use this script:";
   "1. Save your CSV data to 'csvs/compatibility.csv'";
   "2. Create layout directory with template files";
   "3. Run the script: python render.py";
   "4. Set show_descriptions = False to hide descriptions"].

(** The script run as a program; [build_path] takes its default. *)
Definition main `{Collaborators} : M unit :=
  let csv_file := "csvs/compatibility.csv" in
  let show_descriptions := false in
  found ← os_path_exists csv_file;
  if found : bool then generate_website csv_file "build" show_descriptions
  else for_each (λ _ line, print line) () (csv_missing_report csv_file).

(** ** A small instance of the libraries, to run the generator

    The reader splits lines at newlines and fields at commas, with no
    quoting; a template is its name, and rendering prints the fields of
    the context that the properties below speak of. *)

Fixpoint zip_fields (header cells : list string)
  : gmap string (option string) :=
  match header, cells with
  | [], _ => ∅
  | h :: header', [] => <[h := None]> (zip_fields header' [])
  | h :: header', c :: cells' => <[h := Some c]> (zip_fields header' cells')
  end.

Definition demo_reader (text : string) : list (gmap string (option string)) :=
  match Py.split "010"%char text with
  | [] => []
  | header :: lines =>
      zip_fields (Py.split ","%char header)
        <$> (Py.split ","%char <$> filter (λ l, l ≠ "") lines)
  end.

Fixpoint concat_with (sep : string) (l : list string) : string :=
  match l with
  | [] => ""
  | [x] => x
  | x :: l' => x +:+ sep +:+ concat_with sep l'
  end.

Definition demo_render (t : string) (ctx : context) : result string :=
  match ctx with
  | IndexContext page_name => Ok (t +:+ ":" +:+ page_name)
  | ResultsContext extension_data page_name _ =>
      Ok (t +:+ ":" +:+ page_name +:+ ":"
          +:+ concat_with "," (Entry.name <$> extension_data))
  | ExtensionContext page =>
      Ok (t +:+ ":" +:+ Page.extension_name page +:+ ":"
          +:+ (if Page.has_compatibility_data page
               then concat_with "," (Page.failed_extensions page)
               else "no compatibility data"))
  end.

Definition demo : Collaborators := {|
  template := string;
  get_template name :=
    if decide (name ∈ ["index.html"; "results.html"; "extension.html"])
    then Ok name else Raise (TemplateNotFound name);
  render := demo_render;
  DictReader := demo_reader
|}.

(** A site whose metadata lists [A] and [Z], and whose matrix is the
    scenario's: [Z] is in the metadata only. *)
Definition demo_fs : gmap string node :=
  {[ "layout" := Directory;
     "layout/css" := Directory;
     "layout/css/custom.css" := File "body{}";
     "csvs/compatibility.csv" := File scenario_csv;
     "csvs/infos.csv" :=
       File ("Extension Name,Functions,Types" +:+ newline +:+
             "A,yes,no" +:+ newline +:+ "Z,no,no");
     "total_compat_output/A_B/terminal.txt" := File "ERROR" ]}.

Definition demo_world : world := World demo_fs [].

(** The same site after a first run left its output behind. *)
Definition demo_world_rerun : world :=
  World (<["build" := Directory]>
         (<["build/css" := Directory]>
          (<["build/index.html" := File "stale"]>
           (<["build/old.html" := File "stale"]> demo_fs)))) [].

(** The same site without its compatibility table. *)
Definition no_matrix_world : world :=
  World (delete "csvs/compatibility.csv" demo_fs) [].

(** ** Worlds for the evidence locator *)

(** Only [total_compat_output/pgcrypto_plpgsql/terminal.txt] exists. *)
Definition pgcrypto_world (text : string) : world :=
  World {[ "total_compat_output/pgcrypto_plpgsql/terminal.txt" := File text ]}
        [].

(** Only [total_compat_output/postgis_topology_postgis/terminal.txt]
    exists: the run of the pair with [postgis_topology] first. *)
Definition postgis_world (text : string) : world :=
  World {[ "total_compat_output/postgis_topology_postgis/terminal.txt"
           := File text ]}
        [].

(** ** Properties of computations *)

(** The computation leaves the file system as it found it. *)
Definition reads_only {A} (c : M A) : Prop := ∀ w, fs (c w).2 = fs w.

(** The computation returns, whatever the world. *)
Definition never_raises {A} (c : M A) : Prop := ∀ w, ∃ a, (c w).1 = Ok a.

(** What [os.path.join] puts before a relative second component. *)
Definition join_prefix (a : string) : string :=
  if bool_decide (a = "") || endswith_sep a then a else a +:+ "/".

(** The path of the page of an extension. *)
Definition page_path (build_path extension : string) : string :=
  os_path_join build_path (extension +:+ ".html").

(** A text file is at [p]. *)
Definition is_file (w : world) (p : string) : Prop :=
  ∃ text, fs w !! p = Some (File text).

(** The page data of an extension for which the matrix has no column. *)
Definition page_without_data (T : tables) (include_descriptions : bool)
    (extension : string) : Page.t :=
  Page.Make extension (Qc_of_nat 0)
    (default "" (source_code T !! extension))
    (description_of (descriptions T) include_descriptions extension)
    [] []
    (default ["None"] (infos T !! extension))
    (default ["None"] (mechanisms T !! extension))
    false include_descriptions.

(** ** Two runs on the same inputs

    The script run as a program writes below [build].  Two worlds have the
    same inputs when they agree on standard output so far and on every
    path that is not [build] or below it; what is at or below [build], the
    output of an earlier run for instance, is free. *)

Definition under_build (p : string) : Prop :=
  p = "build" ∨ Py.startswith "build/" p = true.

Definition same_inputs (wa wb : world) : Prop :=
  stdout wa = stdout wb
  ∧ ∀ p, ¬ under_build p → fs wa !! p = fs wb !! p.

(** Nothing but a directory is in the way at [p]. *)
Definition usable (w : world) (p : string) : Prop :=
  fs w !! p = None ∨ fs w !! p = Some Directory.

(** The directories that the run creates. *)
Definition output_dirs : list string :=
  ["build"; "build/css"; "build/portraits"].

(** The state of two runs side by side, started in [wa] and in [wb]:
    standard output is the same, and every path holds the same node in
    both, or is outside the written paths [W] and as each run found it. *)
Definition synced (wa wb : world) (W : gset string) (w1 w2 : world) : Prop :=
  stdout w1 = stdout w2
  ∧ ∀ p, (fs w1 !! p = fs w2 !! p)
         ∨ ((p ∉ W) ∧ fs w1 !! p = fs wa !! p ∧ fs w2 !! p = fs wb !! p).

(** One step of the two runs: the same outcome, and states in step on
    a larger set [W'] of written paths, of which [Q] holds. *)
Definition steps_together {A} (wa wb : world) (W : gset string) (c : M A)
    (w1 w2 : world) (Q : result A → gset string → Prop) : Prop :=
  (c w1).1 = (c w2).1
  ∧ ∃ W', W ⊆ W' ∧ synced wa wb W' (c w1).2 (c w2).2 ∧ Q (c w1).1 W'.

(** What a run of [generate_pages] on the tables [T], started in [w], has
    written when it returns: the home page, the results page, the page of
    every extension of the metadata, and the copy of every entry of the
    two asset directories that exist. *)
Definition outputs_written (T : tables) (w : world)
    (r : result ()) (W : gset string) : Prop :=
  r = Ok () →
  os_path_join "build" "index.html" ∈ W
  ∧ os_path_join "build" "results.html" ∈ W
  ∧ (∀ x, x ∈ all_extensions T → page_path "build" x ∈ W)
  ∧ (is_Some (fs w !! "layout/css") →
     ∀ q, q ∈ (copytree_entries "layout/css" "build/css" (fs w)).*1 → q ∈ W)
  ∧ (is_Some (fs w !! "portraits") →
     ∀ q, q ∈ (copytree_entries "portraits" "build/portraits" (fs w)).*1 →
          q ∈ W).

(** ** Worlds and messages for the readers *)

(** The line a reader prints for a missing file. *)
Definition missing_warning (file_path missing_note : string) : string :=
  "Warning: " +:+ file_path +:+ " not found. " +:+ missing_note.

(** The four lines printed when none of the four metadata files exists. *)
Definition metadata_warnings : list string :=
  [missing_warning "csvs/source_code.csv"
     "Source code links will not be available.";
   missing_warning "csvs/descriptions.csv"
     "Descriptions will not be available.";
   missing_warning "csvs/infos.csv"
     "Extensibility info will not be available.";
   missing_warning "csvs/mechanisms.csv"
     "System components info will not be available."].

(** A site with its templates and its compatibility table and none of the
    four metadata files. *)
Definition bare_world : world :=
  World {[ "layout" := Directory;
           "csvs/compatibility.csv" := File scenario_csv ]} [].

(** ** Tables and worlds for the further properties *)

(** The matrix that [parse_csv] returns, empty when it raises. *)
Definition parsed_matrix (csv_content : string)
  : gmap string (gmap string string) :=
  match parse_csv csv_content with
  | Ok (_, matrix) => matrix
  | Raise _ => ∅
  end.

(** A table with a second, shorter line for [A]. *)
Definition merged_csv_text : string :=
  "ext,A,B,C" +:+ newline +:+
  "A,,no,yes" +:+ newline +:+
  "A,,yes".

(** A table whose line for [A] stops before the column [C]. *)
Definition short_row_csv_text : string :=
  "ext,A,B,C" +:+ newline +:+
  "B,yes,,no" +:+ newline +:+
  "A,,no".

(** The text of the field [key] of a row, trimmed; empty when the row has
    no text there. *)
Definition field_text (row : gmap string (option string)) (key : string)
  : string :=
  match row !! key with
  | Some (Some v) => Py.strip v
  | _ => ""
  end.

(** The row has a text in the field [key]. *)
Definition has_field (row : gmap string (option string)) (key : string)
  : Prop :=
  ∃ v, row !! key = Some (Some v).

(** The line printed when reading [file_path] stops on the exception
    [e]. *)
Definition reading_error (file_path : string) (e : exn) : string :=
  "Error reading " +:+ file_path +:+ ": " +:+ exn_str e.

(** A row of a table of links. *)
Definition link_row (name link : string) : gmap string (option string) :=
  {[ "Extension Name" := Some name; "Source Code" := Some link ]}.

(** A row of a table of descriptions. *)
Definition description_row (name description : string)
  : gmap string (option string) :=
  {[ "Extension Name" := Some name; "Description" := Some description ]}.

(** A row of a table of links that is too short for the link. *)
Definition short_link_row (name : string) : gmap string (option string) :=
  {[ "Extension Name" := Some name; "Source Code" := None ]}.

(** A row of a table of system components that has no column for the
    count. *)
Definition uncounted_row (name memory workers : string)
  : gmap string (option string) :=
  {[ "Extension Name" := Some name; "Memory Allocation" := Some memory;
     "Background Workers" := Some workers ]}.

(** The demonstration libraries with a reader that yields [rows]. *)
Definition demo_with_rows (rows : list (gmap string (option string)))
  : Collaborators := {|
  template := string;
  get_template := get_template (Collaborators := demo);
  render := demo_render;
  DictReader := λ _, rows
|}.

(** The world whose only file is [text], at [file_path]. *)
Definition one_file_world (file_path text : string) : world :=
  World {[ file_path := File text ]} [].

(** ** The evidence locator as a function of the files

    [get_terminal_outputs] reads the file system and never changes it, so
    the dictionary it builds is a function of the files. *)

(** The two identifiers probed for a counterpart. *)
Definition directions_of (extension failed_ext : string) : list string :=
  [extension +:+ "_" +:+ failed_ext; failed_ext +:+ "_" +:+ extension].

(** The dictionary after the probe of one direction. *)
Definition add_evidence (files : gmap string node)
    (extension failed_ext : string)
    (by_ext : gmap string (list evidence)) (direction : string)
  : gmap string (list evidence) :=
  match files !! terminal_path_of direction with
  | Some (File text) =>
      let '(first, second) :=
        if Py.startswith (extension +:+ "_") direction
        then (extension, failed_ext) else (failed_ext, extension) in
      <[failed_ext := default [] (by_ext !! failed_ext)
                      ++ [Evidence direction first second text]]> by_ext
  | _ => by_ext
  end.

(** The dictionary after the probes of all counterparts. *)
Definition collect_evidence (files : gmap string node) (extension : string)
    (failed_extensions : list string) (by_ext : gmap string (list evidence))
  : gmap string (list evidence) :=
  foldl (λ acc failed_ext,
           foldl (add_evidence files extension failed_ext) acc
                 (directions_of extension failed_ext))
        by_ext failed_extensions.

(** An entry found for the pair of [extension] and [failed_ext]: its
    identifier is one of the two probed, its content is the text of the
    file of that identifier, and its two names are the two of the pair. *)
Definition evidence_of_pair (files : gmap string node)
    (extension failed_ext : string) (e : evidence) : Prop :=
  pair_id e ∈ directions_of extension failed_ext
  ∧ files !! terminal_path_of (pair_id e) = Some (File (content e))
  ∧ ((first_ext e = extension ∧ second_ext e = failed_ext)
     ∨ (first_ext e = failed_ext ∧ second_ext e = extension)).

(** Every group of the dictionary is non-empty and holds entries of its
    pair. *)
Definition groups_sound (files : gmap string node) (E : string)
    (known : list string) (acc : gmap string (list evidence)) : Prop :=
  ∀ F entries, acc !! F = Some entries →
    F ∈ known ∧ entries ≠ []
    ∧ ∀ e, e ∈ entries → evidence_of_pair files E F e.

(** ** Where the run writes *)

(** The computation leaves the path [p] as it found it. *)
Definition untouched {A} (p : string) (c : M A) : Prop :=
  ∀ w, fs (c w).2 !! p = fs w !! p.

(** The path is the build directory, or begins with what [os.path.join]
    puts before a relative name joined to the build directory. *)
Definition within (build_path p : string) : Prop :=
  p = build_path ∨ Py.startswith (join_prefix build_path) p = true.

(** The extension names that a run started in [w] reads from the
    metadata; none when the reading of the inputs raises. *)
Definition metadata_names `{Collaborators} (csv_file_path : string)
    (w : world) : list string :=
  match (read_tables csv_file_path w).1 with
  | Ok T => all_extensions T
  | Raise _ => []
  end.

(** [generate_pages] from the rendering of the home page on. *)
Definition write_pages `{Collaborators} (T : tables)
    (build_path : string) (include_descriptions : bool) : M unit :=
  let extension_data :=
    extension_entry (source_code T) (descriptions T) (extensions T)
                    (matrix T) include_descriptions
      <$> all_extensions T in
  t ← lift (get_template "index.html");
  write_rendered (os_path_join build_path "index.html") t
                 (IndexContext "home");;
  t ← lift (get_template "results.html");
  write_rendered (os_path_join build_path "results.html") t
                 (ResultsContext extension_data "results"
                                 include_descriptions);;
  t ← lift (get_template "extension.html");
  for_each (write_extension_page T build_path include_descriptions t)
           () (all_extensions T);;
  print ("Website generated successfully in '" +:+ build_path
         +:+ "' directory!");;
  print ("Generated " +:+ pretty (length (all_extensions T) + 2)
         +:+ " HTML files:");;
  print "- index.html (homepage)";;
  print "- results.html (results overview)";;
  for_each (λ _ ext, print ("- " +:+ ext +:+ ".html")) () (all_extensions T).

(** A site whose metadata lists an extension with an absolute name. *)
Definition absolute_name_world : world :=
  World {[ "layout" := Directory;
           "csvs/compatibility.csv" := File scenario_csv;
           "csvs/infos.csv" :=
             File ("Extension Name,Functions" +:+ newline +:+
                   "/srv/www/A,yes") ]} [].

(** A site whose compatibility table has a row wider than its header. *)
Definition wide_row_world : world :=
  World {[ "layout" := Directory;
           "csvs/compatibility.csv" :=
             File ("x,A" +:+ newline +:+ "A,1,2") ]} [].

(** A site without its [layout] directory. *)
Definition no_layout_world : world :=
  World (delete "layout" demo_fs) [].


(** ** What makes the run fail *)

(** The computation raises nothing but exceptions of [P]. *)
Definition raises_only {A} (P : exn → Prop) (c : M A) : Prop :=
  ∀ w e, (c w).1 = Raise e → P e.

(** The exceptions of the steps of the run that are not guarded: the
    compatibility table cannot be read or has a row wider than its header,
    something that is no directory is in the place of an output directory,
    an asset directory cannot be copied, a template cannot be loaded, or a
    rendering fails. *)
Definition run_failure `{Collaborators} (csv_file_path build_path : string)
    (e : exn) : Prop :=
  e ∈ [FileNotFoundError csv_file_path; OSError csv_file_path; IndexError;
       FileExistsError build_path;
       FileExistsError (os_path_join build_path "css");
       FileExistsError (os_path_join build_path "portraits");
       OSError "layout/css"; ShutilError "layout/css";
       OSError "portraits"; ShutilError "portraits"]
  ∨ (∃ name, name ∈ ["index.html"; "results.html"; "extension.html"]
             ∧ get_template name = Raise e)
  ∨ (∃ t ctx, render t ctx = Raise e).

(** The demonstration site with a file in the place of the build
    directory. *)
Definition blocked_build_world : world :=
  World (<["build" := File "notes"]> demo_fs) [].
(** ** Checks on concrete inputs *)


Example strip_example : Py.strip "  No " = "No".
Proof. reflexivity. Qed.

Example split_example : Py.split ","%char "a,,b," = ["a"; ""; "b"; ""].
Proof. reflexivity. Qed.

(** ** Loop invariants of the aggregator *)

Section Scan.
Context (E : string) (look : string → option string).

Lemma scan_total_tests l t :
  total_tests (foldl (scan_body E look) t l)
  = total_tests t + length (filter (λ O, O ≠ E ∧ is_Some (look O)) l).
Proof.
  revert t. induction l as [|O l IH]; intros t; simpl; [lia|].
  rewrite IH. unfold scan_body.
  rewrite filter_cons. destruct (decide (O ≠ E)) as [Hne|Heq].
  - destruct (look O) as [v|] eqn:Hl.
    + rewrite decide_True by (split; [done|by eexists]).
      unfold count_test. destruct (decide (v = "no")); simpl; lia.
    + rewrite decide_False by (intros [_ [? ?]]; congruence). lia.
  - rewrite decide_False by tauto. lia.
Qed.

Lemma scan_failures l t :
  failures (foldl (scan_body E look) t l)
  = failures t + length (filter (λ O, O ≠ E ∧ look O = Some "no") l).
Proof.
  revert t. induction l as [|O l IH]; intros t; simpl; [lia|].
  rewrite IH. unfold scan_body.
  rewrite filter_cons. destruct (decide (O ≠ E)) as [Hne|Heq].
  - destruct (look O) as [v|] eqn:Hl.
    + unfold count_test. destruct (decide (v = "no")) as [->|Hv]; simpl.
      * rewrite decide_True by done. simpl. lia.
      * rewrite decide_False by (intros [_ ?]; congruence). lia.
    + rewrite decide_False by (intros [_ ?]; congruence). lia.
  - rewrite decide_False by tauto. lia.
Qed.

Lemma scan_failed_extensions l t :
  failed_extensions (foldl (scan_body E look) t l)
  = failed_extensions t
    ∪ list_to_set (filter (λ O, O ≠ E ∧ look O = Some "no") l).
Proof.
  revert t. induction l as [|O l IH]; intros t; simpl; [set_solver|].
  rewrite IH. unfold scan_body.
  rewrite filter_cons. destruct (decide (O ≠ E)) as [Hne|Heq].
  - destruct (look O) as [v|] eqn:Hl.
    + unfold count_test. destruct (decide (v = "no")) as [->|Hv]; simpl.
      * rewrite decide_True by done. set_solver.
      * rewrite decide_False by (intros [_ ?]; congruence). done.
    + rewrite decide_False by (intros [_ ?]; congruence). done.
  - rewrite decide_False by tauto. done.
Qed.
End Scan.

Lemma foldl_pointwise {A B} (f g : A → B → A) (l : list B) (a : A) :
  (∀ a b, f a b = g a b) → foldl f a l = foldl g a l.
Proof.
  intros Hfg. revert a. induction l as [|b l IH]; intros a; simpl; [done|].
  by rewrite Hfg, IH.
Qed.

Lemma row_loop_scan E row l t :
  foldl (row_body E row) t l = foldl (scan_body E (λ O, row !! O)) t l.
Proof. reflexivity. Qed.

Lemma column_loop_scan E m l t :
  foldl (column_body E m) t l = foldl (scan_body E (λ O, cell m O E)) t l.
Proof.
  apply foldl_pointwise. intros a O. unfold column_body, scan_body, cell.
  destruct (decide (O ≠ E)); [|done]. by destruct (m !! O).
Qed.

(** When [E] has no row the row pass reads no cell. *)
Lemma cell_no_row m E O : m !! E = None → cell m E O = None.
Proof. unfold cell. by intros ->. Qed.

Lemma cell_row m E O row : m !! E = Some row → cell m E O = row !! O.
Proof. unfold cell. by intros ->. Qed.

Lemma filter_none {A} (P : A → Prop) `{∀ x, Decision (P x)} (l : list A) :
  (∀ x, x ∈ l → ¬ P x) → filter P l = [].
Proof.
  induction l as [|x l IH]; intros Hl; [done|].
  rewrite filter_cons, decide_False by (apply Hl; left).
  apply IH. intros y Hy. apply Hl. by right.
Qed.

Lemma filter_all {A} (P : A → Prop) `{∀ x, Decision (P x)} (l : list A) :
  Forall P l → filter P l = l.
Proof.
  induction 1 as [|x l Hx Hl IH]; [done|].
  by rewrite filter_cons, decide_True, IH.
Qed.

Lemma filter_pointwise {A} (P Q : A → Prop)
    `{∀ x, Decision (P x)} `{∀ x, Decision (Q x)} (l : list A) :
  (∀ x, P x ↔ Q x) → filter P l = filter Q l.
Proof. intros HPQ. apply list_filter_iff. done. Qed.

(** The locals after both loops, in the specification's terms. *)
Lemma run_tally_spec E exts m :
  total_tests (run_tally E exts m) = spec_tested E exts m
  ∧ failures (run_tally E exts m) = spec_failed E exts m
  ∧ failed_extensions (run_tally E exts m) = spec_failing_set E exts m.
Proof.
  unfold run_tally, spec_tested, spec_failed, spec_failing_set,
    spec_row_tested, spec_column_tested, spec_row_failed, spec_column_failed.
  rewrite column_loop_scan, scan_total_tests, scan_failures,
    scan_failed_extensions, list_to_set_app_L.
  destruct (m !! E) as [row|] eqn:Hrow.
  - rewrite row_loop_scan, scan_total_tests, scan_failures,
      scan_failed_extensions. simpl.
    rewrite (filter_pointwise (λ O, O ≠ E ∧ is_Some (cell m E O))
               (λ O, O ≠ E ∧ is_Some (row !! O)))
      by (intros O; by rewrite (cell_row m E O row)).
    rewrite (filter_pointwise (λ O, O ≠ E ∧ cell m E O = Some "no")
               (λ O, O ≠ E ∧ row !! O = Some "no"))
      by (intros O; by rewrite (cell_row m E O row)).
    split; [done|]. split; [done|]. set_solver.
  - simpl.
    rewrite (filter_none (λ O, O ≠ E ∧ is_Some (cell m E O)))
      by (intros O _ [_ [v Hv]]; by rewrite cell_no_row in Hv).
    rewrite (filter_none (λ O, O ≠ E ∧ cell m E O = Some "no"))
      by (intros O _ [_ Hv]; by rewrite cell_no_row in Hv).
    simpl. split; [done|]. split; [done|]. set_solver.
Qed.

(** ** Sorting a duplicate-free list of names *)

Lemma sorted_Sorted l : Sorted String.le (Py.sorted l).
Proof. apply (Sorted_merge_sort String.le). Qed.

Lemma sorted_Permutation l : Py.sorted l ≡ₚ l.
Proof. apply merge_sort_Permutation. Qed.

Lemma elem_of_sorted x l : x ∈ Py.sorted l ↔ x ∈ l.
Proof. by rewrite sorted_Permutation. Qed.

Lemma NoDup_sorted l : NoDup l → NoDup (Py.sorted l).
Proof. by rewrite sorted_Permutation. Qed.

Lemma Forall_strict_le x l :
  x ∉ l → Forall (String.le x) l → Forall (strict String.le x) l.
Proof.
  intros Hx Hl. apply Forall_forall. intros y Hy.
  rewrite Forall_forall in Hl. split; [by apply Hl|].
  intros Hyx. apply Hx.
  by rewrite (anti_symm String.le x y (Hl y Hy) Hyx).
Qed.

Lemma StronglySorted_strict l :
  NoDup l → StronglySorted String.le l → StronglySorted (strict String.le) l.
Proof.
  induction 2 as [|x l Hl IH Hx]; [constructor|].
  apply NoDup_cons in H as [Hnx Hnd].
  constructor; [by apply IH|by apply Forall_strict_le].
Qed.

(** [sorted] of a duplicate-free list is strictly increasing. *)
Lemma sorted_strict l :
  NoDup l → StronglySorted (strict String.le) (Py.sorted l).
Proof.
  intros Hl. apply StronglySorted_strict; [by apply NoDup_sorted|].
  apply (StronglySorted_merge_sort String.le).
Qed.

(** The order in which the set is listed before sorting is irrelevant. *)
Lemma sorted_any_order l1 l2 :
  l1 ≡ₚ l2 → Py.sorted l1 = Py.sorted l2.
Proof.
  intros Hp. apply (Sorted_unique String.le); [apply sorted_Sorted..|].
  by rewrite !sorted_Permutation.
Qed.

Lemma elem_of_spec_failing_set E exts m O :
  O ∈ spec_failing_set E exts m
  ↔ O ∈ exts ∧ O ≠ E
    ∧ (cell m E O = Some "no" ∨ cell m O E = Some "no").
Proof.
  unfold spec_failing_set, spec_row_failed, spec_column_failed.
  rewrite elem_of_list_to_set, elem_of_app, !list_elem_of_filter.
  tauto.
Qed.

Lemma elem_of_failed_list E exts m O :
  O ∈ (calculate_failure_rate_and_failed_extensions E exts m).2
  ↔ O ∈ exts ∧ O ≠ E
    ∧ (cell m E O = Some "no" ∨ cell m O E = Some "no").
Proof.
  unfold calculate_failure_rate_and_failed_extensions. simpl.
  destruct (run_tally_spec E exts m) as (_ & _ & ->).
  by rewrite elem_of_sorted, elem_of_elements, elem_of_spec_failing_set.
Qed.

Lemma failure_rate_spec E exts m :
  (calculate_failure_rate_and_failed_extensions E exts m).1
  = spec_failure_rate E exts m.
Proof.
  unfold calculate_failure_rate_and_failed_extensions, spec_failure_rate.
  simpl. destruct (run_tally_spec E exts m) as (-> & -> & _).
  destruct (decide (0 < spec_tested E exts m)); [|done].
  unfold Qcdiv. ring.
Qed.

(** ** The aggregator: what it counts and what it returns *)


(** C7. The failed-extensions list is strictly increasing in the order on
    strings, has no duplicates, and each of its members is a known name
    other than [E]. *)
Theorem failed_list_sorted_nodup_subset (E : string) (exts : list string)
    (m : gmap string (gmap string string)) :
  let l := (calculate_failure_rate_and_failed_extensions E exts m).2 in
  StronglySorted (strict String.le) l
  ∧ NoDup l
  ∧ ∀ O, O ∈ l → O ∈ exts ∧ O ≠ E.
Proof.
  intros l. split; [|split].
  - apply sorted_strict, NoDup_elements.
  - apply NoDup_sorted, NoDup_elements.
  - intros O HO. apply elem_of_failed_list in HO. tauto.
Qed.

(** C8. When the matrix records no cell [(E, O)] and no cell [(O, E)] for
    any other known name [O], the aggregator returns rate [0] and the
    empty list. *)
Theorem untested_extension_zero (E : string) (exts : list string)
    (m : gmap string (gmap string string)) :
  (∀ O, O ∈ exts → O ≠ E → cell m E O = None ∧ cell m O E = None) →
  calculate_failure_rate_and_failed_extensions E exts m = (Qc_of_nat 0, []).
Proof.
  intros Hnone.
  unfold calculate_failure_rate_and_failed_extensions.
  destruct (run_tally_spec E exts m) as (Ht & Hf & Hs).
  rewrite Ht, Hf, Hs.
  unfold spec_tested, spec_failing_set, spec_row_tested, spec_column_tested,
    spec_row_failed, spec_column_failed.
  rewrite (filter_none (λ O, O ≠ E ∧ is_Some (cell m E O)))
    by (intros O HO [Hne [v Hv]]; destruct (Hnone O HO Hne); congruence).
  rewrite (filter_none (λ O, O ≠ E ∧ is_Some (cell m O E)))
    by (intros O HO [Hne [v Hv]]; destruct (Hnone O HO Hne); congruence).
  rewrite (filter_none (λ O, O ≠ E ∧ cell m E O = Some "no"))
    by (intros O HO [Hne Hv]; destruct (Hnone O HO Hne); congruence).
  rewrite (filter_none (λ O, O ≠ E ∧ cell m O E = Some "no"))
    by (intros O HO [Hne Hv]; destruct (Hnone O HO Hne); congruence).
  simpl. by rewrite elements_empty.
Qed.

(** An extension whose only recorded cell is its own diagonal cell. *)
Lemma untested_extension_zero_witness :
  calculate_failure_rate_and_failed_extensions "A" ["A"; "B"]
    {[ "A" := {[ "A" := "no" ]} ]} = (Qc_of_nat 0, []).
Proof.
  apply untested_extension_zero.
  intros O HO Hne.
  apply elem_of_cons in HO as [->|HO]; [done|].
  apply elem_of_cons in HO as [->|HO]; [|by apply elem_of_nil in HO].
  split; reflexivity.
Defined.

(** ** Asymmetric cells *)

(** Taking one occurrence of the name [B] out of the known names changes
    the counts of [E] by the two cells of the pair. *)
Lemma run_tally_insert_name E B l1 l2 m :
  B ≠ E →
  let t := run_tally E (l1 ++ B :: l2) m in
  let t' := run_tally E (l1 ++ l2) m in
  total_tests t
    = total_tests t' + (if cell m E B is Some _ then 1 else 0)
                     + (if cell m B E is Some _ then 1 else 0)
  ∧ failures t
    = failures t' + (if decide (cell m E B = Some "no") then 1 else 0)
                  + (if decide (cell m B E = Some "no") then 1 else 0).
Proof.
  intros Hne t t'. subst t t'.
  destruct (run_tally_spec E (l1 ++ B :: l2) m) as (-> & -> & _).
  destruct (run_tally_spec E (l1 ++ l2) m) as (-> & -> & _).
  unfold spec_tested, spec_failed, spec_row_tested, spec_column_tested,
    spec_row_failed, spec_column_failed.
  rewrite !filter_app, !filter_cons, !length_app.
  split.
  - destruct (cell m E B) as [v|] eqn:H1; destruct (cell m B E) as [w|] eqn:H2;
      repeat (first [ rewrite decide_True by (split; [done|by eexists])
                    | rewrite decide_False by (intros [_ [? ?]]; congruence) ]);
      simpl; lia.
  - destruct (decide (cell m E B = Some "no")) as [H1|H1];
      destruct (decide (cell m B E = Some "no")) as [H2|H2];
      repeat (first [ rewrite decide_True by done
                    | rewrite decide_False by tauto ]);
      simpl; lia.
Qed.

(** C2. An asymmetric pair, [(A,B)] = "no" and [(B,A)] = "yes", is counted
    once per side by each of the two extensions: it brings two tests and
    one failure to the counts of [A], two tests and one failure to the
    counts of [B], and each name is in the failed list of the other.  In
    the scenario over [A, B, C] the aggregator returns rate 50 and
    [B, C] for [A], on the matrix itself and on its table parsed from
    text. *)
Theorem asymmetric_cells_double_counted :
  (∀ (A B : string) (l1 l2 : list string)
     (m : gmap string (gmap string string)),
     A ≠ B → cell m A B = Some "no" → cell m B A = Some "yes" →
     (total_tests (run_tally A (l1 ++ B :: l2) m)
        = total_tests (run_tally A (l1 ++ l2) m) + 2
      ∧ failures (run_tally A (l1 ++ B :: l2) m)
        = failures (run_tally A (l1 ++ l2) m) + 1
      ∧ B ∈ (calculate_failure_rate_and_failed_extensions
               A (l1 ++ B :: l2) m).2)
     ∧ (total_tests (run_tally B (l1 ++ A :: l2) m)
        = total_tests (run_tally B (l1 ++ l2) m) + 2
      ∧ failures (run_tally B (l1 ++ A :: l2) m)
        = failures (run_tally B (l1 ++ l2) m) + 1
      ∧ A ∈ (calculate_failure_rate_and_failed_extensions
               B (l1 ++ A :: l2) m).2))
  ∧ calculate_failure_rate_and_failed_extensions
      "A" scenario_extensions scenario_matrix = (Qc_of_nat 50, ["B"; "C"])
  ∧ rbind (parse_csv scenario_csv) (λ '(extensions, matrix),
      Ok (calculate_failure_rate_and_failed_extensions
            "A" extensions matrix))
    = Ok (Qc_of_nat 50, ["B"; "C"]).
Proof.
  split; [|split].
  - intros A B l1 l2 m Hne Hab Hba. split.
    + destruct (run_tally_insert_name A B l1 l2 m) as [Ht Hf]; [done|].
      simpl in Ht, Hf. rewrite Hab, Hba in Ht.
      rewrite decide_True in Hf by done.
      rewrite decide_False in Hf by (rewrite Hba; discriminate).
      split; [lia|]. split; [lia|].
      apply elem_of_failed_list. split; [|split; [done|by left]].
      apply elem_of_app. right. left.
    + destruct (run_tally_insert_name B A l1 l2 m) as [Ht Hf]; [done|].
      simpl in Ht, Hf. rewrite Hab, Hba in Ht.
      rewrite decide_False in Hf by (rewrite Hba; discriminate).
      rewrite decide_True in Hf by done.
      split; [lia|]. split; [lia|].
      apply elem_of_failed_list. split; [|split; [done|by right]].
      apply elem_of_app. right. left.
  - apply injective_projections; [apply Qc_is_canon|]; by vm_compute.
  - vm_compute parse_csv. simpl rbind. f_equal.
    apply injective_projections; [apply Qc_is_canon|]; by vm_compute.
Qed.

(** The two-extension matrix with the asymmetric pair and nothing else. *)
Lemma asymmetric_cells_double_counted_witness :
  total_tests (run_tally "A" ["B"]
                 {[ "A" := {[ "B" := "no" ]}; "B" := {[ "A" := "yes" ]} ]})
  = total_tests (run_tally "A" []
                 {[ "A" := {[ "B" := "no" ]}; "B" := {[ "A" := "yes" ]} ]})
    + 2.
Proof.
  pose proof (proj1 asymmetric_cells_double_counted "A" "B" [] []
    {[ "A" := {[ "B" := "no" ]}; "B" := {[ "A" := "yes" ]} ]}) as H.
  apply H; [discriminate|reflexivity|reflexivity].
Defined.

(** ** The matrix parser *)

Lemma split_nonempty sep s : Py.split sep s ≠ [].
Proof.
  destruct s as [|c s]; simpl; [done|].
  destruct (decide (c = sep)); [done|]. by destruct (Py.split sep s).
Qed.

Lemma getitem_split_0 sep s :
  getitem (Py.split sep s) 0 = Ok (default "" (head (Py.split sep s))).
Proof.
  pose proof (split_nonempty sep s) as Hne.
  by destruct (Py.split sep s).
Qed.

(** One iteration of the outer loop. *)
Lemma parse_rows_cons exts line lines m :
  parse_rows exts (line :: lines) m
  = rbind (fill_row exts 0 (data_cells line)
                    (default ∅ (m !! row_name line))) (λ row,
      parse_rows exts lines (<[row_name line := row]> m)).
Proof.
  simpl. rewrite getitem_split_0. simpl.
  fold (row_name line). fold (data_cells line).
  destruct (m !! row_name line) as [row0|] eqn:Hrow.
  - by rewrite Hrow.
  - rewrite lookup_insert_eq. simpl.
    destruct (fill_row exts 0 (data_cells line) ∅) as [row|e]; simpl; [|done].
    by rewrite insert_insert_eq.
Qed.

Lemma parse_csv_unfold csv :
  parse_csv csv
  = rbind (parse_rows (csv_extensions csv) (csv_data_lines csv) ∅)
          (λ matrix, Ok (csv_extensions csv, matrix)).
Proof.
  unfold parse_csv. fold (csv_lines csv).
  unfold csv_extensions, csv_data_lines.
  pose proof (split_nonempty "010"%char (Py.strip csv)) as Hne.
  fold (csv_lines csv) in Hne.
  by destruct (csv_lines csv).
Qed.

(** *** The inner loop *)

Lemma fill_row_ok exts j cells row :
  j + length cells ≤ length exts →
  ∃ row', fill_row exts j cells row = Ok row'.
Proof.
  revert j row. induction cells as [|c cells IH]; intros j row Hlen; simpl.
  - by eexists.
  - simpl in Hlen. unfold getitem.
    destruct (lookup_lt_is_Some_2 exts j) as [k Hk]; [lia|].
    rewrite Hk. simpl. apply IH. lia.
Qed.

Lemma fill_row_raise exts j cells row :
  length exts < j + length cells → cells ≠ [] →
  fill_row exts j cells row = Raise IndexError.
Proof.
  revert j row. induction cells as [|c cells IH]; intros j row Hlen Hne;
    [done|].
  simpl in *. unfold getitem.
  destruct (exts !! j) as [k|] eqn:Hk; simpl; [|done].
  apply lookup_lt_Some in Hk.
  apply IH; [lia|]. destruct cells; [simpl in *; lia|done].
Qed.

Lemma fill_row_error exts j cells row e :
  fill_row exts j cells row = Raise e → e = IndexError.
Proof.
  revert j row. induction cells as [|c cells IH]; intros j row; simpl;
    [done|].
  unfold getitem. destruct (exts !! j); simpl; [apply IH|congruence].
Qed.

(** Keys that the loop does not visit keep their value. *)
Lemma fill_row_lookup_old exts j cells row row' k :
  fill_row exts j cells row = Ok row' →
  (∀ i, i < length cells → exts !! (j + i) ≠ Some k) →
  row' !! k = row !! k.
Proof.
  revert j row. induction cells as [|c cells IH]; intros j row Hfill Hk;
    simpl in *; [congruence|].
  unfold getitem in Hfill. destruct (exts !! j) as [k0|] eqn:Hj;
    simpl in Hfill; [|done].
  rewrite (IH _ _ Hfill).
  - apply lookup_insert_ne. intros ->.
    apply (Hk 0); [lia|]. by rewrite Nat.add_0_r.
  - intros i Hi. replace (S j + i) with (j + S i) by lia. apply Hk. lia.
Qed.

(** Every key of the row after the loop was there before or is a header
    name. *)
Lemma fill_row_keys exts j cells row row' k :
  fill_row exts j cells row = Ok row' →
  is_Some (row' !! k) → is_Some (row !! k) ∨ k ∈ exts.
Proof.
  revert j row. induction cells as [|c cells IH]; intros j row Hfill Hk;
    simpl in *; [left; congruence|].
  unfold getitem in Hfill. destruct (exts !! j) as [k0|] eqn:Hj;
    simpl in Hfill; [|done].
  destruct (IH _ _ Hfill Hk) as [Hin|Hin]; [|by right].
  destruct (decide (k0 = k)) as [<-|Hne].
  - right. by eapply list_elem_of_lookup_2.
  - left. by rewrite lookup_insert_ne in Hin.
Qed.

(** With distinct header names, the cell at index [i] is stored,
    normalised, under the header name at index [j + i]. *)
Lemma fill_row_lookup_new exts j cells row row' i raw k :
  NoDup exts →
  fill_row exts j cells row = Ok row' →
  cells !! i = Some raw → exts !! (j + i) = Some k →
  row' !! k = Some (normalise raw).
Proof.
  intros Hnd. revert j row i.
  induction cells as [|c cells IH]; intros j row i Hfill Hi Hk;
    simpl in *; [done|].
  unfold getitem in Hfill. destruct (exts !! j) as [k0|] eqn:Hj;
    simpl in Hfill; [|done].
  destruct i as [|i]; simpl in Hi.
  - injection Hi as ->. rewrite Nat.add_0_r in Hk.
    assert (k0 = k) as -> by congruence.
    rewrite (fill_row_lookup_old _ _ _ _ _ k Hfill).
    + apply lookup_insert_eq.
    + intros i _ Hki.
      pose proof (NoDup_lookup _ _ _ _ Hnd Hj Hki). lia.
  - eapply IH; [exact Hfill|exact Hi|].
    by replace (S j + i) with (j + S i) by lia.
Qed.

(** Every value of the row after the loop was there before or is a
    normalised cell. *)
Lemma fill_row_values exts j cells row row' k v :
  fill_row exts j cells row = Ok row' →
  row' !! k = Some v →
  row !! k = Some v ∨ ∃ raw, raw ∈ cells ∧ v = normalise raw.
Proof.
  revert j row. induction cells as [|c cells IH]; intros j row Hfill Hk;
    simpl in *; [left; congruence|].
  unfold getitem in Hfill. destruct (exts !! j) as [k0|] eqn:Hj;
    simpl in Hfill; [|done].
  destruct (IH _ _ Hfill Hk) as [Hin|(raw & Hraw & ->)].
  - destruct (decide (k0 = k)) as [<-|Hne].
    + rewrite lookup_insert_eq in Hin. injection Hin as <-.
      right. exists c. split; [left|done].
    + left. by rewrite lookup_insert_ne in Hin.
  - right. exists raw. split; [by right|done].
Qed.

(** *** The outer loop *)

(** Rows no wider than the header: the loop finishes. *)
Lemma parse_rows_ok exts lines m :
  (∀ line, line ∈ lines → length (data_cells line) ≤ length exts) →
  ∃ m', parse_rows exts lines m = Ok m'.
Proof.
  revert m. induction lines as [|line lines IH]; intros m Hw.
  - by eexists.
  - rewrite parse_rows_cons.
    destruct (fill_row_ok exts 0 (data_cells line)
                (default ∅ (m !! row_name line))) as [row ->].
    { simpl. apply Hw. left. }
    simpl. apply IH. intros l Hl. apply Hw. by right.
Qed.

Lemma parse_rows_error exts lines m e :
  parse_rows exts lines m = Raise e → e = IndexError.
Proof.
  revert m. induction lines as [|line lines IH]; intros m; [done|].
  rewrite parse_rows_cons.
  destruct (fill_row _ _ _ _) as [row|e'] eqn:Hfill; simpl.
  - apply IH.
  - intros [= <-]. by eapply fill_row_error.
Qed.

(** A row wider than the header: the loop raises. *)
Lemma parse_rows_raise exts lines m line :
  line ∈ lines → length exts < length (data_cells line) →
  parse_rows exts lines m = Raise IndexError.
Proof.
  revert m. induction lines as [|l lines IH]; intros m Hin Hw.
  - by apply elem_of_nil in Hin.
  - rewrite parse_rows_cons.
    destruct (fill_row exts 0 (data_cells l) (default ∅ (m !! row_name l)))
      as [row|e] eqn:Hfill; simpl.
    + apply elem_of_cons in Hin as [->|Hin]; [|by apply IH].
      rewrite fill_row_raise in Hfill; [done|simpl; lia|].
      destruct (data_cells l); [simpl in Hw; lia|done].
    + f_equal. by eapply fill_row_error.
Qed.

(** Inner keys stay header names. *)
Lemma parse_rows_keys exts lines m m' :
  parse_rows exts lines m = Ok m' →
  (∀ r row k, m !! r = Some row → is_Some (row !! k) → k ∈ exts) →
  ∀ r row k, m' !! r = Some row → is_Some (row !! k) → k ∈ exts.
Proof.
  revert m. induction lines as [|line lines IH]; intros m Hp Hinv.
  - simpl in Hp. by injection Hp as <-.
  - rewrite parse_rows_cons in Hp.
    destruct (fill_row _ _ _ _) as [row1|] eqn:Hfill; simpl in Hp; [|done].
    apply (IH _ Hp). intros r row k Hr Hk.
    destruct (decide (row_name line = r)) as [<-|Hne].
    + rewrite lookup_insert_eq in Hr. injection Hr as <-.
      destruct (fill_row_keys _ _ _ _ _ _ Hfill Hk) as [Hold|Hnew]; [|done].
      destruct (m !! row_name line) as [row0|] eqn:Hrow0; simpl in Hold.
      * by eapply Hinv.
      * rewrite lookup_empty in Hold. by destruct Hold.
    + rewrite lookup_insert_ne in Hr by done. by eapply Hinv.
Qed.

(** Recorded values are normalised raw cells of the data lines. *)
Lemma parse_rows_values exts lines m m' :
  parse_rows exts lines m = Ok m' →
  ∀ r row k v, m' !! r = Some row → row !! k = Some v →
    (∃ row0, m !! r = Some row0 ∧ row0 !! k = Some v)
    ∨ ∃ line raw, line ∈ lines ∧ raw ∈ data_cells line ∧ v = normalise raw.
Proof.
  revert m. induction lines as [|line lines IH]; intros m Hp r row k v Hr Hk.
  - simpl in Hp. injection Hp as <-. left. eauto.
  - rewrite parse_rows_cons in Hp.
    destruct (fill_row _ _ _ _) as [row1|] eqn:Hfill; simpl in Hp; [|done].
    destruct (IH _ Hp r row k v Hr Hk)
      as [(row0 & Hr0 & Hk0)|(l & raw & Hl & Hraw & ->)].
    + destruct (decide (row_name line = r)) as [<-|Hne].
      * rewrite lookup_insert_eq in Hr0. injection Hr0 as <-.
        destruct (fill_row_values _ _ _ _ _ _ _ Hfill Hk0)
          as [Hold|(raw & Hraw & ->)].
        -- destruct (m !! row_name line) as [rowm|] eqn:Hm; simpl in Hold.
           ++ left. eauto.
           ++ by rewrite lookup_empty in Hold.
        -- right. exists line, raw. split; [left|done].
      * rewrite lookup_insert_ne in Hr0 by done. left. eauto.
    + right. exists l, raw. split; [by right|done].
Qed.

(** Rows whose name no later line carries are left alone. *)
Lemma parse_rows_lookup_old exts lines m m' r :
  parse_rows exts lines m = Ok m' →
  (∀ line, line ∈ lines → row_name line ≠ r) →
  m' !! r = m !! r.
Proof.
  revert m. induction lines as [|line lines IH]; intros m Hp Hr.
  - simpl in Hp. by injection Hp as <-.
  - rewrite parse_rows_cons in Hp.
    destruct (fill_row _ _ _ _) as [row1|] eqn:Hfill; simpl in Hp; [|done].
    rewrite (IH _ Hp) by (intros l Hl; apply Hr; by right).
    apply lookup_insert_ne, Hr. left.
Qed.

(** With distinct row names, the row stored for a line is the one its own
    inner loop built. *)
Lemma parse_rows_lookup_new exts lines m m' line :
  NoDup (row_name <$> lines) →
  parse_rows exts lines m = Ok m' →
  line ∈ lines →
  ∃ row, m' !! row_name line = Some row
         ∧ fill_row exts 0 (data_cells line)
                    (default ∅ (m !! row_name line)) = Ok row.
Proof.
  revert m. induction lines as [|l lines IH]; intros m Hnd Hp Hin.
  - by apply elem_of_nil in Hin.
  - rewrite parse_rows_cons in Hp. rewrite fmap_cons in Hnd.
    apply NoDup_cons in Hnd as [Hfresh Hnd].
    destruct (fill_row exts 0 (data_cells l) _) as [row1|] eqn:Hfill;
      simpl in Hp; [|done].
    apply elem_of_cons in Hin as [Heq|Hin].
    + subst l. exists row1. split; [|done].
      rewrite (parse_rows_lookup_old _ _ _ _ _ Hp).
      * apply lookup_insert_eq.
      * intros l' Hl' Hname. apply Hfresh. rewrite <- Hname.
        by apply list_elem_of_fmap_2.
    + assert (row_name l ≠ row_name line) as Hne.
      { intros Heq. apply Hfresh. rewrite Heq.
        by apply list_elem_of_fmap_2. }
      destruct (IH _ Hnd Hp Hin) as (row & Hrow & Hf).
      exists row. split; [done|].
      by rewrite lookup_insert_ne in Hf.
Qed.

(** Rows no wider than the header: the parser returns, and the inner
    keys of the matrix are header names. *)
Lemma parse_csv_ok csv :
  (∀ line, line ∈ csv_data_lines csv →
     length (data_cells line) ≤ length (csv_extensions csv)) →
  ∃ matrix,
    parse_csv csv = Ok (csv_extensions csv, matrix)
    ∧ ∀ r row k, matrix !! r = Some row → is_Some (row !! k) →
        k ∈ csv_extensions csv.
Proof.
  intros Hw. rewrite parse_csv_unfold.
  destruct (parse_rows_ok (csv_extensions csv) (csv_data_lines csv) ∅ Hw)
    as [matrix Hp].
  exists matrix. rewrite Hp. split; [done|].
  apply (parse_rows_keys _ _ _ _ Hp).
  intros r row k Hr. by rewrite lookup_empty in Hr.
Qed.

(** Every recorded value is a raw cell of a data line, normalised. *)
Lemma parse_csv_values csv exts m a b v :
  parse_csv csv = Ok (exts, m) → cell m a b = Some v →
  ∃ line raw,
    line ∈ csv_data_lines csv ∧ raw ∈ data_cells line ∧ v = normalise raw.
Proof.
  rewrite parse_csv_unfold.
  destruct (parse_rows _ _ _) as [m0|] eqn:Hp; simpl; [|done].
  intros [= <- <-]. unfold cell.
  destruct (m0 !! a) as [row|] eqn:Hrow; simpl; [|done].
  intros Hv.
  destruct (parse_rows_values _ _ _ _ Hp a row b v Hrow Hv)
    as [(row0 & Hr0 & _)|Hraw]; [|done].
  by rewrite lookup_empty in Hr0.
Qed.

(** C10. The parser is partial.  When every data row has at most as many
    data cells as the header has extension columns, parsing returns the
    header names and a matrix whose inner keys are all header names.  When
    some data row is wider than the header, parsing raises [IndexError]
    and returns nothing; the table with header [x,A] and row [A,1,2] is
    such an input. *)
Theorem parse_csv_partial :
  (∀ csv : string,
     (∀ line, line ∈ csv_data_lines csv →
        length (data_cells line) ≤ length (csv_extensions csv)) →
     ∃ matrix,
       parse_csv csv = Ok (csv_extensions csv, matrix)
       ∧ ∀ r row k, matrix !! r = Some row → is_Some (row !! k) →
           k ∈ csv_extensions csv)
  ∧ (∀ (csv line : string),
       line ∈ csv_data_lines csv →
       length (csv_extensions csv) < length (data_cells line) →
       parse_csv csv = Raise IndexError)
  ∧ parse_csv ("x,A" +:+ newline +:+ "A,1,2") = Raise IndexError.
Proof.
  split; [|split].
  - apply parse_csv_ok.
  - intros csv line Hin Hw. rewrite parse_csv_unfold.
    by rewrite (parse_rows_raise _ _ _ line Hin Hw).
  - reflexivity.
Qed.

(** The scenario's table is no wider than its header. *)
Lemma parse_csv_partial_witness :
  ∃ matrix,
    parse_csv scenario_csv = Ok (csv_extensions scenario_csv, matrix)
    ∧ ∀ r row k, matrix !! r = Some row → is_Some (row !! k) →
        k ∈ csv_extensions scenario_csv.
Proof.
  apply (proj1 parse_csv_partial scenario_csv).
  intros line Hin. vm_compute in Hin.
  repeat (apply elem_of_cons in Hin as [->|Hin]; [vm_compute; lia|]).
  by apply elem_of_nil in Hin.
Defined.

(** ** From raw cells to counted failures *)

(** With distinct header names and distinct row names, the value recorded
    for a raw cell is that cell, normalised. *)
Lemma parse_csv_cell csv m line j raw O :
  NoDup (csv_extensions csv) →
  NoDup (row_name <$> csv_data_lines csv) →
  parse_csv csv = Ok (csv_extensions csv, m) →
  line ∈ csv_data_lines csv →
  data_cells line !! j = Some raw →
  csv_extensions csv !! j = Some O →
  cell m (row_name line) O = Some (normalise raw).
Proof.
  intros Hexts Hrows Hp Hline Hraw HO.
  rewrite parse_csv_unfold in Hp.
  destruct (parse_rows _ _ _) as [m0|] eqn:Hrows_ok; simpl in Hp; [|done].
  injection Hp as <-.
  destruct (parse_rows_lookup_new _ _ _ _ line Hrows Hrows_ok Hline)
    as (row & Hrow & Hfill).
  unfold cell. rewrite Hrow. simpl.
  exact (fill_row_lookup_new _ 0 _ _ _ j raw O Hexts Hfill Hraw HO).
Qed.

(** A recorded cell [(E, O)] with value [v] is one test, and one failure
    exactly when [v] is "no", in the counts of [E] (row pass) and in those
    of [O] (column pass). *)
Lemma recorded_cell_counts m E O v l1 l2 :
  O ≠ E → cell m E O = Some v →
  let hit := if decide (v = "no") then 1 else 0 in
  (total_tests (run_tally E (l1 ++ O :: l2) m)
   = total_tests (run_tally E (l1 ++ l2) m) + 1
     + (if cell m O E is Some _ then 1 else 0)
   ∧ failures (run_tally E (l1 ++ O :: l2) m)
     = failures (run_tally E (l1 ++ l2) m) + hit
       + (if decide (cell m O E = Some "no") then 1 else 0))
  ∧ (total_tests (run_tally O (l1 ++ E :: l2) m)
     = total_tests (run_tally O (l1 ++ l2) m)
       + (if cell m O E is Some _ then 1 else 0) + 1
     ∧ failures (run_tally O (l1 ++ E :: l2) m)
       = failures (run_tally O (l1 ++ l2) m)
         + (if decide (cell m O E = Some "no") then 1 else 0) + hit).
Proof.
  intros Hne Hcell hit. split.
  - destruct (run_tally_insert_name E O l1 l2 m Hne) as [Ht Hf].
    rewrite Hcell in Ht, Hf. split; [exact Ht|].
    rewrite Hf. subst hit.
    destruct (decide (v = "no")) as [->|Hv].
    + by rewrite decide_True.
    + by rewrite decide_False by congruence.
  - destruct (run_tally_insert_name O E l1 l2 m) as [Ht Hf]; [done|].
    rewrite Hcell in Ht, Hf. split; [exact Ht|].
    rewrite Hf. subst hit.
    destruct (decide (v = "no")) as [->|Hv].
    + by rewrite (decide_True (P := Some "no" = Some "no")).
    + by rewrite (decide_False (P := Some v = Some "no")) by congruence.
Qed.

(** C6. Every value that parsing records in the matrix is a raw cell of
    the table, trimmed and lower-cased.  A recorded cell is one test in
    the counts of its row extension and of its column extension, and it is
    one failure there exactly when the recorded value is "no"; any other
    value is a test that passes.  For a table of well-formed shape (rows no
    wider than the header, distinct header names, distinct row names)
    parsing succeeds whatever the cells hold, and the cell of a row under
    a header name is recorded for that pair. *)
Theorem failure_iff_normalised_no :
  (∀ csv exts m a b v,
     parse_csv csv = Ok (exts, m) → cell m a b = Some v →
     ∃ line raw,
       line ∈ csv_data_lines csv ∧ raw ∈ data_cells line
       ∧ v = normalise raw)
  ∧ (∀ (m : gmap string (gmap string string)) E O v l1 l2,
       O ≠ E → cell m E O = Some v →
       let hit := if decide (v = "no") then 1 else 0 in
       (total_tests (run_tally E (l1 ++ O :: l2) m)
        = total_tests (run_tally E (l1 ++ l2) m) + 1
          + (if cell m O E is Some _ then 1 else 0)
        ∧ failures (run_tally E (l1 ++ O :: l2) m)
          = failures (run_tally E (l1 ++ l2) m) + hit
            + (if decide (cell m O E = Some "no") then 1 else 0))
       ∧ (total_tests (run_tally O (l1 ++ E :: l2) m)
          = total_tests (run_tally O (l1 ++ l2) m)
            + (if cell m O E is Some _ then 1 else 0) + 1
          ∧ failures (run_tally O (l1 ++ E :: l2) m)
            = failures (run_tally O (l1 ++ l2) m)
              + (if decide (cell m O E = Some "no") then 1 else 0) + hit))
  ∧ (∀ csv,
       (∀ line, line ∈ csv_data_lines csv →
          length (data_cells line) ≤ length (csv_extensions csv)) →
       NoDup (csv_extensions csv) →
       NoDup (row_name <$> csv_data_lines csv) →
       ∃ m,
         parse_csv csv = Ok (csv_extensions csv, m)
         ∧ ∀ line j raw O,
             line ∈ csv_data_lines csv →
             data_cells line !! j = Some raw →
             csv_extensions csv !! j = Some O →
             cell m (row_name line) O = Some (normalise raw)).
Proof.
  split; [exact parse_csv_values|]. split; [exact recorded_cell_counts|].
  intros csv Hshape Hexts Hrows.
  destruct (parse_csv_ok csv Hshape) as (m & Hp & _).
  exists m. split; [done|].
  intros line j raw O Hline Hraw HO. by eapply parse_csv_cell.
Qed.

(** The table whose (A, B) cell is written [ No ]. *)
Lemma failure_iff_normalised_no_witness :
  ∃ m,
    parse_csv spaced_no_csv = Ok (csv_extensions spaced_no_csv, m)
    ∧ ∀ line j raw O,
        line ∈ csv_data_lines spaced_no_csv →
        data_cells line !! j = Some raw →
        csv_extensions spaced_no_csv !! j = Some O →
        cell m (row_name line) O = Some (normalise raw).
Proof.
  apply (proj2 (proj2 failure_iff_normalised_no) spaced_no_csv).
  - intros line Hin. vm_compute in Hin.
    repeat (apply elem_of_cons in Hin as [->|Hin]; [vm_compute; lia|]).
    by apply elem_of_nil in Hin.
  - apply (bool_decide_unpack _). by vm_compute.
  - apply (bool_decide_unpack _). by vm_compute.
Defined.

Example normalise_examples :
  normalise " No " = "no" ∧ normalise "NO" = "no"
  ∧ normalise "yes" ≠ "no" ∧ normalise "" ≠ "no" ∧ normalise "n o" ≠ "no".
Proof. repeat split; done. Qed.

(** On that table, the pipeline reports B as failed for A. *)
Example spaced_no_counts :
  rbind (parse_csv spaced_no_csv) (λ '(extensions, matrix),
    Ok (calculate_failure_rate_and_failed_extensions "A" extensions matrix))
  = Ok (Qc_of_nat 50, ["B"]).
Proof.
  vm_compute parse_csv. simpl rbind. f_equal.
  apply injective_projections; [apply Qc_is_canon|]; by vm_compute.
Qed.

(** ** The evidence locator *)

(** The specification's example: only the file of [pgcrypto_plpgsql]
    exists, and the locator returns one group, keyed [plpgsql], with one
    entry holding the text of the file. *)
Example locator_pgcrypto (text : string) :
  (get_terminal_outputs "pgcrypto" ["plpgsql"] (pgcrypto_world text)).1
  = Ok [("plpgsql",
         [Evidence "pgcrypto_plpgsql" "pgcrypto" "plpgsql" text])].
Proof. reflexivity. Qed.

(** Both directions exist for [b]; the file for [c] cannot be read: two
    entries are kept for [b], in the order probed, and [c] is reported on
    standard output and left out. *)
Example locator_both_directions :
  let w := World {[ "total_compat_output/a_b/terminal.txt" := File "1";
                    "total_compat_output/b_a/terminal.txt" := File "2";
                    "total_compat_output/c_a/terminal.txt" := Unreadable ]}
                 [] in
  (get_terminal_outputs "a" ["c"; "b"] w).1
  = Ok [("b", [Evidence "a_b" "a" "b" "1"; Evidence "b_a" "b" "a" "2"])]
  ∧ stdout (get_terminal_outputs "a" ["c"; "b"] w).2
    = ["Error reading total_compat_output/c_a/terminal.txt: [Errno 13] Permission denied: 'total_compat_output/c_a/terminal.txt'"].
Proof. split; reflexivity. Qed.

(** C4, at a counterpart whose name starts with the extension's name and
    an underscore.  Only the output of the run named
    [postgis_topology_postgis] exists, so the identifier that matches is
    the one with the counterpart first.  The test
    [direction.startswith(f"{extension}_")] holds for that identifier too,
    and the entry is recorded with the extension first. *)
Theorem locator_direction_misrecorded (text : string) :
  (get_terminal_outputs "postgis" ["postgis_topology"]
     (postgis_world text)).1
  = Ok [("postgis_topology",
         [Evidence "postgis_topology_postgis"
                   "postgis" "postgis_topology" text])].
Proof. reflexivity. Qed.

(** ** Reasoning about computations *)

Lemma bind_run {A B} (c : M A) (k : A → M B) w :
  (c ≫= k) w = match c w with
               | (Ok a, w') => k a w'
               | (Raise e, w') => (Raise e, w')
               end.
Proof. reflexivity. Qed.

Lemma bind_ok {A B} (c : M A) (k : A → M B) w b w' :
  (c ≫= k) w = (Ok b, w') →
  ∃ a w1, c w = (Ok a, w1) ∧ k a w1 = (Ok b, w').
Proof.
  rewrite bind_run. destruct (c w) as [[a|e] w1]; [eauto|done].
Qed.

Lemma bind_step {A B} (c : M A) (k : A → M B) w a w1 :
  c w = (Ok a, w1) → (c ≫= k) w = k a w1.
Proof. intros Hc. by rewrite bind_run, Hc. Qed.

Lemma bind_raise {A B} (c : M A) (k : A → M B) w e w1 :
  c w = (Raise e, w1) → (c ≫= k) w = (Raise e, w1).
Proof. intros Hc. by rewrite bind_run, Hc. Qed.

Lemma reads_only_ret {A} (a : A) : reads_only (mret a).
Proof. by intros w. Qed.

Lemma reads_only_lift {A} (r : result A) : reads_only (lift r).
Proof. by intros w. Qed.

Lemma reads_only_print s : reads_only (print s).
Proof. by intros w. Qed.

Lemma reads_only_exists p : reads_only (os_path_exists p).
Proof. by intros w. Qed.

Lemma reads_only_read_text p : reads_only (read_text p).
Proof.
  intros w. unfold read_text. by destruct (fs w !! p) as [[]|].
Qed.

Lemma reads_only_bind {A B} (c : M A) (k : A → M B) :
  reads_only c → (∀ a, reads_only (k a)) → reads_only (c ≫= k).
Proof.
  intros Hc Hk w. rewrite bind_run. specialize (Hc w).
  destruct (c w) as [[a|e] w1]; simpl in *; [|done].
  by rewrite Hk.
Qed.

Lemma reads_only_try_except {A} (c : M A) (h : exn → M A) :
  reads_only c → (∀ e, reads_only (h e)) → reads_only (try_except c h).
Proof.
  intros Hc Hh w. unfold try_except. specialize (Hc w).
  destruct (c w) as [[a|e] w1]; simpl in *; [done|].
  by rewrite Hh.
Qed.

Lemma reads_only_for_each {A B} (body : A → B → M A) acc l :
  (∀ a x, reads_only (body a x)) → reads_only (for_each body acc l).
Proof.
  intros Hbody. revert acc. induction l as [|x l IH]; intros acc; simpl.
  - apply reads_only_ret.
  - apply reads_only_bind; [apply Hbody|apply IH].
Qed.

(** Printing the lines of a list appends them to standard output. *)
Lemma print_lines l w :
  for_each (λ _ line, print line) () l w
  = (Ok (), World (fs w) (stdout w ++ l)).
Proof.
  revert w. induction l as [|x l IH]; intros w; simpl.
  - rewrite app_nil_r. by destruct w.
  - rewrite (bind_step _ _ w () (World (fs w) (stdout w ++ [x])))
      by reflexivity.
    rewrite IH. simpl. by rewrite <- (assoc_L (++)).
Qed.

Lemma never_raises_ret {A} (a : A) : never_raises (mret a).
Proof. intros w. by exists a. Qed.

Lemma never_raises_print s : never_raises (print s).
Proof. intros w. by exists (). Qed.

Lemma never_raises_bind {A B} (c : M A) (k : A → M B) :
  never_raises c → (∀ a, never_raises (k a)) → never_raises (c ≫= k).
Proof.
  intros Hc Hk w. rewrite bind_run. destruct (Hc w) as [a Ha].
  destruct (c w) as [[a'|e] w1]; simpl in *; [|done].
  apply Hk.
Qed.

Lemma never_raises_try_except {A} (c : M A) (h : exn → M A) :
  (∀ e, never_raises (h e)) → never_raises (try_except c h).
Proof.
  intros Hh w. unfold try_except.
  destruct (c w) as [[a|e] w1]; simpl; [by exists a|apply Hh].
Qed.

Lemma never_raises_for_each {A B} (body : A → B → M A) acc l :
  (∀ a x, never_raises (body a x)) → never_raises (for_each body acc l).
Proof.
  intros Hbody. revert acc. induction l as [|x l IH]; intros acc; simpl.
  - apply never_raises_ret.
  - apply never_raises_bind; [apply Hbody|apply IH].
Qed.

(** *** The evidence locator reads, reports and returns *)

Lemma reads_only_probe_direction extension failed_ext acc direction :
  reads_only (probe_direction extension failed_ext acc direction).
Proof.
  unfold probe_direction. apply reads_only_bind; [apply reads_only_exists|].
  intros [|]; [|apply reads_only_ret].
  apply reads_only_try_except.
  - apply reads_only_bind; [apply reads_only_read_text|].
    intros text. destruct (Py.startswith _ _); apply reads_only_ret.
  - intros e. apply reads_only_bind; [apply reads_only_print|].
    intros _. apply reads_only_ret.
Qed.

Lemma reads_only_get_terminal_outputs extension failed_extensions :
  reads_only (get_terminal_outputs extension failed_extensions).
Proof.
  unfold get_terminal_outputs. apply reads_only_bind.
  - apply reads_only_for_each. intros acc failed_ext.
    apply reads_only_for_each. intros acc' direction.
    apply reads_only_probe_direction.
  - intros m. apply reads_only_ret.
Qed.

Lemma never_raises_probe_direction extension failed_ext acc direction :
  never_raises (probe_direction extension failed_ext acc direction).
Proof.
  unfold probe_direction. apply never_raises_bind.
  { intros w. by eexists. }
  intros [|]; [|apply never_raises_ret].
  apply never_raises_try_except. intros e.
  apply never_raises_bind; [apply never_raises_print|].
  intros _. apply never_raises_ret.
Qed.

(** Whatever the files hold, readable or not, the locator returns. *)
Lemma never_raises_get_terminal_outputs extension failed_extensions :
  never_raises (get_terminal_outputs extension failed_extensions).
Proof.
  unfold get_terminal_outputs. apply never_raises_bind.
  - apply never_raises_for_each. intros acc failed_ext.
    apply never_raises_for_each. intros acc' direction.
    apply never_raises_probe_direction.
  - intros m. apply never_raises_ret.
Qed.

(** ** Strings and paths *)

Lemma app_cons c s t : String c s +:+ t = String c (s +:+ t).
Proof. reflexivity. Qed.

Lemma app_empty_l t : "" +:+ t = t.
Proof. reflexivity. Qed.

Lemma app_assoc_str s t u : (s +:+ t) +:+ u = s +:+ (t +:+ u).
Proof.
  induction s as [|c s IH]; [done|]. by rewrite !app_cons, IH.
Qed.

Lemma app_length_str s t :
  String.length (s +:+ t) = String.length s + String.length t.
Proof.
  induction s as [|c s IH]; [done|]. rewrite app_cons. simpl. by rewrite IH.
Qed.

Lemma app_inj_r s1 s2 t : s1 +:+ t = s2 +:+ t → s1 = s2.
Proof.
  revert s2. induction s1 as [|c s1 IH]; intros [|d s2] Heq.
  - done.
  - apply (f_equal String.length) in Heq.
    rewrite app_empty_l, app_cons in Heq. simpl in Heq.
    rewrite app_length_str in Heq. lia.
  - apply (f_equal String.length) in Heq.
    rewrite app_empty_l, app_cons in Heq. simpl in Heq.
    rewrite app_length_str in Heq. lia.
  - rewrite !app_cons in Heq. injection Heq as -> Heq.
    f_equal. by apply IH.
Qed.

Lemma startswith_app p s : Py.startswith p (p +:+ s) = true.
Proof.
  induction p as [|c p IH]; [by destruct s|].
  rewrite app_cons. simpl. by rewrite bool_decide_eq_true_2, IH.
Qed.

Lemma startswith_sep_app a s :
  a ≠ "" → Py.startswith "/" (a +:+ s) = Py.startswith "/" a.
Proof. by destruct a. Qed.

Lemma os_path_join_relative a b :
  Py.startswith "/" b = false → os_path_join a b = join_prefix a +:+ b.
Proof.
  intros Hb. unfold os_path_join, join_prefix. rewrite Hb.
  destruct (bool_decide (a = "") || endswith_sep a); [done|].
  by rewrite app_assoc_str.
Qed.

Lemma os_path_join_absolute a b :
  Py.startswith "/" b = true → os_path_join a b = b.
Proof. intros Hb. unfold os_path_join. by rewrite Hb. Qed.

Lemma join_prefix_relative a :
  Py.startswith "/" a = false → Py.startswith "/" (join_prefix a) = false.
Proof.
  intros Ha. unfold join_prefix. destruct a as [|c a]; [done|].
  destruct (bool_decide (String c a = "") || endswith_sep (String c a));
    [done|].
  by rewrite startswith_sep_app.
Qed.

(** Under a relative build directory, distinct extensions have distinct
    pages. *)
Lemma page_path_inj build_path e1 e2 :
  Py.startswith "/" build_path = false →
  page_path build_path e1 = page_path build_path e2 → e1 = e2.
Proof.
  intros Hb. unfold page_path.
  pose proof (join_prefix_relative _ Hb) as Hpre.
  destruct (Py.startswith "/" (e1 +:+ ".html")) eqn:H1;
    destruct (Py.startswith "/" (e2 +:+ ".html")) eqn:H2.
  - rewrite !os_path_join_absolute by done. apply app_inj_r.
  - rewrite os_path_join_absolute, os_path_join_relative by done.
    intros Heq. rewrite Heq in H1.
    destruct (join_prefix build_path) as [|c pre] eqn:Hp.
    + rewrite app_empty_l in H1. congruence.
    + rewrite startswith_sep_app in H1 by done. congruence.
  - rewrite os_path_join_relative, os_path_join_absolute by done.
    intros Heq. rewrite <- Heq in H2.
    destruct (join_prefix build_path) as [|c pre] eqn:Hp.
    + rewrite app_empty_l in H2. congruence.
    + rewrite startswith_sep_app in H2 by done. congruence.
  - rewrite !os_path_join_relative by done.
    intros Heq. apply (inj _) in Heq. by apply app_inj_r in Heq.
Qed.

(** ** Writing the pages *)

Section Pages.
Context `{Collaborators}.

Lemma write_rendered_frame path t ctx w p :
  p ≠ path → fs (write_rendered path t ctx w).2 !! p = fs w !! p.
Proof.
  intros Hp. unfold write_rendered. rewrite !bind_run. simpl.
  destruct (render t ctx) as [text|e]; simpl; by rewrite !lookup_insert_ne.
Qed.

Lemma write_rendered_ok path t ctx w w' :
  write_rendered path t ctx w = (Ok (), w') →
  ∃ text, render t ctx = Ok text ∧ fs w' !! path = Some (File text).
Proof.
  unfold write_rendered. rewrite !bind_run. simpl.
  destruct (render t ctx) as [text|e]; simpl; [|done].
  intros [= <-]. exists text. split; [done|]. apply lookup_insert_eq.
Qed.

(** The loop body of an extension that has no column in the matrix: no
    evidence is looked for, and the page is rendered from
    [page_without_data]. *)
Lemma write_extension_page_without_data T build_path incl t extension w :
  extension ∉ extensions T →
  write_extension_page T build_path incl t () extension w
  = write_rendered (page_path build_path extension) t
      (ExtensionContext (page_without_data T incl extension)) w.
Proof.
  intros Hout. unfold write_extension_page, compatibility_data.
  by rewrite decide_False.
Qed.

Lemma write_extension_page_frame T build_path incl t extension w p :
  p ≠ page_path build_path extension →
  fs (write_extension_page T build_path incl t () extension w).2 !! p
  = fs w !! p.
Proof.
  intros Hp. unfold write_extension_page.
  destruct (compatibility_data _ _ _) as [[rate failed] has].
  rewrite bind_run.
  set (c := if has then _ else _).
  assert (reads_only c) as Hc.
  { subst c. destruct has;
      [apply reads_only_get_terminal_outputs|apply reads_only_ret]. }
  specialize (Hc w). destruct (c w) as [[outs|e] w1]; simpl in *.
  - rewrite write_rendered_frame by done. by rewrite Hc.
  - by rewrite Hc.
Qed.

Lemma pages_loop_frame T build_path incl t l w p :
  (∀ x, x ∈ l → p ≠ page_path build_path x) →
  fs (for_each (write_extension_page T build_path incl t) () l w).2 !! p
  = fs w !! p.
Proof.
  revert w. induction l as [|x l IH]; intros w Hp; [done|].
  simpl. rewrite bind_run.
  pose proof (write_extension_page_frame T build_path incl t x w p) as Hx.
  destruct (write_extension_page _ _ _ _ _ _ _) as [[[]|e] w1]; simpl in *.
  - rewrite IH by (intros y Hy; apply Hp; by right).
    apply Hx, Hp. left.
  - apply Hx, Hp. left.
Qed.

(** After the loop has run to its end, the page of each extension without
    a column holds the rendering of [page_without_data]. *)
Lemma pages_loop_without_data T build_path incl t l w w' extension :
  Py.startswith "/" build_path = false →
  for_each (write_extension_page T build_path incl t) () l w = (Ok (), w') →
  extension ∈ l → extension ∉ extensions T →
  ∃ text,
    render t (ExtensionContext (page_without_data T incl extension)) = Ok text
    ∧ fs w' !! page_path build_path extension = Some (File text).
Proof.
  intros Hb. revert w. induction l as [|x l IH]; intros w Hrun Hin Hout.
  - by apply elem_of_nil in Hin.
  - simpl in Hrun. apply bind_ok in Hrun as ([] & w1 & Hx & Hrest).
    destruct (decide (extension ∈ l)) as [Hl|Hl]; [by eapply IH|].
    apply elem_of_cons in Hin as [->|Hin]; [|done].
    rewrite write_extension_page_without_data in Hx by done.
    apply write_rendered_ok in Hx as (text & Hr & Hw).
    exists text. split; [done|].
    rewrite <- Hw.
    replace w' with
      (for_each (write_extension_page T build_path incl t) () l w1).2
      by (by rewrite Hrest).
    apply pages_loop_frame. intros y Hy Heq.
    apply page_path_inj in Heq; [|done]. by subst y.
Qed.

(** Writing pages never removes a file. *)
Lemma write_rendered_keeps_file path t ctx w p :
  is_file w p → is_file (write_rendered path t ctx w).2 p.
Proof.
  intros [text Hp]. destruct (decide (p = path)) as [->|Hne].
  - unfold write_rendered. rewrite !bind_run. simpl.
    destruct (render t ctx) as [text'|e]; simpl; eexists;
      apply lookup_insert_eq.
  - exists text. by rewrite write_rendered_frame.
Qed.

Lemma write_rendered_file path t ctx w w' :
  write_rendered path t ctx w = (Ok (), w') → is_file w' path.
Proof.
  intros Hrun. apply write_rendered_ok in Hrun as (text & _ & Hw).
  by exists text.
Qed.

Lemma write_extension_page_keeps_file T build_path incl t extension w p :
  is_file w p →
  is_file (write_extension_page T build_path incl t () extension w).2 p.
Proof.
  intros Hp. unfold write_extension_page.
  destruct (compatibility_data _ _ _) as [[rate failed] has].
  rewrite bind_run.
  set (c := if has then _ else _).
  assert (reads_only c) as Hc.
  { subst c. destruct has;
      [apply reads_only_get_terminal_outputs|apply reads_only_ret]. }
  specialize (Hc w). unfold is_file in *.
  destruct (c w) as [[outs|e] w1]; simpl in *.
  - apply write_rendered_keeps_file. unfold is_file. by rewrite Hc.
  - by rewrite Hc.
Qed.

Lemma write_extension_page_file T build_path incl t extension w w' :
  write_extension_page T build_path incl t () extension w = (Ok (), w') →
  is_file w' (page_path build_path extension).
Proof.
  unfold write_extension_page.
  destruct (compatibility_data _ _ _) as [[rate failed] has].
  intros Hrun. apply bind_ok in Hrun as (outs & w1 & _ & Hrun).
  by apply write_rendered_file in Hrun.
Qed.

Lemma pages_loop_keeps_file T build_path incl t l w p :
  is_file w p →
  is_file (for_each (write_extension_page T build_path incl t) () l w).2 p.
Proof.
  revert w. induction l as [|x l IH]; intros w Hp; [done|].
  simpl. rewrite bind_run.
  pose proof (write_extension_page_keeps_file T build_path incl t x w p Hp)
    as Hx.
  destruct (write_extension_page _ _ _ _ _ _ _) as [[[]|e] w1]; simpl in *;
    [by apply IH|done].
Qed.

(** After the loop has run to its end, every extension has its page. *)
Lemma pages_loop_files T build_path incl t l w w' x :
  for_each (write_extension_page T build_path incl t) () l w = (Ok (), w') →
  x ∈ l → is_file w' (page_path build_path x).
Proof.
  revert w. induction l as [|y l IH]; intros w Hrun Hin.
  - by apply elem_of_nil in Hin.
  - simpl in Hrun. apply bind_ok in Hrun as ([] & w1 & Hy & Hrest).
    apply elem_of_cons in Hin as [->|Hin]; [|by eapply IH].
    apply write_extension_page_file in Hy.
    replace w' with
      (for_each (write_extension_page T build_path incl t) () l w1).2
      by (by rewrite Hrest).
    by apply pages_loop_keeps_file.
Qed.

End Pages.

(** ** The run as a whole *)

Section Run.
Context `{Collaborators}.

Lemma lift_ok {A} (r : result A) w a w' :
  lift r w = (Ok a, w') → r = Ok a ∧ w' = w.
Proof. unfold lift. by intros [= -> ->]. Qed.

Lemma reads_only_report T build_path :
  reads_only
    (print ("Website generated successfully in '" +:+ build_path
            +:+ "' directory!");;
     print ("Generated " +:+ pretty (length (all_extensions T) + 2)
            +:+ " HTML files:");;
     print "- index.html (homepage)";;
     print "- results.html (results overview)";;
     for_each (λ _ ext, print ("- " +:+ ext +:+ ".html")) ()
              (all_extensions T)).
Proof.
  repeat (apply reads_only_bind; [apply reads_only_print|intros _]).
  apply reads_only_for_each. intros _ x. apply reads_only_print.
Qed.

(** A run of [generate_pages] that returns has gone through the loop over
    the extension pages, and nothing is written after that loop. *)
Lemma generate_pages_ok T build_path incl w w' :
  generate_pages T build_path incl w = (Ok (), w') →
  ∃ t w2 w3,
    get_template "extension.html" = Ok t
    ∧ for_each (write_extension_page T build_path incl t) ()
               (all_extensions T) w2 = (Ok (), w3)
    ∧ fs w' = fs w3.
Proof.
  unfold generate_pages. intros Hrun.
  do 4 (apply bind_ok in Hrun as ([] & ? & _ & Hrun)).
  apply bind_ok in Hrun as (ti & ? & _ & Hrun).
  apply bind_ok in Hrun as ([] & ? & _ & Hrun).
  apply bind_ok in Hrun as (tr & ? & _ & Hrun).
  apply bind_ok in Hrun as ([] & ? & _ & Hrun).
  apply bind_ok in Hrun as (t & w2 & Ht & Hrun).
  apply lift_ok in Ht as [Ht <-].
  apply bind_ok in Hrun as ([] & w3 & Hloop & Hrun).
  exists t, w2, w3. split; [done|]. split; [done|].
  pose proof (reads_only_report T build_path w3) as Hfs.
  rewrite Hrun in Hfs. exact Hfs.
Qed.

(** A run of [generate_pages] that returns leaves a file at the path of
    the home page, of the results page and of every extension page. *)
Lemma generate_pages_files T build_path incl w w' :
  generate_pages T build_path incl w = (Ok (), w') →
  is_file w' (os_path_join build_path "index.html")
  ∧ is_file w' (os_path_join build_path "results.html")
  ∧ ∀ x, x ∈ all_extensions T → is_file w' (page_path build_path x).
Proof.
  unfold generate_pages. intros Hrun.
  do 4 (apply bind_ok in Hrun as ([] & ? & _ & Hrun)).
  apply bind_ok in Hrun as (ti & ? & _ & Hrun).
  apply bind_ok in Hrun as ([] & wi & Hindex & Hrun).
  apply bind_ok in Hrun as (tr & wi' & Hl & Hrun).
  apply lift_ok in Hl as [_ ->].
  apply bind_ok in Hrun as ([] & wr & Hresults & Hrun).
  apply bind_ok in Hrun as (t & wr' & Hl & Hrun).
  apply lift_ok in Hl as [_ ->].
  apply bind_ok in Hrun as ([] & w3 & Hloop & Hrun).
  pose proof (reads_only_report T build_path w3) as Hfs.
  rewrite Hrun in Hfs. simpl in Hfs.
  apply write_rendered_file in Hindex.
  pose proof (write_rendered_keeps_file
    (os_path_join build_path "results.html") tr
    (ResultsContext (extension_entry (source_code T) (descriptions T)
       (extensions T) (matrix T) incl <$> all_extensions T) "results" incl)
    wi _ Hindex) as Hindex'.
  rewrite Hresults in Hindex'. simpl in Hindex'.
  apply write_rendered_file in Hresults.
  assert (∀ p, is_file wr p → is_file w' p) as Hkeep.
  { intros p Hp. unfold is_file. rewrite Hfs.
    replace w3 with
      (for_each (write_extension_page T build_path incl t) ()
         (all_extensions T) wr).2 by (by rewrite Hloop).
    by apply pages_loop_keeps_file. }
  split; [by apply Hkeep|]. split; [by apply Hkeep|].
  intros ext Hext. unfold is_file. rewrite Hfs.
  by eapply pages_loop_files.
Qed.

Lemma generate_website_ok csv_file_path build_path incl w w' :
  is_Some (fs w !! "layout") →
  generate_website csv_file_path build_path incl w = (Ok (), w') →
  ∃ T w1, read_tables csv_file_path w = (Ok T, w1)
          ∧ generate_pages T build_path incl w1 = (Ok (), w').
Proof.
  intros Hlayout. unfold generate_website. rewrite bind_run.
  unfold os_path_exists at 1. rewrite bool_decide_eq_true_2 by done.
  intros Hrun. apply bind_ok in Hrun as (T & w1 & HT & Hrun). eauto.
Qed.


End Run.


(** On that site the page of [Z] says so. *)
Example demo_page_of_Z :
  fs (generate_website (H := demo) "csvs/compatibility.csv" "build" false
        demo_world).2 !! "build/Z.html"
  = Some (File "extension.html:Z:no compatibility data").
Proof. by vm_compute. Qed.

(** ** Missing input files *)

Section Readers.
Context `{Collaborators}.

Lemma read_table_missing {A} file_path note
    (step : A → gmap string (option string) → A * option exn) init w :
  fs w !! file_path = None →
  read_table file_path note step init w
  = (Ok init, World (fs w) (stdout w ++ [missing_warning file_path note])).
Proof.
  intros Hmiss. unfold read_table, read_text. by rewrite Hmiss.
Qed.

Lemma never_raises_read_table {A} file_path note
    (step : A → gmap string (option string) → A * option exn) init :
  never_raises (read_table file_path note step init).
Proof.
  intros w. unfold read_table.
  destruct (read_text file_path w) as [[text|e] w1].
  - destruct (rows_loop _ _ _) as [acc [e|]]; by eexists.
  - destruct e; by eexists.
Qed.

Lemma reads_only_read_table {A} file_path note
    (step : A → gmap string (option string) → A * option exn) init :
  reads_only (read_table file_path note step init).
Proof.
  intros w. unfold read_table.
  pose proof (reads_only_read_text file_path w) as Hfs.
  destruct (read_text file_path w) as [[text|e] w1]; simpl in Hfs.
  - by destruct (rows_loop _ _ _) as [acc [e|]].
  - by destruct e.
Qed.

(** With the four metadata files missing, the tables are read as empty
    and the run goes on to parse the compatibility table. *)
Lemma generate_website_missing_metadata csv_file_path build_path incl w text :
  is_Some (fs w !! "layout") →
  fs w !! csv_file_path = Some (File text) →
  fs w !! "csvs/source_code.csv" = None →
  fs w !! "csvs/descriptions.csv" = None →
  fs w !! "csvs/infos.csv" = None →
  fs w !! "csvs/mechanisms.csv" = None →
  generate_website csv_file_path build_path incl w
  = ('(extensions, matrix) ← lift (parse_csv text);
     generate_pages (Tables ∅ ∅ ∅ [] ∅ extensions matrix)
                    build_path incl)
      (World (fs w) (stdout w ++ metadata_warnings)).
Proof.
  intros Hlayout Hcsv H1 H2 H3 H4.
  unfold generate_website.
  rewrite (bind_step _ _ w true w)
    by (unfold os_path_exists; by rewrite bool_decide_eq_true_2).
  unfold read_tables. rewrite bind_run.
  rewrite (bind_step _ _ w text w) by (unfold read_text; by rewrite Hcsv).
  unfold parse_source_code_csv.
  erewrite (bind_step (read_table _ _ _ _)) by (by apply read_table_missing).
  unfold parse_descriptions_csv.
  erewrite (bind_step (read_table _ _ _ _)) by (by apply read_table_missing).
  unfold parse_infos_csv.
  erewrite (bind_step (read_table _ _ _ _)) by (by apply read_table_missing).
  unfold parse_mechanisms_csv.
  erewrite (bind_step (read_table _ _ _ _)) by (by apply read_table_missing).
  simpl fs. simpl stdout. rewrite <- !(assoc_L (++)). simpl app.
  fold metadata_warnings. rewrite !bind_run. unfold lift.
  by destruct (parse_csv text) as [[extensions matrix]|e].
Qed.

(** C5, as the code has it.  Each of the four metadata readers returns
    in every world and leaves the files alone; on a missing file it
    prints a warning and returns its empty structures; with all four files
    missing the run goes on from empty tables.  The compatibility table is
    different: when it is missing [generate_website] raises
    [FileNotFoundError] with nothing written, and the script, which checks
    for the file first, prints its instructions and generates nothing. *)
Theorem missing_metadata_not_fatal :
  (∀ file_path w, fs w !! file_path = None →
     parse_source_code_csv file_path w
     = (Ok ∅, World (fs w) (stdout w ++ [missing_warning file_path
          "Source code links will not be available."]))
     ∧ parse_descriptions_csv file_path w
       = (Ok ∅, World (fs w) (stdout w ++ [missing_warning file_path
            "Descriptions will not be available."]))
     ∧ parse_infos_csv file_path w
       = (Ok (∅, []), World (fs w) (stdout w ++ [missing_warning file_path
            "Extensibility info will not be available."]))
     ∧ parse_mechanisms_csv file_path w
       = (Ok ∅, World (fs w) (stdout w ++ [missing_warning file_path
            "System components info will not be available."])))
  ∧ (∀ file_path,
       never_raises (parse_source_code_csv file_path)
       ∧ never_raises (parse_descriptions_csv file_path)
       ∧ never_raises (parse_infos_csv file_path)
       ∧ never_raises (parse_mechanisms_csv file_path))
  ∧ (∀ csv_file_path build_path incl w text,
       is_Some (fs w !! "layout") →
       fs w !! csv_file_path = Some (File text) →
       fs w !! "csvs/source_code.csv" = None →
       fs w !! "csvs/descriptions.csv" = None →
       fs w !! "csvs/infos.csv" = None →
       fs w !! "csvs/mechanisms.csv" = None →
       generate_website csv_file_path build_path incl w
       = ('(extensions, matrix) ← lift (parse_csv text);
          generate_pages (Tables ∅ ∅ ∅ [] ∅ extensions matrix)
                         build_path incl)
           (World (fs w) (stdout w ++ metadata_warnings)))
  ∧ (∀ csv_file_path build_path incl w,
       is_Some (fs w !! "layout") →
       fs w !! csv_file_path = None →
       generate_website csv_file_path build_path incl w
       = (Raise (FileNotFoundError csv_file_path), w))
  ∧ (∀ w, fs w !! "csvs/compatibility.csv" = None →
       (main w).1 = Ok ()
       ∧ fs (main w).2 = fs w
       ∧ stdout (main w).2
         = stdout w ++ csv_missing_report "csvs/compatibility.csv").
Proof.
  split; [|split; [|split; [|split]]].
  - intros file_path w Hmiss. repeat split; by apply read_table_missing.
  - intros file_path. repeat split; apply never_raises_read_table.
  - apply generate_website_missing_metadata.
  - intros csv_file_path build_path incl w Hlayout Hmiss.
    unfold generate_website. rewrite bind_run.
    unfold os_path_exists at 1. rewrite bool_decide_eq_true_2 by done.
    unfold read_tables. rewrite !bind_run.
    unfold read_text at 1. by rewrite Hmiss.
  - intros w Hmiss.
    assert (main w = for_each (λ _ line, print line) ()
                       (csv_missing_report "csvs/compatibility.csv") w) as ->.
    { unfold main. erewrite bind_step; [|reflexivity].
      rewrite bool_decide_eq_false_2; [done|].
      rewrite Hmiss. by intros [? ?]. }
    by rewrite print_lines.
Qed.

End Readers.

(** The bare site: the four warnings are printed and the pages that do not
    depend on the metadata are written. *)
Lemma missing_metadata_not_fatal_witness :
  generate_website (H := demo) "csvs/compatibility.csv" "build" false
    bare_world
  = ('(extensions, matrix) ← lift (parse_csv scenario_csv);
     generate_pages (H := demo) (Tables ∅ ∅ ∅ [] ∅ extensions matrix)
                    "build" false)
      (World (fs bare_world) (stdout bare_world ++ metadata_warnings)).
Proof.
  apply (proj1 (proj2 (proj2 (missing_metadata_not_fatal (H := demo))))
           "csvs/compatibility.csv" "build" false bare_world scenario_csv);
    [by eexists|reflexivity..].
Defined.

Example bare_site_generated :
  let out := generate_website (H := demo) "csvs/compatibility.csv" "build"
               false bare_world in
  out.1 = Ok ()
  ∧ fs out.2 !! "build/index.html" = Some (File "index.html:home")
  ∧ fs out.2 !! "build/results.html" = Some (File "results.html:results:")
  ∧ take 4 (stdout out.2) = metadata_warnings.
Proof. by vm_compute. Qed.

(** C5 as stated fails for the compatibility table: on the site without
    it, [generate_website] raises and writes nothing, and the script
    prints its instructions, with no warning, no empty matrix and no
    page. *)
Lemma missing_matrix_is_fatal :
  generate_website (H := demo) "csvs/compatibility.csv" "build" false
    no_matrix_world
  = (Raise (FileNotFoundError "csvs/compatibility.csv"), no_matrix_world)
  ∧ main (H := demo) no_matrix_world
    = (Ok (), World (fs no_matrix_world)
                    (csv_missing_report "csvs/compatibility.csv"))
  ∧ fs (main (H := demo) no_matrix_world).2 !! "build/index.html" = None.
Proof. by vm_compute. Qed.

(** ** Two runs on the same inputs *)

Section Determinism.
Context `{Collaborators} (wa wb : world).
Hypothesis inputs_agree : ∀ p, ¬ under_build p → fs wa !! p = fs wb !! p.
Hypothesis dirs_usable : ∀ p, p ∈ output_dirs → usable wa p ∧ usable wb p.

Local Abbreviation synced := (synced wa wb).
Local Abbreviation steps_together := (steps_together wa wb).

Lemma synced_start : stdout wa = stdout wb → synced ∅ wa wb.
Proof.
  intros Hout. split; [done|]. intros p. right.
  split; [apply not_elem_of_empty|done].
Qed.

(** Input paths hold the same node in both runs. *)
Lemma synced_input W w1 w2 p :
  synced W w1 w2 → ¬ under_build p → fs w1 !! p = fs w2 !! p.
Proof.
  intros [_ Hs] Hp. destruct (Hs p) as [Heq|(_ & H1 & H2)]; [done|].
  rewrite H1, H2. by apply inputs_agree.
Qed.

Lemma synced_written W w1 w2 p :
  synced W w1 w2 → p ∈ W → fs w1 !! p = fs w2 !! p.
Proof. intros [_ Hs] Hp. by destruct (Hs p) as [Heq|(? & _)]. Qed.

Lemma synced_dir W w1 w2 p :
  synced W w1 w2 → p ∈ output_dirs →
  fs w1 !! p = fs w2 !! p ∨ (usable w1 p ∧ usable w2 p).
Proof.
  intros [_ Hs] Hp. destruct (Hs p) as [Heq|(_ & H1 & H2)]; [by left|].
  right. unfold usable. rewrite H1, H2. by apply dirs_usable.
Qed.

Lemma step_ret {A} W (a : A) w1 w2 (Q : result A → gset string → Prop) :
  synced W w1 w2 → Q (Ok a) W → steps_together W (mret a) w1 w2 Q.
Proof.
  intros Hs HQ. split; [done|]. exists W. by split; [|split].
Qed.

Lemma step_lift {A} W (r : result A) w1 w2
    (Q : result A → gset string → Prop) :
  synced W w1 w2 → Q r W → steps_together W (lift r) w1 w2 Q.
Proof.
  intros Hs HQ. split; [done|]. exists W. by split; [|split].
Qed.

Lemma step_print W s w1 w2 (Q : result () → gset string → Prop) :
  synced W w1 w2 → Q (Ok ()) W → steps_together W (print s) w1 w2 Q.
Proof.
  intros [Hout Hs] HQ. split; [done|]. exists W.
  split; [done|]. split; [|done]. split; [simpl; by rewrite Hout|done].
Qed.

Lemma step_exists W p w1 w2 (Q : result bool → gset string → Prop) :
  synced W w1 w2 → ¬ under_build p →
  (∀ b, Q (Ok b) W) →
  steps_together W (os_path_exists p) w1 w2 Q.
Proof.
  intros Hs Hp HQ. pose proof (synced_input _ _ _ _ Hs Hp) as Heq.
  split; [simpl; by rewrite Heq|]. exists W. split; [done|].
  split; [done|apply HQ].
Qed.

Lemma step_read_text W p w1 w2 (Q : result string → gset string → Prop) :
  synced W w1 w2 → ¬ under_build p →
  (∀ r, Q r W) →
  steps_together W (read_text p) w1 w2 Q.
Proof.
  intros Hs Hp HQ. pose proof (synced_input _ _ _ _ Hs Hp) as Heq.
  unfold steps_together, read_text. rewrite Heq.
  destruct (fs w2 !! p) as [[]|]; simpl;
    (split; [done|]; exists W; split; [done|]; split; [done|apply HQ]).
Qed.

Lemma synced_write W w1 w2 p n :
  synced W w1 w2 →
  synced ({[p]} ∪ W) (World (<[p := n]> (fs w1)) (stdout w1))
                     (World (<[p := n]> (fs w2)) (stdout w2)).
Proof.
  intros [Hout Hs]. split; [done|]. intros q. simpl.
  destruct (decide (p = q)) as [<-|Hne].
  - left. by rewrite !lookup_insert_eq.
  - rewrite !lookup_insert_ne by done.
    destruct (Hs q) as [Heq|(Hq & H1 & H2)]; [by left|].
    right. split; [set_solver|done].
Qed.

Lemma step_write_text W p text w1 w2 (Q : result () → gset string → Prop) :
  synced W w1 w2 →
  (∀ W', {[p]} ∪ W ⊆ W' → Q (Ok ()) W') →
  steps_together W (write_text p text) w1 w2 Q.
Proof.
  intros Hs HQ. split; [done|]. exists ({[p]} ∪ W).
  split; [set_solver|]. split; [by apply synced_write|by apply HQ].
Qed.

Lemma step_mkdir W p w1 w2 :
  synced W w1 w2 → p ∈ output_dirs →
  steps_together W (mkdir_exist_ok p) w1 w2 (λ _ _, True).
Proof.
  intros Hs Hp. unfold steps_together, mkdir_exist_ok.
  destruct (synced_dir _ _ _ _ Hs Hp) as [Heq|[Hu1 Hu2]].
  - rewrite Heq. destruct (fs w2 !! p) as [[]|] eqn:Hp2; simpl.
    + split; [done|]. exists W. by split; [|split].
    + split; [done|]. exists W. by split; [|split].
    + split; [done|]. exists W. by split; [|split].
    + split; [done|]. exists ({[p]} ∪ W). split; [set_solver|].
      split; [by apply synced_write|done].
  - assert (synced ({[p]} ∪ W)
              (World (<[p := Directory]> (fs w1)) (stdout w1))
              (World (<[p := Directory]> (fs w2)) (stdout w2))) as Hs'
      by (by apply synced_write).
    assert (∀ w, fs w !! p = Some Directory →
                 World (<[p := Directory]> (fs w)) (stdout w) = w) as Hid.
    { intros [f o] Hw. simpl in *. by rewrite insert_id. }
    destruct Hu1 as [H1|H1], Hu2 as [H2|H2]; rewrite H1, H2; simpl;
      (split; [done|]); exists ({[p]} ∪ W); (split; [set_solver|]);
      (split; [|done]).
    + done.
    + by rewrite (Hid w2 H2) in Hs'.
    + by rewrite (Hid w1 H1) in Hs'.
    + by rewrite (Hid w1 H1), (Hid w2 H2) in Hs'.
Qed.

(** Sequencing: the continuation is met in the states that the first
    part reached in the two runs. *)
Lemma step_bind {A B} W (c : M A) (k : A → M B) w1 w2
    (Q1 : result A → gset string → Prop)
    (Q : result B → gset string → Prop) :
  steps_together W c w1 w2 Q1 →
  (∀ a W1, W ⊆ W1 → (c w1).1 = Ok a → Q1 (Ok a) W1 →
     synced W1 (c w1).2 (c w2).2 →
     steps_together W1 (k a) (c w1).2 (c w2).2 Q) →
  (∀ e W1, W ⊆ W1 → (c w1).1 = Raise e → Q1 (Raise e) W1 →
     Q (Raise e) W1) →
  steps_together W (c ≫= k) w1 w2 Q.
Proof.
  intros (Hr & W1 & HW & Hs & HQ1) Hk He.
  unfold steps_together. rewrite !bind_run.
  destruct (c w1) as [[a|e] w1'], (c w2) as [r2 w2']; simpl in *; subst r2.
  - destruct (Hk a W1 HW eq_refl HQ1 Hs) as (Hr' & W' & HW' & Hs' & HQ).
    split; [done|]. exists W'. split; [set_solver|done].
  - split; [done|]. exists W1. split; [done|]. split; [done|].
    by eapply He.
Qed.

Lemma step_conseq {A} W (c : M A) w1 w2
    (Q Q' : result A → gset string → Prop) :
  steps_together W c w1 w2 Q →
  (∀ r W', W ⊆ W' → Q r W' → Q' r W') →
  steps_together W c w1 w2 Q'.
Proof.
  intros (Hr & W' & HW & Hs & HQ) Himp. split; [done|].
  exists W'. split; [done|]. split; [done|]. by apply Himp.
Qed.

Lemma step_try_except {A} W (c : M A) (h : exn → M A) w1 w2
    (Q1 Q : result A → gset string → Prop) :
  steps_together W c w1 w2 Q1 →
  (∀ a W1, W ⊆ W1 → Q1 (Ok a) W1 → Q (Ok a) W1) →
  (∀ e W1, W ⊆ W1 → synced W1 (c w1).2 (c w2).2 →
     steps_together W1 (h e) (c w1).2 (c w2).2 Q) →
  steps_together W (try_except c h) w1 w2 Q.
Proof.
  intros (Hr & W1 & HW & Hs & HQ1) Hok Hh.
  unfold steps_together, try_except.
  destruct (c w1) as [[a|e] w1'], (c w2) as [r2 w2']; simpl in *; subst r2.
  - split; [done|]. exists W1. split; [done|]. split; [done|].
    by apply Hok.
  - destruct (Hh e W1 HW Hs) as (Hr' & W' & HW' & Hs' & HQ).
    split; [done|]. exists W'. split; [set_solver|done].
Qed.

(** A loop whose body brings about [P x], a fact on the written paths
    that stays true when more is written, brings it about for every
    element once it has run to its end. *)
Lemma step_for_each {A B} (body : A → B → M A)
    (P : B → gset string → Prop) l :
  (∀ x W W', W ⊆ W' → P x W → P x W') →
  (∀ acc x W w1 w2, x ∈ l → synced W w1 w2 →
     steps_together W (body acc x) w1 w2 (λ _ W', P x W')) →
  ∀ acc W w1 w2, synced W w1 w2 →
    steps_together W (for_each body acc l) w1 w2
      (λ r W', is_ok r = true → ∀ x, x ∈ l → P x W').
Proof.
  intros Hmono. induction l as [|x l IH]; intros Hbody acc W w1 w2 Hs.
  - apply step_ret; [done|]. intros _ y Hy. by apply elem_of_nil in Hy.
  - simpl. eapply step_bind.
    + apply Hbody; [left|done].
    + intros acc' W1 HW Hacc HP Hs1. simpl in HP.
      eapply step_conseq.
      * apply IH; [|exact Hs1]. intros ? ? ? ? ? ? ?.
        apply Hbody; [by right|done].
      * intros r W' HW' Hl Hr y Hy. simpl in *.
        apply elem_of_cons in Hy as [->|Hy]; [|by apply Hl].
        by eapply Hmono.
    + intros e W1 _ _ _. simpl. done.
Qed.

(** *** Input paths are outside the build directory *)

Lemma not_under_build_head c s : c ≠ "b"%char → ¬ under_build (String c s).
Proof.
  intros Hc [Heq|Hsw]; [congruence|].
  simpl in Hsw. rewrite bool_decide_eq_false_2 in Hsw by congruence. done.
Qed.

Lemma startswith_head c q p :
  Py.startswith (String c q) p = true → ∃ s, p = String c s.
Proof.
  destruct p as [|d s]; simpl; [done|].
  intros [Hd _]%andb_prop. apply bool_decide_eq_true in Hd as ->. eauto.
Qed.

Lemma os_path_join_head c a b :
  Py.startswith "/" b = false →
  ∃ s, os_path_join (String c a) b = String c s.
Proof.
  intros Hb. rewrite os_path_join_relative by done. unfold join_prefix.
  destruct (_ || _); rewrite !app_cons; eauto.
Qed.

Lemma terminal_path_outside direction :
  ¬ under_build (terminal_path_of direction).
Proof.
  unfold terminal_path_of.
  destruct (Py.startswith "/" direction) eqn:Hd.
  - rewrite (os_path_join_absolute _ direction) by done.
    apply (startswith_head "/" "") in Hd as [s ->].
    destruct (os_path_join_head "/" s "terminal.txt") as [s' ->]; [done|].
    by apply not_under_build_head.
  - destruct (os_path_join_head "t" "otal_compat_output" direction Hd)
      as [s Hs].
    change (String "t" "otal_compat_output") with "total_compat_output" in Hs.
    rewrite Hs.
    destruct (os_path_join_head "t" s "terminal.txt") as [s' ->]; [done|].
    by apply not_under_build_head.
Qed.

Lemma below_outside c src p :
  c ≠ "b"%char →
  Py.startswith (String c src +:+ "/") p = true → ¬ under_build p.
Proof.
  intros Hc Hp. rewrite app_cons in Hp.
  apply startswith_head in Hp as [s ->]. by apply not_under_build_head.
Qed.

(** *** Copying a tree *)

Lemma subtree_ext src (f1 f2 : gmap string node) :
  (∀ p, Py.startswith (src +:+ "/") p = true → f1 !! p = f2 !! p) →
  subtree src f1 = subtree src f2.
Proof.
  intros Hext. unfold subtree. apply map_eq. intros p.
  rewrite !map_lookup_filter. simpl.
  destruct (Py.startswith (src +:+ "/") p) eqn:Hp.
  - by rewrite (Hext p Hp).
  - destruct (f1 !! p), (f2 !! p); simpl; repeat case_guard; congruence.
Qed.

Lemma subtree_synced W src w1 w2 :
  synced W w1 w2 →
  (∀ p, Py.startswith (src +:+ "/") p = true → ¬ under_build p) →
  subtree src (fs w1) = subtree src (fs w2).
Proof.
  intros Hs Hout. apply subtree_ext. intros p Hp.
  by rewrite (synced_input _ _ _ _ Hs (Hout p Hp)).
Qed.

Lemma mkdir_frame p q w :
  p ≠ q → fs (mkdir_exist_ok p w).2 !! q = fs w !! q.
Proof.
  intros Hne. unfold mkdir_exist_ok.
  destruct (fs w !! p) as [[]|]; simpl; [done..|].
  by rewrite lookup_insert_ne.
Qed.

Lemma copytree_frame src dst q w :
  q ≠ dst → Py.startswith (dst +:+ "/") q = false →
  fs (copytree src dst w).2 !! q = fs w !! q.
Proof.
  intros Hne Hq. unfold copytree.
  destruct (fs w !! src) as [[]|]; simpl; [|done..].
  pose proof (mkdir_frame dst q w (not_eq_sym Hne)) as Hm.
  destruct (mkdir_exist_ok dst w) as [[[]|e] w1]; simpl in *; [|done].
  set (copied := filter _ _).
  assert ((list_to_map copied : gmap string node) !! q = None) as Hnone.
  { apply not_elem_of_list_to_map_1. intros Hin.
    apply list_elem_of_fmap in Hin as ([q' n] & -> & Hin).
    subst copied. apply list_elem_of_filter in Hin as [_ Hin].
    unfold copytree_entries in Hin.
    apply list_elem_of_fmap in Hin as ([p n'] & Heq & _).
    simpl in *. injection Heq as -> _. unfold relocate in Hq.
    rewrite <- app_assoc_str, startswith_app in Hq. done. }
  destruct (decide _); simpl; by rewrite lookup_union_r.
Qed.

Lemma synced_union W w1 w2 (m : gmap string node) :
  synced W w1 w2 →
  synced (dom m ∪ W) (World (m ∪ fs w1) (stdout w1))
                     (World (m ∪ fs w2) (stdout w2)).
Proof.
  intros [Hout Hs]. split; [done|]. intros q. simpl.
  destruct (m !! q) as [n|] eqn:Hq.
  - left. by rewrite !(lookup_union_Some_l _ _ _ n).
  - rewrite !lookup_union_r by done.
    destruct (Hs q) as [Heq|(HqW & H1 & H2)]; [by left|].
    right. split; [|done]. apply not_elem_of_dom in Hq. set_solver.
Qed.

Lemma step_copytree W src dst w1 w2 :
  synced W w1 w2 →
  ¬ under_build src →
  (∀ p, Py.startswith (src +:+ "/") p = true → ¬ under_build p) →
  dst ∈ output_dirs →
  steps_together W (copytree src dst) w1 w2
    (λ r W', r = Ok () →
             ∀ q, q ∈ (copytree_entries src dst (fs w1)).*1 → q ∈ W').
Proof.
  intros Hs Hsrc Hbelow Hdst. unfold steps_together, copytree.
  rewrite (synced_input _ _ _ _ Hs Hsrc).
  unfold copytree_entries. rewrite (subtree_synced _ _ _ _ Hs Hbelow).
  set (entries := prod_map (relocate src dst) id
                    <$> map_to_list (subtree src (fs w2))).
  destruct (fs w2 !! src) as [[]|]; simpl;
    try (split; [done|]; exists W; by split; [|split]).
  destruct (step_mkdir W dst w1 w2 Hs Hdst) as (Hr & W1 & HW & Hs1 & _).
  destruct (mkdir_exist_ok dst w1) as [[[]|e] w1'],
           (mkdir_exist_ok dst w2) as [r2 w2']; simpl in *; subst r2.
  - set (copied := filter (λ e, e.2 ≠ Unreadable) entries).
    pose proof (synced_union _ _ _ (list_to_map copied) Hs1) as Hs2.
    destruct (decide (Forall (λ e, e.2 ≠ Unreadable) entries)) as [Hall|Hall];
      simpl; (split; [done|]);
      exists (dom (list_to_map copied : gmap string node) ∪ W1);
      (split; [set_solver|]); (split; [done|]); [|done].
    intros _ q Hq. apply elem_of_union. left.
    rewrite dom_list_to_map_L. apply elem_of_list_to_set.
    subst copied. by rewrite filter_all.
  - split; [done|]. exists W1. by split; [|split].
Qed.

(** *** The readers and the locator *)

Lemma synced_print W w1 w2 l :
  synced W w1 w2 →
  synced W (World (fs w1) (stdout w1 ++ l)) (World (fs w2) (stdout w2 ++ l)).
Proof. intros [Hout Hs]. split; [simpl; by rewrite Hout|done]. Qed.

Lemma print_ret {A} s (a : A) w :
  (print s;; mret a) w = (Ok a, World (fs w) (stdout w ++ [s])).
Proof. reflexivity. Qed.

Lemma step_read_table {A} W file_path note
    (step : A → gmap string (option string) → A * option exn) init w1 w2 :
  synced W w1 w2 → ¬ under_build file_path →
  steps_together W (read_table file_path note step init) w1 w2 (λ _ _, True).
Proof.
  intros Hs Hp. unfold steps_together, read_table, read_text.
  rewrite (synced_input _ _ _ _ Hs Hp).
  destruct (fs w2 !! file_path) as [[| text |]|]; rewrite ?print_ret; simpl.
  - split; [done|]. exists W. split; [done|]. split; [|done].
    by apply synced_print.
  - destruct (rows_loop step (DictReader text) init) as [acc [e|]];
      rewrite ?print_ret; simpl.
    + split; [done|]. exists W. split; [done|]. split; [|done].
      by apply synced_print.
    + split; [done|]. exists W. by split; [|split].
  - split; [done|]. exists W. split; [done|]. split; [|done].
    by apply synced_print.
  - split; [done|]. exists W. split; [done|]. split; [|done].
    by apply synced_print.
Qed.

Lemma step_probe_direction W extension failed_ext acc direction w1 w2 :
  synced W w1 w2 →
  steps_together W (probe_direction extension failed_ext acc direction)
                 w1 w2 (λ _ _, True).
Proof.
  intros Hs. unfold probe_direction.
  pose proof (terminal_path_outside direction) as Hout.
  eapply step_bind; [by apply (step_exists _ _ _ _ (λ _ _, True))| |done].
  intros found W1 _ _ _ Hs1. destruct found; [|by apply step_ret].
  eapply (step_try_except _ _ _ _ _ (λ _ _, True)); [|done|].
  - eapply step_bind;
      [by apply (step_read_text _ _ _ _ (λ _ _, True))| |done].
    intros text W2 _ _ _ Hs2.
    destruct (Py.startswith _ _); by apply step_ret.
  - intros e W2 _ Hs2.
    eapply step_bind; [by apply (step_print _ _ _ _ (λ _ _, True))| |done].
    intros _ W3 _ _ _ Hs3. by apply step_ret.
Qed.

Lemma step_get_terminal_outputs W extension failed w1 w2 :
  synced W w1 w2 →
  steps_together W (get_terminal_outputs extension failed) w1 w2 (λ _ _, True).
Proof.
  intros Hs. unfold get_terminal_outputs.
  eapply step_bind; [| |done].
  - apply (step_for_each _ (λ _ _, True)); [done| |exact Hs].
    intros acc failed_ext W1 v1 v2 _ Hv. unfold probe_pair.
    eapply step_conseq.
    + apply (step_for_each _ (λ _ _, True)); [done| |exact Hv].
      intros acc' direction W2 u1 u2 _ Hu.
      by apply step_probe_direction.
    + done.
  - intros m W1 _ _ _ Hs1. by apply step_ret.
Qed.

(** *** Writing the pages *)

Lemma step_write_rendered W path t ctx w1 w2 :
  synced W w1 w2 →
  steps_together W (write_rendered path t ctx) w1 w2 (λ _ W', path ∈ W').
Proof.
  intros Hs. unfold write_rendered.
  eapply step_bind.
  - apply (step_write_text _ _ _ _ _ (λ _ W', path ∈ W')); [done|].
    intros W' HW'. set_solver.
  - intros [] W1 HW _ Hin Hs1.
    eapply step_bind.
    + by apply (step_lift _ _ _ _ (λ _ W', path ∈ W')).
    + intros text W2 HW2 _ _ Hs2.
      apply step_write_text; [done|]. intros W' HW'. set_solver.
    + done.
  - done.
Qed.

Lemma step_write_extension_page W T incl t extension w1 w2 :
  synced W w1 w2 →
  steps_together W (write_extension_page T "build" incl t () extension)
                 w1 w2 (λ _ W', page_path "build" extension ∈ W').
Proof.
  intros Hs. unfold write_extension_page.
  destruct (compatibility_data _ _ _) as [[rate failed] has].
  set (c := if has then _ else _).
  assert (never_raises c) as Hnr.
  { subst c. destruct has;
      [apply never_raises_get_terminal_outputs|apply never_raises_ret]. }
  eapply step_bind.
  - subst c. destruct has.
    + by apply step_get_terminal_outputs.
    + by apply (step_ret _ _ _ _ (λ _ _, True)).
  - intros outs W1 _ _ _ Hs1. by apply step_write_rendered.
  - intros e W1 _ He _. destruct (Hnr w1) as [a Ha]. congruence.
Qed.

Lemma step_pages_loop W T incl t l w1 w2 :
  synced W w1 w2 →
  steps_together W
    (for_each (write_extension_page T "build" incl t) () l) w1 w2
    (λ r W', is_ok r = true → ∀ x, x ∈ l → page_path "build" x ∈ W').
Proof.
  intros Hs.
  apply (step_for_each _ (λ x W', page_path "build" x ∈ W'));
    [set_solver| |done].
  intros [] x W1 v1 v2 _ Hv. by apply step_write_extension_page.
Qed.

(** *** The run *)

Lemma step_copy_if_present W src dst done missing w1 w2 :
  synced W w1 w2 →
  ¬ under_build src →
  (∀ p, Py.startswith (src +:+ "/") p = true → ¬ under_build p) →
  dst ∈ output_dirs →
  steps_together W (copy_if_present src dst done missing) w1 w2
    (λ r W', r = Ok () → is_Some (fs w1 !! src) →
             ∀ q, q ∈ (copytree_entries src dst (fs w1)).*1 → q ∈ W').
Proof.
  intros Hs Hsrc Hbelow Hdst. unfold copy_if_present.
  eapply step_bind; [by apply (step_exists _ _ _ _ (λ _ _, True))| |done].
  intros found W1 HW Hfound _ Hs1. simpl in Hfound, Hs1.
  injection Hfound as <-.
  destruct (bool_decide_reflect (is_Some (fs w1 !! src))) as [Hyes|Hno].
  - eapply step_bind.
    + by apply step_copytree.
    + intros [] W2 HW2 _ Hcopied Hs2. simpl in Hcopied.
      apply step_print; [done|]. intros _ _. by apply Hcopied.
    + done.
  - apply step_print; done.
Qed.

Lemma reads_only_read_tables csv_file_path :
  reads_only (read_tables csv_file_path).
Proof.
  unfold read_tables.
  apply reads_only_bind; [apply reads_only_read_text|intros text].
  apply reads_only_bind; [apply reads_only_read_table|intros sc].
  apply reads_only_bind; [apply reads_only_read_table|intros ds].
  apply reads_only_bind; [apply reads_only_read_table|intros [inf all]].
  apply reads_only_bind; [apply reads_only_read_table|intros ms].
  apply reads_only_bind; [apply reads_only_lift|intros [exts m]].
  apply reads_only_ret.
Qed.

Lemma step_read_tables W csv_file_path w1 w2 :
  synced W w1 w2 → ¬ under_build csv_file_path →
  steps_together W (read_tables csv_file_path) w1 w2 (λ _ _, True).
Proof.
  intros Hs Hcsv. unfold read_tables.
  eapply step_bind;
    [by apply (step_read_text _ _ _ _ (λ _ _, True))| |done].
  intros text W1 _ _ _ Hs1.
  eapply step_bind;
    [apply step_read_table; [done|by apply not_under_build_head]| |done].
  intros sc W2 _ _ _ Hs2.
  eapply step_bind;
    [apply step_read_table; [done|by apply not_under_build_head]| |done].
  intros ds W3 _ _ _ Hs3.
  eapply step_bind;
    [apply step_read_table; [done|by apply not_under_build_head]| |done].
  intros [inf all] W4 _ _ _ Hs4.
  eapply step_bind;
    [apply step_read_table; [done|by apply not_under_build_head]| |done].
  intros ms W5 _ _ _ Hs5.
  eapply step_bind; [by apply (step_lift _ _ _ _ (λ _ _, True))| |done].
  intros [exts m] W6 _ _ _ Hs6. by apply step_ret.
Qed.

Lemma entries_ext src dst (f1 f2 : gmap string node) :
  (∀ p, Py.startswith (src +:+ "/") p = true → f1 !! p = f2 !! p) →
  copytree_entries src dst f1 = copytree_entries src dst f2.
Proof.
  intros Hext. unfold copytree_entries. by rewrite (subtree_ext src f1 f2).
Qed.

Lemma startswith_other_head c s d t q :
  c ≠ d → Py.startswith (String c s) q = true →
  q ≠ String d t ∧ Py.startswith (String d t) q = false.
Proof.
  intros Hne Hq. apply startswith_head in Hq as [r ->]. split; [congruence|].
  simpl. by rewrite bool_decide_eq_false_2 by congruence.
Qed.

Lemma copy_if_present_frame src dst done missing q w :
  q ≠ dst → Py.startswith (dst +:+ "/") q = false →
  fs (copy_if_present src dst done missing w).2 !! q = fs w !! q.
Proof.
  intros Hne Hq. unfold copy_if_present. rewrite bind_run. simpl.
  destruct (bool_decide _).
  - rewrite bind_run.
    pose proof (copytree_frame src dst q w Hne Hq) as Hc.
    by destruct (copytree src dst w) as [[[]|e] w'].
  - done.
Qed.
Lemma step_report W T w1 w2 (Q : result () → gset string → Prop) :
  synced W w1 w2 →
  (∀ r W', W ⊆ W' → Q r W') →
  steps_together W
    (print ("Website generated successfully in '" +:+ "build"
            +:+ "' directory!");;
     print ("Generated " +:+ pretty (length (all_extensions T) + 2)
            +:+ " HTML files:");;
     print "- index.html (homepage)";;
     print "- results.html (results overview)";;
     for_each (λ _ ext, print ("- " +:+ ext +:+ ".html")) ()
              (all_extensions T)) w1 w2 Q.
Proof.
  intros Hs HQ.
  do 4 (eapply step_bind;
        [by apply (step_print _ _ _ _ (λ _ _, True))| |done];
        intros [] ? ? _ _ ?).
  eapply step_conseq.
  - apply (step_for_each _ (λ _ _, True)); [done| |done].
    intros [] x W5 v1 v2 _ Hv. by apply step_print.
  - intros r W' HW' _. apply HQ. set_solver.
Qed.

Lemma step_generate_pages W T incl w1 w2 :
  synced W w1 w2 →
  steps_together W (generate_pages T "build" incl) w1 w2
                 (outputs_written T w1).
Proof.
  intros Hs. unfold generate_pages.
  change (os_path_join "build" "css") with "build/css".
  change (os_path_join "build" "portraits") with "build/portraits".
  assert ("build" ∈ output_dirs) as Hd1 by (left).
  assert ("build/css" ∈ output_dirs) as Hd2 by (right; left).
  assert ("build/portraits" ∈ output_dirs) as Hd3 by (right; right; left).
  eapply step_bind; [by apply step_mkdir| |done].
  intros [] W1 HW1 _ _ Hs1.
  eapply step_bind; [by apply step_mkdir| |done].
  intros [] W2 HW2 _ _ Hs2.
  set (v1 := (mkdir_exist_ok "build/css" (mkdir_exist_ok "build" w1).2).2)
    in *.
  assert (∀ q c s, c ≠ "b"%char → Py.startswith (String c s) q = true →
                   fs v1 !! q = fs w1 !! q) as Hv1.
  { intros q c s Hc Hq. subst v1.
    destruct (startswith_other_head c s "b" "uild" q Hc Hq) as [Hq1 _].
    destruct (startswith_other_head c s "b" "uild/css" q Hc Hq) as [Hq2 _].
    rewrite (mkdir_frame "build/css" q) by (intros <-; by apply Hq2).
    apply mkdir_frame. intros <-. by apply Hq1. }
  eapply step_bind.
  { apply step_copy_if_present; [done|by apply not_under_build_head| |done].
    intros p. by apply (below_outside "l" "ayout/css"). }
  2: done.
  intros [] W3 HW3 _ Hcss Hs3.
  set (v2 := (copy_if_present "layout/css" "build/css" _ _ v1).2) in *.
  assert (∀ q c s, c ≠ "b"%char → Py.startswith (String c s) q = true →
                   fs v2 !! q = fs w1 !! q) as Hv2.
  { intros q c s Hc Hq. subst v2.
    destruct (startswith_other_head c s "b" "uild/css" q Hc Hq) as [Hq1 _].
    destruct (startswith_other_head c s "b" "uild/css/" q Hc Hq) as [_ Hq2].
    rewrite copy_if_present_frame; [by eapply Hv1|exact Hq1|exact Hq2]. }
  eapply step_bind.
  { apply step_copy_if_present; [done|by apply not_under_build_head| |done].
    intros p. by apply (below_outside "p" "ortraits"). }
  2: done.
  intros [] W4 HW4 _ Hport Hs4.
  eapply step_bind; [by apply (step_lift _ _ _ _ (λ _ _, True))| |done].
  intros ti W5 HW5 _ _ Hs5.
  eapply step_bind; [by apply step_write_rendered| |done].
  intros [] W6 HW6 _ Hindex Hs6.
  eapply step_bind; [by apply (step_lift _ _ _ _ (λ _ _, True))| |done].
  intros tr W7 HW7 _ _ Hs7.
  eapply step_bind; [by apply step_write_rendered| |done].
  intros [] W8 HW8 _ Hresults Hs8.
  eapply step_bind; [by apply (step_lift _ _ _ _ (λ _ _, True))| |done].
  intros te W9 HW9 _ _ Hs9.
  eapply step_bind; [by apply step_pages_loop| |done].
  intros [] W10 HW10 _ Hpages Hs10.
  apply step_report; [done|].
  intros r W' HW' _.
  split; [by apply HW', HW10, HW9, HW8, HW7, Hindex|].
  split; [by apply HW', HW10, HW9, Hresults|].
  split; [intros x Hx; apply HW'; by apply Hpages|].
  split.
  - intros Hdir q Hq.
    apply HW', HW10, HW9, HW8, HW7, HW6, HW5, HW4.
    apply Hcss; [done| |].
    + by rewrite (Hv1 "layout/css" "l"%char "").
    + rewrite (entries_ext _ _ (fs v1) (fs w1)); [exact Hq|].
      intros p Hp. by apply (Hv1 p "l"%char "ayout/css/").
  - intros Hdir q Hq.
    apply HW', HW10, HW9, HW8, HW7, HW6, HW5.
    apply Hport; [done| |].
    + by rewrite (Hv2 "portraits" "p"%char "").
    + rewrite (entries_ext _ _ (fs v2) (fs w1)); [exact Hq|].
      intros p Hp. by apply (Hv2 p "p"%char "ortraits/").
Qed.

Lemma outputs_written_fs T w w' r W :
  fs w' = fs w → outputs_written T w' r W → outputs_written T w r W.
Proof. unfold outputs_written. by intros ->. Qed.

Lemma step_generate_website W csv_file_path incl w1 w2 :
  synced W w1 w2 → ¬ under_build csv_file_path →
  steps_together W (generate_website csv_file_path "build" incl) w1 w2
    (λ r W', is_Some (fs w1 !! "layout") →
             ∀ T, (read_tables csv_file_path w1).1 = Ok T →
                  outputs_written T w1 r W').
Proof.
  intros Hs Hcsv. unfold generate_website.
  eapply step_bind;
    [apply (step_exists _ _ _ _ (λ _ _, True));
       [done|by apply not_under_build_head|done]| |done].
  intros found W1 HW1 Hfound _ Hs1. simpl in Hfound, Hs1.
  injection Hfound as <-.
  destruct (bool_decide_reflect (is_Some (fs w1 !! "layout"))) as [Hyes|Hno].
  - eapply step_bind; [by apply step_read_tables| |].
    + intros T W2 HW2 HT _ Hs2.
      eapply step_conseq; [by apply step_generate_pages|].
      intros r W' HW' Hout _ T' HT'.
      change (os_path_exists "layout" w1).2 with w1 in *.
      assert (T' = T) as -> by congruence.
      eapply outputs_written_fs; [|exact Hout].
      apply reads_only_read_tables.
    + intros e W2 _ _ _ _ T _ [=].
  - eapply step_conseq.
    + apply (step_for_each _ (λ _ _, True)); [done| |done].
      intros [] x W2 v1 v2 _ Hv. by apply step_print.
    + intros r W' _ _ Hlayout. done.
Qed.

End Determinism.


Lemma demo_same_inputs : same_inputs demo_world demo_world_rerun.
Proof.
  split; [done|]. intros p Hp. unfold demo_world_rerun. simpl.
  rewrite !lookup_insert_ne; [done|..];
    intros <-; apply Hp; (by left) || (by right).
Qed.

Lemma demo_dirs_usable p :
  p ∈ output_dirs → usable demo_world p ∧ usable demo_world_rerun p.
Proof.
  intros Hp. unfold output_dirs in Hp.
  repeat (apply elem_of_cons in Hp as [->|Hp]);
    [| |by split; left|by apply elem_of_nil in Hp];
    (split; [by left|by right]).
Qed.


(** On these two worlds, the pages are the same and the stale page of the
    earlier run is left where it was. *)
Example demo_rerun_pages :
  let ra := generate_website (H := demo) "csvs/compatibility.csv" "build"
              false demo_world in
  let rb := generate_website (H := demo) "csvs/compatibility.csv" "build"
              false demo_world_rerun in
  fs ra.2 !! "build/A.html" = Some (File "extension.html:A:B,C")
  ∧ fs rb.2 !! "build/A.html" = Some (File "extension.html:A:B,C")
  ∧ fs rb.2 !! "build/index.html" = Some (File "index.html:home")
  ∧ fs ra.2 !! "build/css/custom.css" = Some (File "body{}")
  ∧ fs rb.2 !! "build/css/custom.css" = Some (File "body{}")
  ∧ fs ra.2 !! "build/old.html" = None
  ∧ fs rb.2 !! "build/old.html" = Some (File "stale").
Proof. by vm_compute. Qed.

(** * Further properties of the script *)

(** ** The aggregator: bounds and invariances *)

Lemma filter_length_le {A} (P Q : A → Prop)
    `{∀ x, Decision (P x)} `{∀ x, Decision (Q x)} (l : list A) :
  (∀ x, Q x → P x) → length (filter Q l) ≤ length (filter P l).
Proof.
  intros HQP. induction l as [|x l IH]; [done|].
  rewrite !filter_cons. destruct (decide (Q x)) as [HQ|HQ].
  - rewrite decide_True by auto. simpl. lia.
  - destruct (decide (P x)); simpl; lia.
Qed.

Lemma filter_ext_in {A} (P Q : A → Prop)
    `{∀ x, Decision (P x)} `{∀ x, Decision (Q x)} (l : list A) :
  (∀ x, x ∈ l → (P x ↔ Q x)) → filter P l = filter Q l.
Proof.
  induction l as [|x l IH]; intros Hext; [done|].
  rewrite !filter_cons.
  rewrite IH by (intros y Hy; apply Hext; by right).
  destruct (decide (P x)) as [HP|HP].
  - rewrite decide_True; [done|]. apply Hext; [left|done].
  - rewrite decide_False; [done|]. intros HQ. apply HP, Hext; [left|done].
Qed.

(** No more failures than tests. *)
Lemma failures_le_total_tests E exts m :
  failures (run_tally E exts m) ≤ total_tests (run_tally E exts m).
Proof.
  destruct (run_tally_spec E exts m) as (-> & -> & _).
  unfold spec_tested, spec_failed, spec_row_tested, spec_column_tested,
    spec_row_failed, spec_column_failed.
  pose proof (filter_length_le (λ O, O ≠ E ∧ is_Some (cell m E O))
                (λ O, O ≠ E ∧ cell m E O = Some "no") exts) as H1.
  pose proof (filter_length_le (λ O, O ≠ E ∧ is_Some (cell m O E))
                (λ O, O ≠ E ∧ cell m O E = Some "no") exts) as H2.
  assert (∀ o : option string, o = Some "no" → is_Some o) as Hsome
    by (intros o ->; by eexists).
  specialize (H1 ltac:(intros x [? ?]; auto)).
  specialize (H2 ltac:(intros x [? ?]; auto)). lia.
Qed.

Lemma Qc_of_nat_le n k : n ≤ k → (Qc_of_nat n <= Qc_of_nat k)%Qc.
Proof.
  intros Hle. unfold Qcle, Qc_of_nat. simpl. rewrite !Qred_correct.
  rewrite <- Zle_Qle. lia.
Qed.

Lemma Qc_of_nat_pos n : 0 < n → (Qc_of_nat 0 < Qc_of_nat n)%Qc.
Proof.
  intros Hlt. unfold Qclt, Qc_of_nat. simpl. rewrite !Qred_correct.
  rewrite <- Zlt_Qlt. lia.
Qed.

Lemma Qc_of_nat_inj n k : Qc_of_nat n = Qc_of_nat k → n = k.
Proof.
  unfold Qc_of_nat. intros Heq%Q2Qc_eq_iff.
  unfold Qeq in Heq. simpl in Heq. lia.
Qed.

Lemma Qc_of_nat_0 : Qc_of_nat 0 = 0%Qc.
Proof. by apply Qc_is_canon. Qed.

Lemma Qc_of_nat_1 : Qc_of_nat 1 = 1%Qc.
Proof. by apply Qc_is_canon. Qed.

(** The quotient of two counters, the first no larger than the second. *)
Lemma Qc_ratio_bounds f t :
  f ≤ t → 0 < t →
  (0 <= Qc_of_nat f / Qc_of_nat t)%Qc ∧ (Qc_of_nat f / Qc_of_nat t <= 1)%Qc.
Proof.
  intros Hle Hpos.
  pose proof (Qc_of_nat_pos t Hpos) as Ht. rewrite Qc_of_nat_0 in Ht.
  assert (Qc_of_nat t ≠ 0%Qc) as Hne
    by (intros Heq; rewrite Heq in Ht; by apply (Qclt_not_eq _ _ Ht)).
  assert ((Qc_of_nat f / Qc_of_nat t * Qc_of_nat t)%Qc = Qc_of_nat f) as Hdiv
    by (rewrite Qcmult_comm; by apply Qcmult_div_r).
  split.
  - apply (Qcmult_lt_0_le_reg_r _ _ (Qc_of_nat t) Ht).
    rewrite Hdiv, Qcmult_0_l, <- Qc_of_nat_0. apply Qc_of_nat_le. lia.
  - apply (Qcmult_lt_0_le_reg_r _ _ (Qc_of_nat t) Ht).
    rewrite Hdiv, Qcmult_1_l. by apply Qc_of_nat_le.
Qed.


Lemma sorted_nil_iff l : Py.sorted l = [] ↔ l = [].
Proof.
  split; [|by intros ->].
  intros Hs. apply Permutation_nil_r. rewrite <- Hs.
  symmetry. apply sorted_Permutation.
Qed.

Lemma filter_nil_length {A} (P : A → Prop) `{∀ x, Decision (P x)}
    (l : list A) :
  length (filter P l) = 0 ↔ filter P l = [].
Proof. by destruct (filter P l). Qed.

(** No failure was counted exactly when the failing set is empty. *)
Lemma failures_zero_iff E exts m :
  failures (run_tally E exts m) = 0
  ↔ failed_extensions (run_tally E exts m) = ∅.
Proof.
  destruct (run_tally_spec E exts m) as (_ & -> & ->).
  unfold spec_failed, spec_failing_set.
  destruct (spec_row_failed E exts m) as [|x l] eqn:Hr;
    destruct (spec_column_failed E exts m) as [|y k] eqn:Hc; simpl.
  - done.
  - split; [lia|]. intros Hs. assert (y ∈ (∅ : gset string)) as Hy
      by (rewrite <- Hs; set_solver). by apply not_elem_of_empty in Hy.
  - split; [lia|]. intros Hs. assert (x ∈ (∅ : gset string)) as Hx
      by (rewrite <- Hs; set_solver). by apply not_elem_of_empty in Hx.
  - split; [lia|]. intros Hs. assert (x ∈ (∅ : gset string)) as Hx
      by (rewrite <- Hs; set_solver). by apply not_elem_of_empty in Hx.
Qed.


(** The order in which the known names are listed does not matter. *)
Theorem aggregator_order_irrelevant (E : string) (exts exts' : list string)
    (m : gmap string (gmap string string)) :
  exts ≡ₚ exts' →
  calculate_failure_rate_and_failed_extensions E exts m
  = calculate_failure_rate_and_failed_extensions E exts' m.
Proof.
  intros Hperm.
  assert (run_tally E exts m = run_tally E exts' m) as Heq.
  { destruct (run_tally_spec E exts m) as (Ht & Hf & Hs).
    destruct (run_tally_spec E exts' m) as (Ht' & Hf' & Hs').
    destruct (run_tally E exts m) as [t f s],
             (run_tally E exts' m) as [t' f' s']; simpl in *.
    subst. unfold spec_tested, spec_failed, spec_failing_set,
      spec_row_tested, spec_column_tested, spec_row_failed,
      spec_column_failed.
    f_equal; [by rewrite Hperm..|].
    apply set_eq. intros x. rewrite !elem_of_list_to_set.
    by rewrite Hperm. }
  unfold calculate_failure_rate_and_failed_extensions. by rewrite Heq.
Qed.

Lemma aggregator_order_irrelevant_witness :
  calculate_failure_rate_and_failed_extensions
    "A" ["A"; "B"; "C"] scenario_matrix
  = calculate_failure_rate_and_failed_extensions
      "A" ["C"; "A"; "B"] scenario_matrix.
Proof.
  apply aggregator_order_irrelevant.
  change ["C"; "A"; "B"] with (["C"] ++ ["A"; "B"]).
  change ["A"; "B"; "C"] with (["A"; "B"] ++ ["C"]).
  apply Permutation_app_comm.
Defined.

(** The result for [E] depends on the matrix only through the cells
    between [E] and the other known names: the diagonal cell, and every row
    or column of a name that is not listed, are never read. *)
Theorem aggregator_reads_only_known_pairs (E : string) (exts : list string)
    (m m' : gmap string (gmap string string)) :
  (∀ O, O ∈ exts → O ≠ E →
     cell m E O = cell m' E O ∧ cell m O E = cell m' O E) →
  calculate_failure_rate_and_failed_extensions E exts m
  = calculate_failure_rate_and_failed_extensions E exts m'.
Proof.
  intros Hcells.
  assert (run_tally E exts m = run_tally E exts m') as Heq.
  { destruct (run_tally_spec E exts m) as (Ht & Hf & Hs).
    destruct (run_tally_spec E exts m') as (Ht' & Hf' & Hs').
    destruct (run_tally E exts m) as [t f s],
             (run_tally E exts m') as [t' f' s']; simpl in *.
    subst. unfold spec_tested, spec_failed, spec_failing_set,
      spec_row_tested, spec_column_tested, spec_row_failed,
      spec_column_failed.
    rewrite (filter_ext_in (λ O, O ≠ E ∧ is_Some (cell m E O))
               (λ O, O ≠ E ∧ is_Some (cell m' E O)))
      by (intros O HO; split; intros [Hne Hc]; split; try done;
          destruct (Hcells O HO Hne); congruence).
    rewrite (filter_ext_in (λ O, O ≠ E ∧ is_Some (cell m O E))
               (λ O, O ≠ E ∧ is_Some (cell m' O E)))
      by (intros O HO; split; intros [Hne Hc]; split; try done;
          destruct (Hcells O HO Hne); congruence).
    rewrite (filter_ext_in (λ O, O ≠ E ∧ cell m E O = Some "no")
               (λ O, O ≠ E ∧ cell m' E O = Some "no"))
      by (intros O HO; split; intros [Hne Hc]; split; try done;
          destruct (Hcells O HO Hne); congruence).
    rewrite (filter_ext_in (λ O, O ≠ E ∧ cell m O E = Some "no")
               (λ O, O ≠ E ∧ cell m' O E = Some "no"))
      by (intros O HO; split; intros [Hne Hc]; split; try done;
          destruct (Hcells O HO Hne); congruence).
    done. }
  unfold calculate_failure_rate_and_failed_extensions. by rewrite Heq.
Qed.

(** The diagonal cell of [A] and the row of an unlisted name [Q] differ;
    the result for [A] is the same. *)
Lemma aggregator_reads_only_known_pairs_witness :
  calculate_failure_rate_and_failed_extensions
    "A" ["A"; "B"] {[ "A" := {[ "B" := "no" ]} ]}
  = calculate_failure_rate_and_failed_extensions
      "A" ["A"; "B"] {[ "A" := {[ "A" := "no"; "B" := "no" ]};
                        "Q" := {[ "A" := "no" ]} ]}.
Proof.
  apply aggregator_reads_only_known_pairs.
  intros O HO Hne.
  apply elem_of_cons in HO as [->|HO]; [done|].
  apply elem_of_cons in HO as [->|HO]; [|by apply elem_of_nil in HO].
  split; reflexivity.
Defined.

(** ** The matrix parser: edge cases *)

(** A table with no data line, be it empty, blank or a lone header, parses
    to the empty matrix: [lines[0]] exists even for empty content. *)
Theorem parse_csv_without_rows (csv : string) :
  (csv_data_lines csv = [] →
   parse_csv csv = Ok (csv_extensions csv, ∅))
  ∧ (Py.strip csv = "" → parse_csv csv = Ok ([], ∅)).
Proof.
  split.
  - intros Hnone. by rewrite parse_csv_unfold, Hnone.
  - intros Hblank. rewrite parse_csv_unfold.
    unfold csv_data_lines, csv_extensions, csv_lines. by rewrite Hblank.
Qed.

Lemma parse_csv_without_rows_witness :
  parse_csv ("  " +:+ newline +:+ " ") = Ok ([], ∅).
Proof.
  apply (proj2 (parse_csv_without_rows ("  " +:+ newline +:+ " "))).
  reflexivity.
Defined.

Lemma parse_rows_app exts l1 l2 m :
  parse_rows exts (l1 ++ l2) m
  = rbind (parse_rows exts l1 m) (parse_rows exts l2).
Proof.
  revert m. induction l1 as [|line l1 IH]; intros m; [done|].
  rewrite <- app_comm_cons, !parse_rows_cons.
  destruct (fill_row _ _ _ _) as [row|e]; simpl; [apply IH|done].
Qed.

(** The row recorded under a name is the one built by the last line that
    carries the name, from the row that the lines before it had built. *)
Lemma parse_rows_last exts l1 line l2 m :
  parse_rows exts (l1 ++ line :: l2) ∅ = Ok m →
  (∀ l, l ∈ l2 → row_name l ≠ row_name line) →
  ∃ m1 row,
    parse_rows exts l1 ∅ = Ok m1
    ∧ fill_row exts 0 (data_cells line) (default ∅ (m1 !! row_name line))
      = Ok row
    ∧ m !! row_name line = Some row.
Proof.
  intros Hp Hlast. rewrite parse_rows_app in Hp.
  destruct (parse_rows exts l1 ∅) as [m1|] eqn:H1; [|discriminate Hp].
  change (parse_rows exts (line :: l2) m1 = Ok m) in Hp.
  rewrite parse_rows_cons in Hp.
  destruct (fill_row _ _ _ _) as [row|] eqn:Hfill; simpl in Hp; [|done].
  exists m1, row. split; [done|]. split; [done|].
  rewrite (parse_rows_lookup_old _ _ _ _ _ Hp Hlast).
  apply lookup_insert_eq.
Qed.

(** Lines that carry the same name are merged: the last one decides the
    cells it has, and where it is shorter the cells of the lines before it
    stay. *)
Theorem parse_csv_rows_merge (csv : string)
    (m : gmap string (gmap string string)) (l1 l2 : list string)
    (line : string) :
  parse_csv csv = Ok (csv_extensions csv, m) →
  csv_data_lines csv = l1 ++ line :: l2 →
  (∀ l, l ∈ l2 → row_name l ≠ row_name line) →
  NoDup (csv_extensions csv) →
  (∀ j raw O,
     data_cells line !! j = Some raw → csv_extensions csv !! j = Some O →
     cell m (row_name line) O = Some (normalise raw))
  ∧ (∀ m1 O,
       parse_rows (csv_extensions csv) l1 ∅ = Ok m1 →
       (∀ j, j < length (data_cells line) →
             csv_extensions csv !! j ≠ Some O) →
       cell m (row_name line) O = cell m1 (row_name line) O).
Proof.
  intros Hp Hlines Hlast Hnd. rewrite parse_csv_unfold, Hlines in Hp.
  destruct (parse_rows _ _ _) as [m0|] eqn:Hrows; simpl in Hp; [|done].
  injection Hp as <-.
  destruct (parse_rows_last _ _ _ _ _ Hrows Hlast)
    as (m1 & row & H1 & Hfill & Hrow).
  unfold cell. rewrite Hrow. simpl. split.
  - intros j raw O Hraw HO.
    exact (fill_row_lookup_new _ 0 _ _ _ j raw O Hnd Hfill Hraw HO).
  - intros m1' O H1' Hout. assert (m1' = m1) as -> by congruence.
    rewrite (fill_row_lookup_old _ _ _ _ _ O Hfill) by exact Hout.
    by destruct (m1 !! row_name line).
Qed.

(** The second line for [A] decides the cell under [B]. *)
Lemma parse_csv_rows_merge_witness :
  cell (parsed_matrix merged_csv_text) "A" "B" = Some "yes".
Proof.
  apply (proj1 (parse_csv_rows_merge merged_csv_text
                  (parsed_matrix merged_csv_text)
                  ["A,,no,yes"] [] "A,,yes" eq_refl eq_refl
                  ltac:(intros l Hl; by apply elem_of_nil in Hl)
                  ltac:(apply (bool_decide_unpack _); by vm_compute))
           1 "yes" "B"); reflexivity.
Defined.

(** In a table of well-formed shape, a row shorter than the header leaves
    the cells it does not reach unrecorded. *)
Theorem parse_csv_short_row (csv : string)
    (m : gmap string (gmap string string)) (line : string) (j : nat)
    (O : string) :
  parse_csv csv = Ok (csv_extensions csv, m) →
  NoDup (csv_extensions csv) →
  NoDup (row_name <$> csv_data_lines csv) →
  line ∈ csv_data_lines csv →
  csv_extensions csv !! j = Some O →
  length (data_cells line) ≤ j →
  is_Some (m !! row_name line) ∧ cell m (row_name line) O = None.
Proof.
  intros Hp Hexts Hrows Hline HO Hshort. rewrite parse_csv_unfold in Hp.
  destruct (parse_rows _ _ _) as [m0|] eqn:Hrows_ok; simpl in Hp; [|done].
  injection Hp as <-.
  destruct (parse_rows_lookup_new _ _ _ _ line Hrows Hrows_ok Hline)
    as (row & Hrow & Hfill).
  split; [by eexists|]. unfold cell. rewrite Hrow. simpl.
  rewrite (fill_row_lookup_old _ _ _ _ _ O Hfill).
  - by rewrite lookup_empty.
  - intros i Hi Hi'. simpl in Hi'.
    pose proof (NoDup_lookup _ _ _ _ Hexts HO Hi'). lia.
Qed.

(** The second line for [A] does not reach the column [C]. *)
Lemma parse_csv_short_row_witness :
  is_Some (parsed_matrix short_row_csv_text !! "A")
  ∧ cell (parsed_matrix short_row_csv_text) "A" "C" = None.
Proof.
  apply (parse_csv_short_row short_row_csv_text
           (parsed_matrix short_row_csv_text) "A,,no" 2 "C").
  - reflexivity.
  - apply (bool_decide_unpack _). by vm_compute.
  - apply (bool_decide_unpack _). by vm_compute.
  - right. left.
  - reflexivity.
  - vm_compute. lia.
Defined.

(** ** The tabular readers on files that exist *)

Section ReaderExtras.
Context `{Collaborators}.

Lemma read_table_file {A} file_path note
    (step : A → gmap string (option string) → A * option exn) init w text :
  fs w !! file_path = Some (File text) →
  read_table file_path note step init w
  = match rows_loop step (DictReader text) init with
    | (acc, None) => (Ok acc, w)
    | (acc, Some e) =>
        (Ok acc, World (fs w) (stdout w ++ [reading_error file_path e]))
    end.
Proof.
  intros Hfile. unfold read_table, read_text. rewrite Hfile.
  by destruct (rows_loop _ _ _) as [acc [e|]].
Qed.

(** A loop invariant [P] of the rows read without an exception, and what
    it leaves, [Q], when the loop ends or stops on an exception. *)
Lemma rows_loop_inv {A} (P Q : A → Prop)
    (step : A → gmap string (option string) → A * option exn) rows init :
  P init →
  (∀ a, P a → Q a) →
  (∀ a row, row ∈ rows → P a →
     match step a row with
     | (a', None) => P a'
     | (a', Some _) => Q a'
     end) →
  Q (rows_loop step rows init).1.
Proof.
  intros Hinit HPQ. revert init Hinit.
  induction rows as [|row rows IH]; intros init Hinit Hstep; simpl.
  - by apply HPQ.
  - pose proof (Hstep init row ltac:(left) Hinit) as Hrow.
    destruct (step init row) as [acc' [e|]]; simpl; [done|].
    apply IH; [done|]. intros a r Hr. apply Hstep. by right.
Qed.

(** The same for what a reader returns, in every world: it returns, and
    [Q] holds of the result. *)
Lemma read_table_inv {A} (P Q : A → Prop) file_path note
    (step : A → gmap string (option string) → A * option exn) init w :
  P init →
  (∀ a, P a → Q a) →
  (∀ text a row, fs w !! file_path = Some (File text) →
     row ∈ DictReader text → P a →
     match step a row with
     | (a', None) => P a'
     | (a', Some _) => Q a'
     end) →
  ∃ acc, (read_table file_path note step init w).1 = Ok acc ∧ Q acc.
Proof.
  intros Hinit HPQ Hstep. unfold read_table, read_text.
  destruct (fs w !! file_path) as [[| text |]|] eqn:Hfile;
    try (exists init; split; [done|by apply HPQ]).
  pose proof (rows_loop_inv P Q step (DictReader text) init Hinit HPQ
                (λ a row, Hstep text a row eq_refl)) as Hloop.
  destruct (rows_loop _ _ _) as [a [e|]]; by exists a.
Qed.

Lemma rows_loop_app {A}
    (step : A → gmap string (option string) → A * option exn)
    rows1 rows2 init acc :
  rows_loop step rows1 init = (acc, None) →
  rows_loop step (rows1 ++ rows2) init = rows_loop step rows2 acc.
Proof.
  revert init. induction rows1 as [|row rows1 IH]; intros init; simpl.
  - by intros [= ->].
  - destruct (step init row) as [acc' [e|]]; [done|]. apply IH.
Qed.

End ReaderExtras.

(** *** Tables of two fields: source code links and descriptions *)

Section TwoFields.
Context (key : string)
        (step : gmap string string → gmap string (option string)
                → gmap string string * option exn).
Hypothesis step_shape : ∀ acc row,
  step acc row
  = match row_strip row "Extension Name" with
    | Raise e => (acc, Some e)
    | Ok ext_name =>
        match row_strip row key with
        | Raise e => (acc, Some e)
        | Ok v => (<[ext_name := v]> acc, None)
        end
    end.

Lemma row_strip_field row k :
  has_field row k → row_strip row k = Ok (field_text row k).
Proof. intros [v Hv]. unfold row_strip, field_text. by rewrite Hv. Qed.

Lemma row_strip_raise row k :
  ¬ has_field row k → ∃ e, row_strip row k = Raise e.
Proof.
  intros Hno. unfold row_strip.
  destruct (row !! k) as [[v|]|] eqn:Hk; [|by eexists..].
  exfalso. apply Hno. by exists v.
Qed.

Lemma step_complete acc row :
  has_field row "Extension Name" → has_field row key →
  step acc row
  = (<[field_text row "Extension Name" := field_text row key]> acc, None).
Proof.
  intros Hn Hk. by rewrite step_shape, !row_strip_field.
Qed.

Lemma step_incomplete acc row :
  ¬ (has_field row "Extension Name" ∧ has_field row key) →
  ∃ e, step acc row = (acc, Some e).
Proof.
  intros Hno. rewrite step_shape.
  destruct (row_strip row "Extension Name") as [n|e] eqn:Hn; [|by eexists].
  destruct (row_strip row key) as [v|e] eqn:Hv; [|by eexists].
  exfalso. apply Hno. unfold row_strip, has_field in *.
  destruct (row !! "Extension Name") as [[?|]|]; [|done..].
  destruct (row !! key) as [[?|]|]; [|done..]. eauto.
Qed.

(** Complete rows are all read; the last row of a name decides its
    entry, and a name that no row carries has none. *)
Lemma two_fields_loop rows acc :
  (∀ row, row ∈ rows → has_field row "Extension Name" ∧ has_field row key) →
  ∃ table,
    rows_loop step rows acc = (table, None)
    ∧ (∀ n, (∀ row, row ∈ rows → field_text row "Extension Name" ≠ n) →
            table !! n = acc !! n)
    ∧ (∀ l1 row l2, rows = l1 ++ row :: l2 →
         (∀ r, r ∈ l2 →
               field_text r "Extension Name"
               ≠ field_text row "Extension Name") →
         table !! field_text row "Extension Name"
         = Some (field_text row key)).
Proof.
  revert acc. induction rows as [|row rows IH]; intros acc Hall.
  - exists acc. split; [done|]. split; [done|].
    intros l1 r l2 Heq. by destruct l1.
  - destruct (Hall row) as [Hn Hk]; [left|].
    destruct (IH (<[field_text row "Extension Name" := field_text row key]>
                    acc)) as (table & Hloop & Hnone & Hlast).
    { intros r Hr. apply Hall. by right. }
    exists table. simpl. rewrite step_complete by done.
    split; [done|]. split.
    + intros n Hn'. rewrite Hnone by (intros r Hr; apply Hn'; by right).
      apply lookup_insert_ne. apply Hn'. left.
    + intros l1 r l2 Heq Hl2. destruct l1 as [|r0 l1]; simpl in Heq.
      * injection Heq as -> ->. rewrite Hnone by done.
        apply lookup_insert_eq.
      * injection Heq as -> ->. by eapply Hlast.
Qed.

End TwoFields.

Section ReaderTheorems.
Context `{Collaborators}.

(** On a file whose rows all have a name and a link, the source-code
    reader prints nothing and returns a table in which the last row of a
    name decides its link and a name that no row carries is absent. *)
Theorem source_code_last_row_wins (file_path text : string) (w : world) :
  fs w !! file_path = Some (File text) →
  (∀ row, row ∈ DictReader text →
          has_field row "Extension Name" ∧ has_field row "Source Code") →
  ∃ table,
    parse_source_code_csv file_path w = (Ok table, w)
    ∧ (∀ n, (∀ row, row ∈ DictReader text →
                    field_text row "Extension Name" ≠ n) →
            table !! n = None)
    ∧ (∀ l1 row l2, DictReader text = l1 ++ row :: l2 →
         (∀ r, r ∈ l2 →
               field_text r "Extension Name"
               ≠ field_text row "Extension Name") →
         table !! field_text row "Extension Name"
         = Some (field_text row "Source Code")).
Proof.
  intros Hfile Hall.
  destruct (two_fields_loop "Source Code" source_code_step
              ltac:(done) (DictReader text) ∅ Hall)
    as (table & Hloop & Hnone & Hlast).
  exists table. unfold parse_source_code_csv.
  rewrite (read_table_file _ _ _ _ _ text Hfile), Hloop.
  split; [done|]. split; [|done].
  intros n Hn. by rewrite Hnone.
Qed.

(** The same for the reader of descriptions. *)
Theorem descriptions_last_row_wins (file_path text : string) (w : world) :
  fs w !! file_path = Some (File text) →
  (∀ row, row ∈ DictReader text →
          has_field row "Extension Name" ∧ has_field row "Description") →
  ∃ table,
    parse_descriptions_csv file_path w = (Ok table, w)
    ∧ (∀ n, (∀ row, row ∈ DictReader text →
                    field_text row "Extension Name" ≠ n) →
            table !! n = None)
    ∧ (∀ l1 row l2, DictReader text = l1 ++ row :: l2 →
         (∀ r, r ∈ l2 →
               field_text r "Extension Name"
               ≠ field_text row "Extension Name") →
         table !! field_text row "Extension Name"
         = Some (field_text row "Description")).
Proof.
  intros Hfile Hall.
  destruct (two_fields_loop "Description" descriptions_step
              ltac:(done) (DictReader text) ∅ Hall)
    as (table & Hloop & Hnone & Hlast).
  exists table. unfold parse_descriptions_csv.
  rewrite (read_table_file _ _ _ _ _ text Hfile), Hloop.
  split; [done|]. split; [|done].
  intros n Hn. by rewrite Hnone.
Qed.

(** Reading stops at the first row that lacks the name or the link: the
    rows before it are kept, the rows after it are not read, the exception
    is printed, and the reader returns. *)
Theorem source_code_stops_at_bad_row (file_path text : string) (w : world)
    (good rest : list (gmap string (option string)))
    (bad : gmap string (option string)) :
  fs w !! file_path = Some (File text) →
  DictReader text = good ++ bad :: rest →
  (∀ row, row ∈ good →
          has_field row "Extension Name" ∧ has_field row "Source Code") →
  ¬ (has_field bad "Extension Name" ∧ has_field bad "Source Code") →
  ∃ e,
    parse_source_code_csv file_path w
    = (Ok (rows_loop source_code_step good ∅).1,
       World (fs w) (stdout w ++ [reading_error file_path e])).
Proof.
  intros Hfile Hrows Hgood Hbad.
  destruct (two_fields_loop "Source Code" source_code_step
              ltac:(done) good ∅ Hgood) as (table & Hloop & _).
  destruct (step_incomplete "Source Code" source_code_step
              ltac:(done) table bad Hbad) as [e He].
  exists e. unfold parse_source_code_csv.
  rewrite (read_table_file _ _ _ _ _ text Hfile), Hrows.
  rewrite (rows_loop_app _ _ _ _ _ Hloop). simpl. by rewrite He, Hloop.
Qed.

End ReaderTheorems.

(** *** The flag tables: extensibility types and system components *)

Lemma collect_flags_sublist row keys l :
  collect_flags row keys = Ok l → sublist l keys.
Proof.
  revert l. induction keys as [|key keys IH]; intros l; simpl.
  - intros [= <-]. constructor.
  - destruct (row_get_strip row key "") as [v|]; simpl; [|done].
    destruct (collect_flags row keys) as [rest|]; simpl; [|done].
    intros [= <-]. destruct (decide _).
    + apply sublist_skip. by apply IH.
    + apply sublist_cons. by apply IH.
Qed.

Section FlagTheorems.
Context `{Collaborators}.

(** Whatever the file holds, the reader of extensibility types returns.
    Every name with an entry is in the list of names; every name of the
    list but perhaps the last, the row at which reading stopped, has an
    entry; and an entry is never empty: it is [None] alone or some of the
    seven column names, in the order of the columns. *)
Theorem infos_invariants (file_path : string) (w : world) :
  ∃ infos extensions_list,
    (parse_infos_csv file_path w).1 = Ok (infos, extensions_list)
    ∧ (∀ n, is_Some (infos !! n) → n ∈ extensions_list)
    ∧ (∃ l0 rest, extensions_list = l0 ++ rest ∧ length rest ≤ 1
                  ∧ ∀ n, n ∈ l0 → is_Some (infos !! n))
    ∧ (∀ n types, infos !! n = Some types →
         types = ["None"]
         ∨ (types ≠ [] ∧ sublist types extensibility_columns)).
Proof.
  set (V := λ infos : gmap string (list string),
         ∀ n types, infos !! n = Some types →
           types = ["None"]
           ∨ (types ≠ [] ∧ sublist types extensibility_columns)).
  set (P := λ acc : gmap string (list string) * list string,
         (∀ n, n ∈ acc.2 ↔ is_Some (acc.1 !! n)) ∧ V acc.1).
  set (Q := λ acc : gmap string (list string) * list string,
         (∀ n, is_Some (acc.1 !! n) → n ∈ acc.2)
         ∧ (∃ l0 rest, acc.2 = l0 ++ rest ∧ length rest ≤ 1
                       ∧ ∀ n, n ∈ l0 → is_Some (acc.1 !! n))
         ∧ V acc.1).
  destruct (read_table_inv P Q file_path
              "Extensibility info will not be available."
              infos_step (∅, []) w) as ([infos list] & Hrun & HQ).
  - split; [|by intros n types Hn].
    intros n. simpl. rewrite lookup_empty. split.
    + by intros Hn%elem_of_nil.
    + by intros [? ?].
  - intros [infos list] [Hin HV]. split; [intros n; apply Hin|].
    split; [|done]. exists list, []. rewrite app_nil_r.
    split; [done|]. split; [simpl; lia|]. intros n. apply Hin.
  - intros text [infos list] row _ _ [Hin HV]. unfold infos_step.
    simpl in Hin, HV.
    destruct (row_strip row "Extension Name") as [name|e].
    2:{ split; [intros n; apply Hin|]. split; [|done].
        exists list, []. rewrite app_nil_r.
        split; [done|]. split; [simpl; lia|]. intros n. apply Hin. }
    destruct (collect_flags row extensibility_columns) as [types|e] eqn:Hf.
    + split; simpl.
      * intros n. rewrite elem_of_app, list_elem_of_singleton, Hin.
        destruct (decide (name = n)) as [->|Hne].
        -- rewrite lookup_insert_eq. split; [by eexists|by right].
        -- rewrite lookup_insert_ne by done. split; [|by left].
           intros [?|?]; [done|congruence].
      * intros n types' Hn. destruct (decide (name = n)) as [->|Hne].
        -- rewrite lookup_insert_eq in Hn. injection Hn as <-.
           apply collect_flags_sublist in Hf.
           destruct types; [by left|by right].
        -- rewrite lookup_insert_ne in Hn by done. by eapply HV.
    + split; simpl.
      * intros n Hn. apply elem_of_app. left. by apply Hin.
      * split; [|done]. exists list, [name].
        split; [done|]. split; [simpl; lia|]. intros n. apply Hin.
  - exists infos, list. split; [done|]. destruct HQ as (H1 & H2 & H3).
    done.
Qed.

(** Whatever the file holds, the reader of system components returns, and
    an entry is never empty: it is [None] alone or some of the three
    column names, in the order of the columns. *)
Theorem mechanisms_invariants (file_path : string) (w : world) :
  ∃ mechanisms,
    (parse_mechanisms_csv file_path w).1 = Ok mechanisms
    ∧ ∀ n components, mechanisms !! n = Some components →
        components = ["None"]
        ∨ (components ≠ [] ∧ sublist components component_columns).
Proof.
  set (V := λ mechanisms : gmap string (list string),
         ∀ n components, mechanisms !! n = Some components →
           components = ["None"]
           ∨ (components ≠ [] ∧ sublist components component_columns)).
  apply (read_table_inv V V).
  - by intros n components Hn.
  - done.
  - intros text mechanisms row _ _ HV. unfold mechanisms_step.
    destruct (row_strip row "Extension Name") as [name|e]; [|done].
    destruct (collect_flags row component_columns) as [comps|e] eqn:Hf;
      [|done].
    destruct (row_get_strip row "Number of Components" "0") as [num|e];
      [|done].
    intros n components Hn. destruct (decide (name = n)) as [->|Hne].
    + rewrite lookup_insert_eq in Hn. injection Hn as <-.
      apply collect_flags_sublist in Hf.
      destruct (decide (num = "0")); [by left|].
      destruct comps; [by left|by right].
    + rewrite lookup_insert_ne in Hn by done. by eapply HV.
Qed.

(** When the table has no column [Number of Components], the count
    defaults to 0 and every extension gets [None], whatever its flags. *)
Theorem mechanisms_without_count_column (file_path text : string)
    (w : world) :
  fs w !! file_path = Some (File text) →
  (∀ row, row ∈ DictReader text → row !! "Number of Components" = None) →
  ∃ mechanisms,
    (parse_mechanisms_csv file_path w).1 = Ok mechanisms
    ∧ ∀ n components, mechanisms !! n = Some components →
        components = ["None"].
Proof.
  intros Hfile Hcol.
  set (V := λ mechanisms : gmap string (list string),
         ∀ n components, mechanisms !! n = Some components →
           components = ["None"]).
  apply (read_table_inv V V).
  - by intros n components Hn.
  - done.
  - intros text' mechanisms row Hfile' Hrow HV.
    assert (text' = text) as -> by congruence.
    unfold mechanisms_step.
    destruct (row_strip row "Extension Name") as [name|e]; [|done].
    destruct (collect_flags row component_columns) as [comps|e]; [|done].
    unfold row_get_strip. rewrite (Hcol row Hrow).
    intros n components Hn. destruct (decide (name = n)) as [->|Hne].
    + rewrite lookup_insert_eq in Hn. by injection Hn as <-.
    + rewrite lookup_insert_ne in Hn by done. by eapply HV.
Qed.

End FlagTheorems.

(** *** The readers on small tables *)

Lemma source_code_last_row_wins_witness :
  ∃ table,
    parse_source_code_csv
      (H := demo_with_rows [link_row "A" "http://old"; link_row "B" "http://b";
                            link_row " A " " http://new "])
      "csvs/source_code.csv" (one_file_world "csvs/source_code.csv" "")
    = (Ok table, one_file_world "csvs/source_code.csv" "")
    ∧ table !! "Z" = None
    ∧ table !! "A" = Some "http://new".
Proof.
  destruct (source_code_last_row_wins
              (H := demo_with_rows [link_row "A" "http://old";
                                    link_row "B" "http://b";
                                    link_row " A " " http://new "])
              "csvs/source_code.csv" ""
              (one_file_world "csvs/source_code.csv" ""))
    as (table & Hrun & Hnone & Hlast).
  - reflexivity.
  - intros row Hrow. simpl in Hrow.
    repeat (apply elem_of_cons in Hrow as [->|Hrow];
            [split; eexists; reflexivity|]).
    by apply elem_of_nil in Hrow.
  - exists table. split; [exact Hrun|]. split.
    + apply Hnone. intros row Hrow. simpl in Hrow.
      repeat (apply elem_of_cons in Hrow as [->|Hrow]; [by vm_compute|]).
      by apply elem_of_nil in Hrow.
    + apply (Hlast [link_row "A" "http://old"; link_row "B" "http://b"]
                   (link_row " A " " http://new ") []).
      * reflexivity.
      * intros r Hr. by apply elem_of_nil in Hr.
Defined.

Lemma descriptions_last_row_wins_witness :
  ∃ table,
    parse_descriptions_csv
      (H := demo_with_rows [description_row "A" "first";
                            description_row "B" "second"])
      "csvs/descriptions.csv" (one_file_world "csvs/descriptions.csv" "")
    = (Ok table, one_file_world "csvs/descriptions.csv" "")
    ∧ table !! "Z" = None
    ∧ table !! "B" = Some "second".
Proof.
  destruct (descriptions_last_row_wins
              (H := demo_with_rows [description_row "A" "first";
                                    description_row "B" "second"])
              "csvs/descriptions.csv" ""
              (one_file_world "csvs/descriptions.csv" ""))
    as (table & Hrun & Hnone & Hlast).
  - reflexivity.
  - intros row Hrow. simpl in Hrow.
    repeat (apply elem_of_cons in Hrow as [->|Hrow];
            [split; eexists; reflexivity|]).
    by apply elem_of_nil in Hrow.
  - exists table. split; [exact Hrun|]. split.
    + apply Hnone. intros row Hrow. simpl in Hrow.
      repeat (apply elem_of_cons in Hrow as [->|Hrow]; [by vm_compute|]).
      by apply elem_of_nil in Hrow.
    + apply (Hlast [description_row "A" "first"]
                   (description_row "B" "second") []).
      * reflexivity.
      * intros r Hr. by apply elem_of_nil in Hr.
Defined.

(** The link of [A] is kept, the error is printed, and [C] is not read. *)
Lemma source_code_stops_at_bad_row_witness :
  ∃ e,
    parse_source_code_csv
      (H := demo_with_rows [link_row "A" "http://a"; short_link_row "B";
                            link_row "C" "http://c"])
      "csvs/source_code.csv" (one_file_world "csvs/source_code.csv" "")
    = (Ok (rows_loop source_code_step [link_row "A" "http://a"] ∅).1,
       World (fs (one_file_world "csvs/source_code.csv" ""))
             [reading_error "csvs/source_code.csv" e]).
Proof.
  apply (source_code_stops_at_bad_row
           (H := demo_with_rows [link_row "A" "http://a"; short_link_row "B";
                                 link_row "C" "http://c"])
           "csvs/source_code.csv" ""
           (one_file_world "csvs/source_code.csv" "")
           [link_row "A" "http://a"] [link_row "C" "http://c"]
           (short_link_row "B")).
  - reflexivity.
  - reflexivity.
  - intros row Hrow.
    apply list_elem_of_singleton in Hrow as ->.
    split; eexists; reflexivity.
  - intros [_ [v Hv]]. vm_compute in Hv. discriminate.
Defined.

Lemma mechanisms_without_count_column_witness :
  ∃ mechanisms,
    (parse_mechanisms_csv
       (H := demo_with_rows [uncounted_row "A" "yes" "no";
                             uncounted_row "B" "yes" "yes"])
       "csvs/mechanisms.csv" (one_file_world "csvs/mechanisms.csv" "")).1
    = Ok mechanisms
    ∧ ∀ n components, mechanisms !! n = Some components →
        components = ["None"].
Proof.
  apply (mechanisms_without_count_column
           (H := demo_with_rows [uncounted_row "A" "yes" "no";
                                 uncounted_row "B" "yes" "yes"])
           "csvs/mechanisms.csv" "").
  - reflexivity.
  - intros row Hrow. simpl in Hrow.
    repeat (apply elem_of_cons in Hrow as [->|Hrow]; [reflexivity|]).
    by apply elem_of_nil in Hrow.
Defined.

(** ** The evidence locator: what it returns *)

Lemma probe_direction_run extension failed_ext acc direction w :
  (probe_direction extension failed_ext acc direction w).1
  = Ok (add_evidence (fs w) extension failed_ext acc direction)
  ∧ fs (probe_direction extension failed_ext acc direction w).2 = fs w.
Proof.
  split; [|apply reads_only_probe_direction].
  unfold probe_direction, add_evidence. rewrite bind_run.
  unfold os_path_exists at 1. simpl.
  destruct (fs w !! terminal_path_of direction) as [n|] eqn:Hp.
  - rewrite bool_decide_eq_true_2 by (by eexists).
    unfold try_except. rewrite bind_run. unfold read_text. rewrite Hp.
    destruct n; [done| |done].
    by destruct (Py.startswith _ _).
  - rewrite bool_decide_eq_false_2; [done|]. by intros [? ?].
Qed.

Lemma for_each_run {A B} (body : A → B → M A) (f : gmap string node → A → B → A)
    l acc w :
  (∀ a x v, (body a x v).1 = Ok (f (fs v) a x) ∧ fs (body a x v).2 = fs v) →
  (for_each body acc l w).1 = Ok (foldl (f (fs w)) acc l)
  ∧ fs (for_each body acc l w).2 = fs w.
Proof.
  intros Hbody. revert acc w. induction l as [|x l IH]; intros acc w; [done|].
  simpl. rewrite bind_run. destruct (Hbody acc x w) as [Hr Hfs].
  destruct (body acc x w) as [[a|e] w1]; simpl in *; [|done].
  injection Hr as ->. destruct (IH (f (fs w) acc x) w1) as [Hr' Hfs'].
  by rewrite Hr', Hfs', Hfs.
Qed.

(** The locator returns, leaves the files alone, and lists the dictionary
    [collect_evidence] by increasing key. *)
Lemma get_terminal_outputs_run extension failed w :
  let by_ext := collect_evidence (fs w) extension failed ∅ in
  (get_terminal_outputs extension failed w).1
  = Ok ((λ ext, (ext, default [] (by_ext !! ext)))
        <$> Py.sorted (elements (dom by_ext)))
  ∧ fs (get_terminal_outputs extension failed w).2 = fs w.
Proof.
  intros by_ext. unfold get_terminal_outputs. rewrite bind_run.
  destruct (for_each_run (probe_pair extension)
              (λ files acc F, foldl (add_evidence files extension F) acc
                                (directions_of extension F))
              failed ∅ w) as [Hr Hfs].
  { intros a F v. unfold probe_pair.
    apply (for_each_run (probe_direction extension F)
             (λ files, add_evidence files extension F)).
    intros a' d v'. apply probe_direction_run. }
  destruct (for_each _ _ _ _) as [[m|e] w1]; simpl in *; [|done].
  injection Hr as ->. done.
Qed.

(** *** The dictionary *)

Lemma add_evidence_other files E F acc d G :
  G ≠ F → add_evidence files E F acc d !! G = acc !! G.
Proof.
  intros Hne. unfold add_evidence.
  destruct (files !! terminal_path_of d) as [[]|]; [done| |done..].
  destruct (Py.startswith _ _); by rewrite lookup_insert_ne.
Qed.

(** A probe only appends. *)
Lemma add_evidence_grows files E F acc d G l :
  acc !! G = Some l →
  ∃ l', add_evidence files E F acc d !! G = Some (l ++ l').
Proof.
  intros Hl. destruct (decide (G = F)) as [->|Hne].
  - unfold add_evidence.
    destruct (files !! terminal_path_of d) as [[]|];
      try (exists []; by rewrite app_nil_r).
    destruct (Py.startswith _ _); rewrite lookup_insert_eq, Hl; by eexists.
  - exists []. by rewrite app_nil_r, add_evidence_other.
Qed.

Lemma add_evidence_found files E F acc d text :
  files !! terminal_path_of d = Some (File text) →
  ∃ l e, add_evidence files E F acc d !! F = Some (l ++ [e])
         ∧ pair_id e = d ∧ content e = text.
Proof.
  intros Hd. unfold add_evidence. rewrite Hd.
  destruct (Py.startswith _ _); rewrite lookup_insert_eq; by eexists _, _.
Qed.

Lemma add_evidence_sound files E known F acc d :
  F ∈ known → d ∈ directions_of E F →
  groups_sound files E known acc →
  groups_sound files E known (add_evidence files E F acc d).
Proof.
  intros HF Hd Hacc G entries. unfold add_evidence.
  destruct (files !! terminal_path_of d) as [[| text |]|] eqn:Hfile;
    try apply Hacc.
  set (pr := if Py.startswith _ _ then _ else _).
  assert (pr = (E, F) ∨ pr = (F, E)) as Hpr
    by (subst pr; destruct (Py.startswith _ _); auto).
  destruct pr as [a b]. destruct (decide (F = G)) as [<-|Hne].
  - rewrite lookup_insert_eq. intros [= <-].
    split; [done|]. split; [by destruct (default [] (acc !! F))|].
    intros e [He|He]%elem_of_app.
    + destruct (acc !! F) as [l|] eqn:Hl; simpl in He;
        [|by apply elem_of_nil in He].
      by apply (Hacc F l Hl).
    + apply list_elem_of_singleton in He as ->.
      split; [done|]. split; [done|]. simpl.
      destruct Hpr as [[= -> ->]|[= -> ->]]; auto.
  - rewrite lookup_insert_ne by done. apply Hacc.
Qed.

Lemma collect_evidence_sound files E known failed acc :
  (∀ F, F ∈ failed → F ∈ known) →
  groups_sound files E known acc →
  groups_sound files E known (collect_evidence files E failed acc).
Proof.
  unfold collect_evidence. revert acc.
  induction failed as [|F failed IH]; intros acc Hknown Hacc; [done|].
  simpl. apply IH; [intros G HG; apply Hknown; by right|].
  assert (F ∈ known) as HF by (apply Hknown; left).
  apply add_evidence_sound; [done|right; left|].
  apply add_evidence_sound; [done|left|done].
Qed.

Lemma collect_evidence_grows files E failed acc G l :
  acc !! G = Some l →
  ∃ l', collect_evidence files E failed acc !! G = Some (l ++ l').
Proof.
  unfold collect_evidence. revert acc l.
  induction failed as [|F failed IH]; intros acc l Hl.
  - exists []. by rewrite app_nil_r.
  - simpl.
    destruct (add_evidence_grows files E F acc
                (E +:+ "_" +:+ F) G l Hl) as [l1 H1].
    destruct (add_evidence_grows files E F _
                (F +:+ "_" +:+ E) G _ H1) as [l2 H2].
    destruct (IH _ _ H2) as [l3 H3].
    exists (l1 ++ l2 ++ l3). rewrite !(assoc_L (++)). exact H3.
Qed.

Lemma collect_evidence_complete files E failed acc F d text :
  F ∈ failed → d ∈ directions_of E F →
  files !! terminal_path_of d = Some (File text) →
  ∃ entries e,
    collect_evidence files E failed acc !! F = Some entries
    ∧ e ∈ entries ∧ pair_id e = d ∧ content e = text.
Proof.
  revert acc. induction failed as [|G failed IH]; intros acc HF Hd Hfile.
  - by apply elem_of_nil in HF.
  - destruct (decide (F ∈ failed)) as [Hin|Hnot].
    { apply (IH _ Hin Hd Hfile). }
    apply elem_of_cons in HF as [<-|HF]; [|done].
    unfold collect_evidence. simpl.
    fold (collect_evidence files E failed
            (add_evidence files E F
               (add_evidence files E F acc (E +:+ "_" +:+ F))
               (F +:+ "_" +:+ E))).
    unfold directions_of in Hd.
    apply elem_of_cons in Hd as [->|Hd].
    + destruct (add_evidence_found files E F acc _ text Hfile)
        as (l & e & Hl & He1 & He2).
      destruct (add_evidence_grows files E F _ (F +:+ "_" +:+ E) F _ Hl)
        as [l2 H2].
      destruct (collect_evidence_grows files E failed _ F _ H2) as [l3 H3].
      exists (((l ++ [e]) ++ l2) ++ l3), e. split; [exact H3|].
      split; [|done]. rewrite !elem_of_app, list_elem_of_singleton. auto.
    + apply list_elem_of_singleton in Hd as ->.
      destruct (add_evidence_found files E F
                  (add_evidence files E F acc (E +:+ "_" +:+ F))
                  _ text Hfile) as (l & e & Hl & He1 & He2).
      destruct (collect_evidence_grows files E failed _ F _ Hl) as [l3 H3].
      exists ((l ++ [e]) ++ l3), e. split; [exact H3|].
      split; [|done]. rewrite !elem_of_app, list_elem_of_singleton. auto.
Qed.

(** *** The groups returned *)

Lemma elem_of_groups (by_ext : gmap string (list evidence)) F entries :
  (F, entries) ∈ ((λ ext, (ext, default [] (by_ext !! ext)))
                  <$> Py.sorted (elements (dom by_ext)))
  ↔ by_ext !! F = Some entries.
Proof.
  rewrite list_elem_of_fmap. split.
  - intros (G & [= -> ->] & HG).
    apply elem_of_sorted, elem_of_elements, elem_of_dom in HG as [l Hl].
    by rewrite Hl.
  - intros Hl. exists F. rewrite Hl. split; [done|].
    apply elem_of_sorted, elem_of_elements, elem_of_dom. by eexists.
Qed.

Lemma groups_keys (by_ext : gmap string (list evidence)) :
  ((λ ext, (ext, default [] (by_ext !! ext)))
   <$> Py.sorted (elements (dom by_ext))).*1
  = Py.sorted (elements (dom by_ext)).
Proof.
  rewrite <- list_fmap_compose. apply list_fmap_id.
Qed.

(** Whatever the files are, the locator returns and changes no file.  The
    groups come by strictly increasing counterpart name; every group is
    for a name of the failed list, is non-empty, and holds only entries of
    its pair: an identifier among the two probed, the text of the file of
    that identifier, and the two names of the pair. *)
Theorem locator_groups_sound (extension : string)
    (failed_extensions : list string) (w : world) :
  ∃ groups,
    (get_terminal_outputs extension failed_extensions w).1 = Ok groups
    ∧ fs (get_terminal_outputs extension failed_extensions w).2 = fs w
    ∧ StronglySorted (strict String.le) groups.*1
    ∧ ∀ F entries, (F, entries) ∈ groups →
        F ∈ failed_extensions ∧ entries ≠ []
        ∧ ∀ e, e ∈ entries → evidence_of_pair (fs w) extension F e.
Proof.
  destruct (get_terminal_outputs_run extension failed_extensions w)
    as [Hr Hfs].
  eexists. split; [exact Hr|]. split; [exact Hfs|]. split.
  - rewrite groups_keys. apply sorted_strict, NoDup_elements.
  - intros F entries HF. apply elem_of_groups in HF.
    eapply (collect_evidence_sound (fs w) extension failed_extensions
              failed_extensions ∅); [done| |exact HF].
    intros G l HG. by rewrite lookup_empty in HG.
Qed.

(** Every readable file of a probed identifier of a failed counterpart is
    reported, in the group of that counterpart. *)
Theorem locator_groups_complete (extension : string)
    (failed_extensions : list string) (w : world)
    (F direction text : string) :
  F ∈ failed_extensions →
  direction ∈ directions_of extension F →
  fs w !! terminal_path_of direction = Some (File text) →
  ∃ groups entries e,
    (get_terminal_outputs extension failed_extensions w).1 = Ok groups
    ∧ (F, entries) ∈ groups
    ∧ e ∈ entries ∧ pair_id e = direction ∧ content e = text.
Proof.
  intros HF Hd Hfile.
  destruct (get_terminal_outputs_run extension failed_extensions w)
    as [Hr _].
  destruct (collect_evidence_complete (fs w) extension failed_extensions ∅
              F direction text HF Hd Hfile) as (entries & e & Hl & He).
  eexists _, entries, e. split; [exact Hr|].
  split; [by apply elem_of_groups|exact He].
Qed.

Lemma locator_groups_complete_witness :
  ∃ groups entries e,
    (get_terminal_outputs "postgis" ["postgis_topology"]
       (postgis_world "log")).1 = Ok groups
    ∧ ("postgis_topology", entries) ∈ groups
    ∧ e ∈ entries ∧ pair_id e = "postgis_topology_postgis"
    ∧ content e = "log".
Proof.
  apply (locator_groups_complete "postgis" ["postgis_topology"]
           (postgis_world "log") "postgis_topology"
           "postgis_topology_postgis" "log").
  - left.
  - right. left.
  - reflexivity.
Defined.

Lemma add_evidence_absent files E F acc d :
  files !! terminal_path_of d = None → add_evidence files E F acc d = acc.
Proof. intros Hd. unfold add_evidence. by rewrite Hd. Qed.

Lemma probe_direction_absent extension failed_ext acc direction w :
  fs w !! terminal_path_of direction = None →
  probe_direction extension failed_ext acc direction w = (Ok acc, w).
Proof.
  intros Hd. unfold probe_direction. rewrite bind_run.
  unfold os_path_exists at 1. simpl.
  rewrite bool_decide_eq_false_2; [done|]. rewrite Hd. by intros [? ?].
Qed.

Lemma for_each_idle {A B} (body : A → B → M A) l acc w :
  (∀ a x, x ∈ l → body a x w = (Ok a, w)) →
  for_each body acc l w = (Ok acc, w).
Proof.
  intros Hbody. induction l as [|x l IH]; [done|].
  change (for_each body acc (x :: l)) with
    (body acc x ≫= λ a, for_each body a l).
  rewrite (bind_step _ _ w acc w) by (apply Hbody; left).
  apply IH. intros a y Hy. apply Hbody. by right.
Qed.

(** When none of the probed files exists, the locator returns no group
    and prints nothing. *)
Theorem locator_nothing_found (extension : string)
    (failed_extensions : list string) (w : world) :
  (∀ F direction, F ∈ failed_extensions →
     direction ∈ directions_of extension F →
     fs w !! terminal_path_of direction = None) →
  get_terminal_outputs extension failed_extensions w = (Ok [], w).
Proof.
  intros Hnone. unfold get_terminal_outputs.
  rewrite (bind_step _ _ w ∅ w); [done|].
  apply for_each_idle. intros acc F HF. unfold probe_pair.
  apply for_each_idle. intros acc' d Hd.
  apply probe_direction_absent, (Hnone F); done.
Qed.

Lemma locator_nothing_found_witness :
  get_terminal_outputs "pgcrypto" ["hstore"] (pgcrypto_world "log")
  = (Ok [], pgcrypto_world "log").
Proof.
  apply locator_nothing_found.
  intros F d HF Hd. apply list_elem_of_singleton in HF as ->.
  unfold directions_of in Hd.
  repeat (apply elem_of_cons in Hd as [->|Hd]; [reflexivity|]).
  by apply elem_of_nil in Hd.
Defined.

(** ** The run: what it reads first and where it writes *)

Section RunExtras.
Context `{Collaborators}.

(** Without the [layout] directory nothing is read and nothing is
    written: the report of the missing templates is printed and the
    function returns, even when the compatibility table is missing too. *)
Theorem generate_website_without_layout
    (csv_file_path build_path : string) (incl : bool) (w : world) :
  fs w !! "layout" = None →
  generate_website csv_file_path build_path incl w
  = (Ok (), World (fs w) (stdout w ++ layout_missing_report)).
Proof.
  intros Hno. unfold generate_website.
  rewrite (bind_step _ _ w false w).
  - apply print_lines.
  - unfold os_path_exists. rewrite bool_decide_eq_false_2; [done|].
    rewrite Hno. by intros [? ?].
Qed.

(** Reading the inputs fails only on the compatibility table: it is
    missing, it cannot be read, or a row of it is wider than its header. *)
Lemma read_tables_raises csv_file_path w e :
  (read_tables csv_file_path w).1 = Raise e →
  e = FileNotFoundError csv_file_path ∨ e = OSError csv_file_path
  ∨ e = IndexError.
Proof.
  unfold read_tables. rewrite bind_run. unfold read_text at 1.
  destruct (fs w !! csv_file_path) as [[| text |]|]; simpl;
    [intros [= <-]; auto| |intros [= <-]; auto..].
  rewrite bind_run.
  destruct (never_raises_read_table "csvs/source_code.csv"
              "Source code links will not be available."
              source_code_step ∅ w) as [sc Hsc].
  unfold parse_source_code_csv.
  destruct (read_table _ _ source_code_step _ _) as [[?|?] w1];
    simpl in Hsc; [|done].
  rewrite bind_run.
  destruct (never_raises_read_table "csvs/descriptions.csv"
              "Descriptions will not be available."
              descriptions_step ∅ w1) as [ds Hds].
  unfold parse_descriptions_csv.
  destruct (read_table _ _ descriptions_step _ _) as [[?|?] w2];
    simpl in Hds; [|done].
  rewrite bind_run.
  destruct (never_raises_read_table "csvs/infos.csv"
              "Extensibility info will not be available."
              infos_step (∅, []) w2) as [inf Hinf].
  unfold parse_infos_csv.
  destruct (read_table _ _ infos_step _ _) as [[[? ?]|?] w3];
    simpl in Hinf; [|done].
  rewrite bind_run.
  destruct (never_raises_read_table "csvs/mechanisms.csv"
              "System components info will not be available."
              mechanisms_step ∅ w3) as [ms Hms].
  unfold parse_mechanisms_csv.
  destruct (read_table _ _ mechanisms_step _ _) as [[?|?] w4];
    simpl in Hms; [|done].
  rewrite bind_run. unfold lift.
  destruct (parse_csv text) as [[exts m]|e'] eqn:Hp; simpl; [done|].
  intros [= <-]. right. right.
  rewrite parse_csv_unfold in Hp.
  destruct (parse_rows _ _ _) as [?|e''] eqn:Hrows; simpl in Hp; [done|].
  injection Hp as <-. by eapply parse_rows_error.
Qed.


End RunExtras.


Lemma generate_website_without_layout_witness :
  generate_website (H := demo) "csvs/compatibility.csv" "build" false
    no_layout_world
  = (Ok (), World (fs no_layout_world) layout_missing_report).
Proof.
  apply (generate_website_without_layout (H := demo)
           "csvs/compatibility.csv" "build" false no_layout_world).
  reflexivity.
Defined.

(** ** The run: where it writes *)

Lemma startswith_app_l a b p :
  Py.startswith (a +:+ b) p = true → Py.startswith a p = true.
Proof.
  revert p. induction a as [|c a IH]; intros p; [done|].
  rewrite app_cons. destruct p as [|d p]; [done|]. simpl.
  intros [Hc Hp]%andb_prop. rewrite Hc. simpl. by apply IH.
Qed.

Lemma relative_page x :
  Py.startswith "/" x = false → Py.startswith "/" (x +:+ ".html") = false.
Proof. by destruct x. Qed.

Lemma outside_joined build_path b p :
  ¬ within build_path p → Py.startswith "/" b = false →
  p ≠ os_path_join build_path b.
Proof.
  intros Hp Hb ->. apply Hp. right.
  rewrite os_path_join_relative by done. apply startswith_app.
Qed.

Lemma outside_below build_path b p :
  ¬ within build_path p → Py.startswith "/" b = false →
  Py.startswith (os_path_join build_path b +:+ "/") p = false.
Proof.
  intros Hp Hb. apply not_true_is_false. intros Hs. apply Hp. right.
  rewrite os_path_join_relative, app_assoc_str in Hs by done.
  by apply startswith_app_l in Hs.
Qed.

Lemma untouched_reads_only {A} p (c : M A) : reads_only c → untouched p c.
Proof. intros Hc w. by rewrite Hc. Qed.

Lemma untouched_bind {A B} p (c : M A) (k : A → M B) :
  untouched p c → (∀ a, untouched p (k a)) → untouched p (c ≫= k).
Proof.
  intros Hc Hk w. rewrite bind_run. specialize (Hc w).
  destruct (c w) as [[a|e] w1]; simpl in *; [|done].
  by rewrite Hk.
Qed.

Section Output.
Context `{Collaborators}.

Lemma generate_pages_split T build_path incl :
  generate_pages T build_path incl
  = (mkdir_exist_ok build_path;;
     mkdir_exist_ok (os_path_join build_path "css");;
     copy_if_present "layout/css" (os_path_join build_path "css")
       "CSS files copied successfully"
       "Warning: layout/css directory not found";;
     copy_if_present "portraits" (os_path_join build_path "portraits")
       "Portraits directory copied successfully"
       "Warning: portraits directory not found";;
     write_pages T build_path incl).
Proof. reflexivity. Qed.

(** The pages are written at their own paths only. *)
Lemma write_pages_untouched T build_path incl p :
  p ≠ os_path_join build_path "index.html" →
  p ≠ os_path_join build_path "results.html" →
  (∀ x, x ∈ all_extensions T → p ≠ page_path build_path x) →
  untouched p (write_pages T build_path incl).
Proof.
  intros Hi Hr Hx. unfold write_pages.
  apply untouched_bind;
    [apply untouched_reads_only, reads_only_lift|intros ti].
  apply untouched_bind;
    [intros w; by apply write_rendered_frame|intros _].
  apply untouched_bind;
    [apply untouched_reads_only, reads_only_lift|intros tr].
  apply untouched_bind;
    [intros w; by apply write_rendered_frame|intros _].
  apply untouched_bind;
    [apply untouched_reads_only, reads_only_lift|intros t].
  apply untouched_bind; [intros w; by apply pages_loop_frame|intros _].
  apply untouched_reads_only, reads_only_report.
Qed.

Lemma generate_pages_untouched T build_path incl p :
  (∀ x, x ∈ all_extensions T → Py.startswith "/" x = false) →
  ¬ within build_path p →
  untouched p (generate_pages T build_path incl).
Proof.
  intros Hrel Hp. rewrite generate_pages_split.
  assert (p ≠ build_path) as Hne by (intros ->; apply Hp; by left).
  apply untouched_bind; [intros w; by apply mkdir_frame|intros _].
  apply untouched_bind.
  { intros w. apply mkdir_frame, not_eq_sym. by apply outside_joined. }
  intros _. apply untouched_bind.
  { intros w. apply copy_if_present_frame;
      [by apply outside_joined|by apply outside_below]. }
  intros _. apply untouched_bind.
  { intros w. apply copy_if_present_frame;
      [by apply outside_joined|by apply outside_below]. }
  intros _. apply write_pages_untouched; try by apply outside_joined.
  intros x Hx. apply outside_joined; [done|].
  by apply relative_page, Hrel.
Qed.


(** A run that returns has written the page of an extension whose name
    begins with a slash at that name followed by [.html], not below the
    build directory. *)
Theorem absolute_name_leaves_build
    (csv_file_path build_path : string) (incl : bool) (w w' : world)
    (x : string) :
  is_Some (fs w !! "layout") →
  generate_website csv_file_path build_path incl w = (Ok (), w') →
  x ∈ metadata_names csv_file_path w →
  Py.startswith "/" x = true →
  page_path build_path x = x +:+ ".html" ∧ is_file w' (x +:+ ".html").
Proof.
  intros Hlayout Hrun Hx Habs.
  apply generate_website_ok in Hrun as (T & w1 & HT & Hrun); [|done].
  unfold metadata_names in Hx. rewrite HT in Hx. simpl in Hx.
  assert (page_path build_path x = x +:+ ".html") as Hpath.
  { unfold page_path. apply os_path_join_absolute.
    by destruct x. }
  split; [done|]. rewrite <- Hpath.
  by apply (generate_pages_files _ _ _ _ _ Hrun).
Qed.


End Output.


(** The page of [/srv/www/A] is written at [/srv/www/A.html]. *)
Lemma absolute_name_leaves_build_witness :
  page_path "build" "/srv/www/A" = "/srv/www/A.html"
  ∧ is_file (generate_website (H := demo) "csvs/compatibility.csv" "build"
               false absolute_name_world).2 "/srv/www/A.html".
Proof.
  apply (absolute_name_leaves_build (H := demo) "csvs/compatibility.csv"
           "build" false absolute_name_world).
  - by eexists.
  - by vm_compute.
  - vm_compute. left.
  - reflexivity.
Defined.


(** ** A second run on the output of the first *)

Lemma run_untouched {A} (c : M A) p w r w' :
  untouched p c → c w = (r, w') → fs w' !! p = fs w !! p.
Proof. intros Hc Hrun. specialize (Hc w). by rewrite Hrun in Hc. Qed.

Lemma mkdir_ok p w w' :
  mkdir_exist_ok p w = (Ok (), w') →
  usable w p ∧ fs w' !! p = Some Directory.
Proof.
  unfold mkdir_exist_ok, usable.
  destruct (fs w !! p) as [[]|] eqn:Hp; intros Heq; try discriminate;
    injection Heq as <-; simpl.
  - split; [by right|done].
  - split; [by left|apply lookup_insert_eq].
Qed.

(** A copy that returns leaves a directory at its destination. *)
Lemma copytree_dst src dst w w' :
  copytree src dst w = (Ok (), w') →
  usable w dst ∧ fs w' !! dst = Some Directory.
Proof.
  unfold copytree. destruct (fs w !! src) as [[]|]; try discriminate.
  destruct (mkdir_exist_ok dst w) as [[[]|e] w1] eqn:Hmk; try discriminate.
  apply mkdir_ok in Hmk as [Hu Hd].
  destruct (decide _); intros Heq; try discriminate. injection Heq as <-.
  split; [done|]. simpl. rewrite lookup_union_r; [done|].
  apply not_elem_of_list_to_map_1. intros Hin.
  apply list_elem_of_fmap in Hin as ([q n] & Hq & Hin). simpl in Hq. subst q.
  apply list_elem_of_filter in Hin as [_ Hin]. unfold copytree_entries in Hin.
  apply list_elem_of_fmap in Hin as ([p n'] & Heq & _).
  injection Heq as Heq _. unfold relocate in Heq.
  apply (f_equal String.length) in Heq.
  rewrite !app_length_str in Heq. simpl in Heq. lia.
Qed.

Lemma copy_if_present_dst src dst done missing w w' :
  copy_if_present src dst done missing w = (Ok (), w') →
  (is_Some (fs w !! src) → usable w dst ∧ fs w' !! dst = Some Directory)
  ∧ (fs w !! src = None → fs w' !! dst = fs w !! dst).
Proof.
  unfold copy_if_present. rewrite bind_run. unfold os_path_exists at 1.
  destruct (bool_decide_reflect (is_Some (fs w !! src))) as [Hs|Hs].
  - intros Hrun. apply bind_ok in Hrun as ([] & w1 & Hc & Hp).
    apply copytree_dst in Hc as [Hu Hd]. injection Hp as <-.
    split; [done|]. intros Hn. rewrite Hn in Hs. by destruct Hs.
  - intros [= <-]. split; [done|]. done.
Qed.

Lemma page_is_no_directory x :
  Py.startswith "/" x = false → page_path "build" x ∉ output_dirs.
Proof.
  intros Hx Hin. unfold page_path in Hin.
  rewrite os_path_join_relative in Hin by (by apply relative_page).
  unfold output_dirs in Hin.
  assert (∀ s, x +:+ ".html" = s → String.length s = String.length x + 5)
    as Hlen.
  { intros s <-. by rewrite app_length_str. }
  repeat (apply elem_of_cons in Hin as [Heq|Hin]).
  - discriminate Heq.
  - injection Heq as Heq. apply Hlen in Heq. simpl in Heq. lia.
  - injection Heq as Heq. pose proof (Hlen _ Heq) as Hl. simpl in Hl.
    destruct x as [|? [|? [|? [|? [|? ?]]]]]; simpl in Hl; try lia.
    discriminate Heq.
  - by apply elem_of_nil in Hin.
Qed.

Section Rerun.
Context `{Collaborators}.

(** The directories of the output after a run of [generate_pages] that
    returns. *)
Lemma generate_pages_directories T incl w w' :
  (∀ x, x ∈ all_extensions T → Py.startswith "/" x = false) →
  (fs w !! "portraits" = None → usable w "build/portraits") →
  generate_pages T "build" incl w = (Ok (), w') →
  ∀ p, p ∈ output_dirs → usable w p ∧ usable w' p.
Proof.
  intros Hrel Hport Hrun.
  rewrite generate_pages_split in Hrun.
  apply bind_ok in Hrun as ([] & wA & Hmk1 & Hrun).
  apply bind_ok in Hrun as ([] & wB & Hmk2 & Hrun).
  apply bind_ok in Hrun as ([] & wC & Hcss & Hrun).
  apply bind_ok in Hrun as ([] & wD & Hpt & Hrun).
  change (os_path_join "build" "css") with "build/css" in *.
  change (os_path_join "build" "portraits") with "build/portraits" in *.
  assert (∀ p, p ∈ output_dirs → fs w' !! p = fs wD !! p) as Htail.
  { intros p Hp. eapply run_untouched; [|exact Hrun].
    unfold output_dirs in Hp.
    apply write_pages_untouched.
    - repeat (apply elem_of_cons in Hp as [->|Hp]); try discriminate.
      by apply elem_of_nil in Hp.
    - repeat (apply elem_of_cons in Hp as [->|Hp]); try discriminate.
      by apply elem_of_nil in Hp.
    - intros x Hx ->. by apply (page_is_no_directory x); [apply Hrel|]. }
  apply mkdir_ok in Hmk1 as Hb. destruct Hb as [Hb1 Hb2].
  apply mkdir_ok in Hmk2 as Hc. destruct Hc as [Hc1 Hc2].
  pose proof (mkdir_frame "build" "build/css" w) as Hf1.
  pose proof (mkdir_frame "build" "build/portraits" w) as Hf1'.
  rewrite Hmk1 in Hf1, Hf1'. simpl in Hf1, Hf1'.
  pose proof (mkdir_frame "build/css" "build" wA) as Hf2.
  pose proof (mkdir_frame "build/css" "build/portraits" wA) as Hf2'.
  rewrite Hmk2 in Hf2, Hf2'. simpl in Hf2, Hf2'.
  pose proof (copy_if_present_frame "layout/css" "build/css"
                "CSS files copied successfully"
                "Warning: layout/css directory not found" "build" wB) as Hf3.
  pose proof (copy_if_present_frame "layout/css" "build/css"
                "CSS files copied successfully"
                "Warning: layout/css directory not found"
                "build/portraits" wB) as Hf3'.
  rewrite Hcss in Hf3, Hf3'. simpl in Hf3, Hf3'.
  pose proof (copy_if_present_frame "portraits" "build/portraits"
                "Portraits directory copied successfully"
                "Warning: portraits directory not found" "build" wC) as Hf4.
  pose proof (copy_if_present_frame "portraits" "build/portraits"
                "Portraits directory copied successfully"
                "Warning: portraits directory not found"
                "build/css" wC) as Hf4'.
  rewrite Hpt in Hf4, Hf4'. simpl in Hf4, Hf4'.
  assert (fs wB !! "portraits" = fs w !! "portraits") as Hsrc.
  { pose proof (mkdir_frame "build" "portraits" w) as G1.
    pose proof (mkdir_frame "build/css" "portraits" wA) as G2.
    rewrite Hmk1 in G1. rewrite Hmk2 in G2. simpl in G1, G2.
    rewrite G2, G1; done. }
  assert (fs wC !! "portraits" = fs w !! "portraits") as Hsrc'.
  { pose proof (copy_if_present_frame "layout/css" "build/css"
                  "CSS files copied successfully"
                  "Warning: layout/css directory not found"
                  "portraits" wB) as G3.
    rewrite Hcss in G3. simpl in G3. rewrite G3; done. }
  assert (fs wC !! "build/css" = Some Directory) as Hcssdir.
  { apply copy_if_present_dst in Hcss as [Hyes Hno].
    destruct (fs wB !! "layout/css") as [n|] eqn:Hl.
    - by apply Hyes.
    - by rewrite Hno. }
  assert (usable w "build/portraits" ∧ usable wD "build/portraits")
    as [Hp1 Hp2].
  { apply copy_if_present_dst in Hpt as [Hyes Hno].
    assert (fs wC !! "build/portraits" = fs w !! "build/portraits") as Hsame
      by (rewrite Hf3', Hf2', Hf1'; done).
    unfold usable in *. rewrite Hsrc' in Hyes, Hno.
    destruct (fs w !! "portraits") as [n|] eqn:Hl.
    - destruct Hyes as [Hu Hd]; [done|]. rewrite Hsame in Hu.
      split; [done|by right].
    - rewrite Hno, Hsame by done. split; by apply Hport. }
  intros p Hp. unfold usable. rewrite (Htail p Hp).
  unfold output_dirs in Hp.
  repeat (apply elem_of_cons in Hp as [->|Hp]).
  - split; [done|]. right. rewrite Hf4, Hf3, Hf2; done.
  - split; [unfold usable in Hc1; by rewrite Hf1 in Hc1|].
    right. rewrite Hf4'; done.
  - done.
  - by apply elem_of_nil in Hp.
Qed.


End Rerun.


(** ** The run: what makes it fail *)

Lemma raises_only_never {A} P (c : M A) : never_raises c → raises_only P c.
Proof. intros Hc w e He. destruct (Hc w) as [a Ha]. congruence. Qed.

Lemma raises_only_weaken {A} (P Q : exn → Prop) (c : M A) :
  (∀ e, P e → Q e) → raises_only P c → raises_only Q c.
Proof. intros HPQ Hc w e He. by eapply HPQ, Hc. Qed.

Lemma raises_only_bind {A B} P (c : M A) (k : A → M B) :
  raises_only P c → (∀ a, raises_only P (k a)) → raises_only P (c ≫= k).
Proof.
  intros Hc Hk w e. rewrite bind_run. specialize (Hc w).
  destruct (c w) as [[a|e'] w1]; simpl in *.
  - apply Hk.
  - intros [= <-]. by apply Hc.
Qed.

Lemma raises_only_for_each {A B} P (body : A → B → M A) acc l :
  (∀ a x, raises_only P (body a x)) → raises_only P (for_each body acc l).
Proof.
  intros Hbody. revert acc. induction l as [|x l IH]; intros acc; simpl.
  - apply raises_only_never, never_raises_ret.
  - apply raises_only_bind; [apply Hbody|apply IH].
Qed.

Lemma raises_only_lift {A} (r : result A) :
  raises_only (λ e, r = Raise e) (lift r).
Proof. by intros w e. Qed.

Lemma raises_only_mkdir p :
  raises_only (λ e, e = FileExistsError p) (mkdir_exist_ok p).
Proof.
  intros w e. unfold mkdir_exist_ok.
  destruct (fs w !! p) as [[]|]; simpl; congruence.
Qed.

(** The source of the copy is there, so that the copy does not fail for
    a missing source. *)
Lemma raises_only_copy_if_present src dst done missing :
  raises_only (λ e, e = OSError src ∨ e = ShutilError src
                    ∨ e = FileExistsError dst)
    (copy_if_present src dst done missing).
Proof.
  intros w e. unfold copy_if_present. rewrite bind_run.
  unfold os_path_exists at 1.
  destruct (bool_decide_reflect (is_Some (fs w !! src))) as [Hs|Hs];
    [|done].
  rewrite bind_run. unfold copytree.
  destruct (fs w !! src) as [[]|] eqn:Hsrc; simpl;
    [|intros [= <-]; auto..|by destruct Hs].
  pose proof (raises_only_mkdir dst w) as Hmk.
  destruct (mkdir_exist_ok dst w) as [[[]|e'] w1]; simpl in *.
  - destruct (decide _); simpl; [done|]. intros [= <-]. auto.
  - intros [= <-]. right. right. by apply Hmk.
Qed.

Section Failure.
Context `{Collaborators}.

Lemma raises_only_write_rendered path t ctx :
  raises_only (λ e, render t ctx = Raise e) (write_rendered path t ctx).
Proof.
  intros w e. unfold write_rendered. rewrite !bind_run. simpl.
  destruct (render t ctx) as [text|e']; simpl; [discriminate|].
  by intros [= ->].
Qed.

Lemma raises_only_write_extension_page T build_path incl t extension :
  raises_only (λ e, ∃ ctx, render t ctx = Raise e)
    (write_extension_page T build_path incl t () extension).
Proof.
  unfold write_extension_page.
  destruct (compatibility_data _ _ _) as [[rate failed] has].
  apply raises_only_bind.
  - apply raises_only_never. destruct has;
      [apply never_raises_get_terminal_outputs|apply never_raises_ret].
  - intros outs. eapply raises_only_weaken; [|apply raises_only_write_rendered].
    intros e He. simpl in He. by eexists.
Qed.

Lemma raises_only_template csv_file_path build_path name :
  name ∈ ["index.html"; "results.html"; "extension.html"] →
  raises_only (run_failure csv_file_path build_path)
    (lift (get_template name)).
Proof.
  intros Hname. eapply raises_only_weaken; [|apply raises_only_lift].
  intros e He. simpl in He. right. left. by exists name.
Qed.

Lemma raises_only_page csv_file_path build_path path t ctx :
  raises_only (run_failure csv_file_path build_path)
    (write_rendered path t ctx).
Proof.
  eapply raises_only_weaken; [|apply raises_only_write_rendered].
  intros e He. simpl in He. right. right. by exists t, ctx.
Qed.

Lemma raises_only_generate_pages csv_file_path T build_path incl :
  raises_only (run_failure csv_file_path build_path)
    (generate_pages T build_path incl).
Proof.
  unfold generate_pages.
  apply raises_only_bind.
  { eapply raises_only_weaken; [|apply raises_only_mkdir].
    intros e He. simpl in He. subst e. left. set_solver. }
  intros _. apply raises_only_bind.
  { eapply raises_only_weaken; [|apply raises_only_mkdir].
    intros e He. simpl in He. subst e. left. set_solver. }
  intros _. apply raises_only_bind.
  { eapply raises_only_weaken; [|apply raises_only_copy_if_present].
    intros e He. simpl in He. destruct He as [ -> | [ -> | -> ] ]; left;
      set_solver. }
  intros _. apply raises_only_bind.
  { eapply raises_only_weaken; [|apply raises_only_copy_if_present].
    intros e He. simpl in He. destruct He as [ -> | [ -> | -> ] ]; left;
      set_solver. }
  intros _. apply raises_only_bind;
    [apply raises_only_template; set_solver|intros ti].
  apply raises_only_bind; [apply raises_only_page|intros _].
  apply raises_only_bind;
    [apply raises_only_template; set_solver|intros tr].
  apply raises_only_bind; [apply raises_only_page|intros _].
  apply raises_only_bind;
    [apply raises_only_template; set_solver|intros t].
  apply raises_only_bind.
  { apply raises_only_for_each. intros [] x.
    eapply raises_only_weaken; [|apply raises_only_write_extension_page].
    intros e [ctx He]. right. right. by exists t, ctx. }
  intros _. apply raises_only_never.
  repeat (apply never_raises_bind; [apply never_raises_print|intros _]).
  apply never_raises_for_each. intros _ x. apply never_raises_print.
Qed.


End Failure.


(** ** The script run as a program *)

(** The program checks the compatibility table first and the templates
    second, and reports the first that is missing: it prints the report,
    returns, and reads and writes nothing else.  A missing table is
    reported even when the templates are missing too. *)
Theorem main_reports_missing_inputs `{Collaborators} (w : world) :
  (fs w !! "csvs/compatibility.csv" = None →
   main w = (Ok (), World (fs w)
                      (stdout w
                       ++ csv_missing_report "csvs/compatibility.csv")))
  ∧ (is_Some (fs w !! "csvs/compatibility.csv") →
     fs w !! "layout" = None →
     main w = (Ok (), World (fs w) (stdout w ++ layout_missing_report))).
Proof.
  split.
  - intros Hno. unfold main.
    rewrite (bind_step _ _ w false w); [apply print_lines|].
    unfold os_path_exists. rewrite bool_decide_eq_false_2; [done|].
    rewrite Hno. by intros [? ?].
  - intros Hcsv Hno. unfold main.
    rewrite (bind_step _ _ w true w)
      by (unfold os_path_exists; by rewrite bool_decide_eq_true_2).
    unfold generate_website.
    rewrite (bind_step _ _ w false w); [apply print_lines|].
    unfold os_path_exists. rewrite bool_decide_eq_false_2; [done|].
    rewrite Hno. by intros [? ?].
Qed.

Lemma main_reports_missing_inputs_witness :
  main (H := demo) no_matrix_world
  = (Ok (), World (fs no_matrix_world)
              (csv_missing_report "csvs/compatibility.csv"))
  ∧ main (H := demo) no_layout_world
    = (Ok (), World (fs no_layout_world) layout_missing_report).
Proof.
  split.
  - apply (proj1 (main_reports_missing_inputs (H := demo) no_matrix_world)).
    reflexivity.
  - apply (proj2 (main_reports_missing_inputs (H := demo) no_layout_world)).
    + by eexists.
    + reflexivity.
Defined.
